(** * Timetable CSP search (PS2/csp_timetable.py): shallow embedding

    The development follows the Python module function by function:
    [build_domains], [violates], [select_mrv], [lcv_order] and the search
    driver [backtrack_search] with its inner procedure [recurse2] (the inner
    procedure [recurse] of the module is never called and is not embedded).

    Modelling choices.
    - Identifiers (course, teacher, group, timeslot, room) are strings.
    - [courses_by_id] and [domains] are dictionaries that the code only reads
      and writes by key: they are finite maps ([gmap]).  [assignment] and
      [saved] are dictionaries the code iterates over: they are kept as
      insertion-ordered association lists, as Python dictionaries are.
    - Subscripting a dictionary with a missing key raises [KeyError]; every
      function that subscripts returns in the error monad [res].
    - [time.perf_counter()] is an oracle: the n-th reading of the clock is
      [perf_counter n], an idealised (rational) number of seconds.
    - The recursion of [recurse2] is bounded by a fuel argument, the number
      of calls of [recurse2] that may nest.
    - [backtrack_search] is the function on an interpreter without limits:
      [time_limit_ms] converts to an exact rational and the stack is as
      deep as the recursion needs (the driver supplies more fuel than the
      recursion can use, see [recurse2_total]).  [backtrack_search_bounded]
      is the function with the two limits of the interpreter that it can
      meet: the conversion of [time_limit_ms] to a float, which raises
      [OverflowError], and the recursion limit, which raises
      [RecursionError].  Whenever it returns a record, this is the record
      of [backtrack_search] (see [bounded_refines]). *)

From Stdlib Require Import QArith.
From stdpp Require Import gmap strings list sorting.

Close Scope Q_scope.
Open Scope Z_scope.
Open Scope string_scope.
Open Scope list_scope.

(** ** Results of partial operations *)

Inductive res (A : Type) : Type :=
| Ok (a : A)
| KeyError
| OutOfFuel.
Arguments Ok {A} a.
Arguments KeyError {A}.
Arguments OutOfFuel {A}.

#[global] Instance res_bind : MBind res := fun A B k c =>
  match c with
  | Ok a => k a
  | KeyError => KeyError
  | OutOfFuel => OutOfFuel
  end.

(** [d[k]] on a dictionary held as a finite map. *)
Definition getitem {V : Type} (d : gmap string V) (k : string) : res V :=
  match d !! k with
  | Some v => Ok v
  | None => KeyError
  end.

(** ** Data model *)

(** A candidate value: (timeslot, room id). *)
Definition Value : Type := string * string.

Record Course : Type := mkCourse {
  id : string;
  teacher : string;
  groups : list string;
  size : Z
}.

Record Room : Type := mkRoom {
  room_id : string;
  capacity : Z
}.

(** ** Insertion-ordered dictionaries *)

Module Dict.

Definition t (V : Type) : Type := list (string * V).

(** [k in d] *)
Definition mem {V : Type} (k : string) (d : t V) : bool :=
  existsb (fun p => String.eqb (fst p) k) d.

(** [d[k] = v]: an existing key keeps its position, a new key goes last. *)
Fixpoint set {V : Type} (k : string) (v : V) (d : t V) : t V :=
  match d with
  | [] => [(k, v)]
  | (k', v') :: d' =>
      if String.eqb k' k then (k, v) :: d' else (k', v') :: set k v d'
  end.

(** [d.pop(k, None)] *)
Fixpoint pop {V : Type} (k : string) (d : t V) : t V :=
  match d with
  | [] => []
  | (k', v') :: d' =>
      if String.eqb k' k then d' else (k', v') :: pop k d'
  end.

Definition keys {V : Type} (d : t V) : list string := map fst d.

End Dict.

(** ** build_domains *)

(** The two inner loops of [build_domains], appending to [dom]. *)
Fixpoint build_rooms (c : Course) (ts : string) (rooms : list Room)
    (dom : list Value) : list Value :=
  match rooms with
  | [] => dom
  | r :: rooms' =>
      if (size c <=? capacity r)%Z
      then build_rooms c ts rooms' (dom ++ [(ts, room_id r)])
      else build_rooms c ts rooms' dom
  end.

Fixpoint build_timeslots (c : Course) (timeslots : list string)
    (rooms : list Room) (dom : list Value) : list Value :=
  match timeslots with
  | [] => dom
  | ts :: timeslots' =>
      build_timeslots c timeslots' rooms (build_rooms c ts rooms dom)
  end.

Fixpoint build_courses (courses : list Course) (timeslots : list string)
    (rooms : list Room) (domains : gmap string (list Value))
    : gmap string (list Value) :=
  match courses with
  | [] => domains
  | c :: courses' =>
      build_courses courses' timeslots rooms
        (<[id c := build_timeslots c timeslots rooms []]> domains)
  end.

Definition build_domains (courses : list Course) (timeslots : list string)
    (rooms : list Room) : gmap string (list Value) :=
  build_courses courses timeslots rooms ∅.

(** ** violates *)

(** [set(a).intersection(set(b))] is truthy when the lists share an element. *)
Definition intersects (a b : list string) : bool :=
  existsb (fun g => existsb (String.eqb g) b) a.

(** The loop of [violates] over [assignment.items()]. *)
Fixpoint violates_items (course_by_id : gmap string Course) (c : Course)
    (ts room : string) (items : Dict.t Value) : res bool :=
  match items with
  | [] => Ok false
  | (other_id, (ots, oroom)) :: rest =>
      if negb (String.eqb ots ts)
      then violates_items course_by_id c ts room rest
      else
        other ← getitem course_by_id other_id;
        if String.eqb (teacher other) (teacher c) then Ok true
        else if intersects (groups other) (groups c) then Ok true
        else if String.eqb oroom room then Ok true
        else violates_items course_by_id c ts room rest
  end.

Definition violates (assignment : Dict.t Value)
    (course_by_id : gmap string Course) (course_id : string) (value : Value)
    : res bool :=
  let '(ts, room) := value in
  c ← getitem course_by_id course_id;
  violates_items course_by_id c ts room assignment.

(** ** select_mrv *)

Definition best_size_init : Z := 10 ^ 9.

(** The loop of [select_mrv], carrying [best] and [best_size]. *)
Fixpoint select_mrv_loop (domains : gmap string (list Value))
    (unassigned : list string) (best : option string) (best_size : Z)
    : res (option string) :=
  match unassigned with
  | [] => Ok best
  | var :: rest =>
      d ← getitem domains var;
      let s := Z.of_nat (length d) in
      if (s <? best_size)%Z
      then select_mrv_loop domains rest (Some var) s
      else select_mrv_loop domains rest best best_size
  end.

Definition select_mrv (unassigned : list string)
    (domains : gmap string (list Value)) : res (option string) :=
  select_mrv_loop domains unassigned None best_size_init.

(** ** lcv_order *)

(** The innermost loop of [lcv_order] over [domains[other]]: [Ok true] when
    the loop leaves through [elim += 1; break]. *)
Fixpoint lcv_scan (courses_by_id : gmap string Course) (var other : string)
    (v : Value) (dom : list Value) : res bool :=
  match dom with
  | [] => Ok false
  | ov :: rest =>
      if negb (String.eqb (fst ov) (fst v))
      then lcv_scan courses_by_id var other v rest
      else if String.eqb (snd ov) (snd v) then Ok true
      else
        co ← getitem courses_by_id var;
        co2 ← getitem courses_by_id other;
        if String.eqb (teacher co) (teacher co2)
           || intersects (groups co) (groups co2)
        then Ok true
        else lcv_scan courses_by_id var other v rest
  end.

(** The loop over [unassigned], carrying [elim]. *)
Fixpoint lcv_elim (courses_by_id : gmap string Course)
    (domains : gmap string (list Value)) (var : string) (v : Value)
    (unassigned : list string) (elim : nat) : res nat :=
  match unassigned with
  | [] => Ok elim
  | other :: rest =>
      if String.eqb other var
      then lcv_elim courses_by_id domains var v rest elim
      else
        d ← getitem domains other;
        hit ← lcv_scan courses_by_id var other v d;
        lcv_elim courses_by_id domains var v rest
          (if (hit : bool) then S elim else elim)
  end.

(** The loop over [vals], building [scored] in order. *)
Fixpoint lcv_scored (courses_by_id : gmap string Course)
    (domains : gmap string (list Value)) (var : string)
    (unassigned : list string) (vals : list Value)
    : res (list (nat * Value)) :=
  match vals with
  | [] => Ok []
  | v :: vals' =>
      elim ← lcv_elim courses_by_id domains var v unassigned 0%nat;
      scored ← lcv_scored courses_by_id domains var unassigned vals';
      Ok ((elim, v) :: scored)
  end.

(** [list.sort(key=...)] is a stable sort; it is modelled by insertion
    sort, which places an element after the elements with an equal key. *)
Fixpoint insert_by_key {A : Type} (key : A -> nat) (x : A) (l : list A)
    : list A :=
  match l with
  | [] => [x]
  | y :: l' =>
      if (key y <=? key x)%nat then y :: insert_by_key key x l'
      else x :: y :: l'
  end.

Definition sort_by_key {A : Type} (key : A -> nat) (l : list A) : list A :=
  foldl (fun acc x => insert_by_key key x acc) [] l.

Definition lcv_order (var : string) (domains : gmap string (list Value))
    (unassigned : list string) (courses_by_id : gmap string Course)
    : res (list Value) :=
  vals ← getitem domains var;
  scored ← lcv_scored courses_by_id domains var unassigned vals;
  Ok (map snd (sort_by_key fst scored)).

(** ** backtrack_search *)

(** Observable steps of a search, for statements about the order of events.
    The log is written and never read by the search. *)
Inductive Event : Type :=
| EvDeadline (expired : bool)          (* a call of [timeout()] and its answer *)
| EvTry (var : string) (val : Value)   (* [tries += 1] for a candidate *)
| EvPrune (other : string).            (* [domains[other] = newdom] *)

(** The variables that [recurse2] shares with its enclosing call of
    [backtrack_search], the number of clock readings taken so far, and the
    log, latest event first. *)
Record State : Type := mkState {
  assignment : Dict.t Value;
  domains : gmap string (list Value);
  backtracks : nat;
  tries : nat;
  clock : nat;
  trace : list Event
}.

Definition set_assignment (a : Dict.t Value) (st : State) : State :=
  mkState a (domains st) (backtracks st) (tries st) (clock st) (trace st).

Definition set_domains (d : gmap string (list Value)) (st : State) : State :=
  mkState (assignment st) d (backtracks st) (tries st) (clock st) (trace st).

Definition incr_backtracks (st : State) : State :=
  mkState (assignment st) (domains st) (S (backtracks st)) (tries st)
    (clock st) (trace st).

Definition incr_tries (st : State) : State :=
  mkState (assignment st) (domains st) (backtracks st) (S (tries st))
    (clock st) (trace st).

Definition tick (st : State) : State :=
  mkState (assignment st) (domains st) (backtracks st) (tries st)
    (S (clock st)) (trace st).

Definition log (e : Event) (st : State) : State :=
  mkState (assignment st) (domains st) (backtracks st) (tries st)
    (clock st) (e :: trace st).

(** The record returned by [backtrack_search]. *)
Record SearchResult : Type := mkResult {
  found : bool;
  time_ms : Q;
  res_backtracks : nat;
  assignments_tried : nat;
  solution : Dict.t Value
}.

(** The restore loop of [recurse2]: [for k,v in saved.items(): domains[k] = v]. *)
Fixpoint restore (saved : Dict.t (list Value))
    (doms : gmap string (list Value)) : gmap string (list Value) :=
  match saved with
  | [] => doms
  | (k, v) :: saved' => restore saved' (<[k := v]> doms)
  end.

Section Search.

Variable perf_counter : nat -> Q.
Variable start : Q.
Variable time_limit_s : Q.
Variable course_ids : list string.
Variable courses_by_id : gmap string Course.
Variable forward_checking : bool.

(** [(time.perf_counter() - start) > time_limit_s] *)
Definition expired_at (n : nat) : bool :=
  negb (Qle_bool (perf_counter n - start)%Q time_limit_s).

Definition timeout (st : State) : bool * State :=
  let expired := expired_at (clock st) in
  (expired, log (EvDeadline expired) (tick st)).

(** [newdom] of the forward check: the values [ov] of [dom], in order,
    with [not violates({**assignment}, courses_by_id, other, ov)]. *)
Fixpoint prune_values (asg : Dict.t Value) (other : string)
    (dom : list Value) : res (list Value) :=
  match dom with
  | [] => Ok []
  | ov :: rest =>
      viol ← violates asg courses_by_id other ov;
      newdom ← prune_values asg other rest;
      Ok (if (viol : bool) then newdom else ov :: newdom)
  end.

(** The forward-check loop over [unassigned]; the flag is [failure]. *)
Fixpoint forward_check (var : string) (unassigned : list string)
    (saved : Dict.t (list Value)) (st : State)
    : res (bool * Dict.t (list Value) * State) :=
  match unassigned with
  | [] => Ok (false, saved, st)
  | other :: rest =>
      if String.eqb other var then forward_check var rest saved st
      else
        dom ← getitem (domains st) other;
        let saved := Dict.set other dom saved in
        newdom ← prune_values (assignment st) other dom;
        let st := log (EvPrune other)
                    (set_domains (<[other := newdom]> (domains st)) st) in
        if (length newdom =? 0)%nat then Ok (true, saved, st)
        else forward_check var rest saved st
  end.

(** Lines 196-211: assign, then save and prune when forward checking. *)
Definition assign_and_prune (var : string) (unassigned : list string)
    (val : Value) (st : State) : res (bool * Dict.t (list Value) * State) :=
  let st := set_assignment (Dict.set var val (assignment st)) st in
  if forward_checking then forward_check var unassigned [] st
  else Ok (false, [], st).

(** Lines 216-218: restore the saved domains and pop the variable. *)
Definition undo (var : string) (saved : Dict.t (list Value)) (st : State)
    : State :=
  let st := set_domains (restore saved (domains st)) st in
  set_assignment (Dict.pop var (assignment st)) st.

(** The loop [for val in ordered_vals] with the final [backtracks += 1];
    [rec] is the recursive call. *)
Fixpoint try_values (rec : State -> res (bool * State)) (var : string)
    (unassigned : list string) (vals : list Value) (st : State)
    : res (bool * State) :=
  match vals with
  | [] => Ok (false, incr_backtracks st)
  | val :: rest =>
      let st := log (EvTry var val) (incr_tries st) in
      viol ← violates (assignment st) courses_by_id var val;
      if (viol : bool) then try_values rec var unassigned rest st
      else
        '(failure, saved, st) ← assign_and_prune var unassigned val st;
        '(ok, st) ← (if (failure : bool) then Ok (false, st) else rec st);
        if (ok : bool) then Ok (true, st)
        else try_values rec var unassigned rest (undo var saved st)
  end.

Fixpoint recurse2 (fuel : nat) (st : State) : res (bool * State) :=
  match fuel with
  | O => OutOfFuel
  | S fuel' =>
      let '(expired, st) := timeout st in
      if expired then Ok (false, st)
      else if (length (assignment st) =? length course_ids)%nat
      then Ok (true, st)
      else
        let unassigned :=
          List.filter (fun v => negb (Dict.mem v (assignment st)))
            course_ids in
        best ← select_mrv unassigned (domains st);
        match best with
        | None => Ok (false, st)
        | Some var =>
            ordered_vals ←
              lcv_order var (domains st) unassigned courses_by_id;
            match ordered_vals with
            | [] => Ok (false, incr_backtracks st)
            | _ :: _ =>
                try_values (recurse2 fuel') var unassigned ordered_vals st
            end
        end
  end.

End Search.

(** [{c.id: c for c in courses}]: a later course replaces an earlier one
    with the same id. *)
Definition index_courses (courses : list Course) : gmap string Course :=
  foldl (fun m c => <[id c := c]> m) ∅ courses.

Definition backtrack_search (perf_counter : nat -> Q)
    (courses : list Course) (domains_init : gmap string (list Value))
    (forward_checking : bool) (time_limit_ms : Z) : res SearchResult :=
  let start := perf_counter 0%nat in
  let course_ids := map id courses in
  let courses_by_id := index_courses courses in
  let time_limit_s := (inject_Z time_limit_ms / 1000)%Q in
  let st := mkState [] domains_init 0 0 1 [] in
  '(ok, st) ← recurse2 perf_counter start time_limit_s course_ids
                courses_by_id forward_checking (S (length course_ids)) st;
  let t_ms := ((perf_counter (clock st) - start) * 1000)%Q in
  Ok (mkResult ok t_ms (backtracks st) (tries st) (assignment st)).

(** ** backtrack_search under the limits of the interpreter *)

(** [time_limit_ms/1000.0] first converts the integer [time_limit_ms] to a
    float, rounding to nearest, ties to even.  The conversion raises
    [OverflowError] when the rounded value is not finite: from
    2^1024 - 2^970 on, in magnitude. *)
Definition float_overflow : Z := 2 ^ 1024 - 2 ^ 970.

Definition overflows (n : Z) : bool := (float_overflow <=? Z.abs n)%Z.

(** What a call of [backtrack_search] comes to: a record, or one of the
    exceptions that the function can raise and does not catch. *)
Inductive Outcome : Type :=
| Returned (r : SearchResult)
| RaisedKeyError
| RaisedOverflowError
| RaisedRecursionError.

(** [backtrack_search] with the limits of the interpreter.  [depth] stands
    for the room that the recursion limit leaves when [recurse2] is first
    called: the interpreter can nest [depth] calls of [recurse2], each with
    the calls that [recurse2] makes itself ([timeout], [select_mrv],
    [lcv_order] with its sort key, [violates]).  A call of [recurse2] that
    would nest deeper raises [RecursionError]; like [KeyError], it is
    caught nowhere and leaves [backtrack_search].  Whether an interpreter
    still completes a call one level deeper that returns at its deadline
    check depends on its version; the function below raises there, so that
    a record it returns is returned with that room by any version.  The
    conversion of line 120 comes before the first call of [recurse2]. *)
Definition backtrack_search_bounded (depth : nat) (perf_counter : nat -> Q)
    (courses : list Course) (domains_init : gmap string (list Value))
    (forward_checking : bool) (time_limit_ms : Z) : Outcome :=
  let start := perf_counter 0%nat in
  let course_ids := map id courses in
  let courses_by_id := index_courses courses in
  if overflows time_limit_ms then RaisedOverflowError
  else
    let time_limit_s := (inject_Z time_limit_ms / 1000)%Q in
    let st := mkState [] domains_init 0 0 1 [] in
    match recurse2 perf_counter start time_limit_s course_ids
            courses_by_id forward_checking depth st with
    | Ok (ok, st) =>
        let t_ms := ((perf_counter (clock st) - start) * 1000)%Q in
        Returned
          (mkResult ok t_ms (backtracks st) (tries st) (assignment st))
    | KeyError => RaisedKeyError
    | OutOfFuel => RaisedRecursionError
    end.

(** * Properties *)

(** ** The error monad *)

Lemma bind_Ok {A B : Type} (c : res A) (k : A -> res B) (b : B) :
  c ≫= k = Ok b -> exists a, c = Ok a /\ k a = Ok b.
Proof. destruct c; simpl; intros H; try discriminate. eauto. Qed.

Lemma getitem_Some {V : Type} (d : gmap string V) (k : string) (v : V) :
  d !! k = Some v -> getitem d k = Ok v.
Proof. unfold getitem. by intros ->. Qed.

Lemma getitem_Ok {V : Type} (d : gmap string V) (k : string) (v : V) :
  getitem d k = Ok v -> d !! k = Some v.
Proof. unfold getitem. destruct (d !! k); congruence. Qed.

Ltac inv_bind H :=
  let a := fresh "a" in
  let Ha := fresh "Ha" in
  apply bind_Ok in H; destruct H as (a & Ha & H).

(** ** Conflicts between two placed courses *)

Lemma intersects_spec (a b : list string) :
  intersects a b = true <-> exists g, g ∈ a /\ g ∈ b.
Proof.
  unfold intersects. rewrite existsb_exists. split.
  - intros (g & Hg & Hb). apply existsb_exists in Hb as (g' & Hg' & He).
    apply String.eqb_eq in He. subst g'.
    exists g. by rewrite !list_elem_of_In.
  - intros (g & Hg & Hb). exists g. rewrite <- list_elem_of_In. split; [done|].
    apply existsb_exists. exists g. rewrite <- list_elem_of_In.
    split; [done | apply String.eqb_refl].
Qed.

Lemma intersects_sym (a b : list string) : intersects a b = intersects b a.
Proof.
  apply eq_true_iff_eq. rewrite !intersects_spec.
  split; intros (g & ? & ?); by exists g.
Qed.

(** The conflict of the specification between a course [c] placed at
    [(ts, room)] and a course [other] placed at [(ots, oroom)]. *)
Definition conflict (c other : Course) (ts room ots oroom : string) : Prop :=
  ots = ts /\
  (teacher other = teacher c \/
   (exists g, g ∈ groups other /\ g ∈ groups c) \/
   oroom = room).

Definition conflictb (c other : Course) (ts room ots oroom : string) : bool :=
  String.eqb ots ts &&
  (String.eqb (teacher other) (teacher c)
   || intersects (groups other) (groups c)
   || String.eqb oroom room).

Lemma conflictb_spec c other ts room ots oroom :
  conflictb c other ts room ots oroom = true
  <-> conflict c other ts room ots oroom.
Proof.
  unfold conflictb, conflict.
  rewrite andb_true_iff, !orb_true_iff, !String.eqb_eq, intersects_spec.
  tauto.
Qed.

(** ** violates *)

(** Every key of the dictionary has a course record. *)
Definition known (course_by_id : gmap string Course) (a : Dict.t Value)
    : Prop :=
  forall k v, (k, v) ∈ a -> is_Some (course_by_id !! k).

Lemma violates_items_existsb course_by_id c ts room items :
  known course_by_id items ->
  violates_items course_by_id c ts room items =
  Ok (existsb (fun e =>
        match course_by_id !! fst e with
        | Some other => conflictb c other ts room (fst (snd e)) (snd (snd e))
        | None => false
        end) items).
Proof.
  induction items as [|[other_id [ots oroom]] rest IH]; intros Hk; [done|].
  assert (Hrest : known course_by_id rest).
  { intros k v Hin. apply (Hk k v). by right. }
  destruct (Hk other_id (ots, oroom)) as [other Ho]; [by left|].
  simpl. rewrite Ho. unfold conflictb.
  destruct (String.eqb ots ts); simpl; [|by apply IH].
  rewrite (getitem_Some _ _ _ Ho). simpl.
  destruct (String.eqb (teacher other) (teacher c)); [done|].
  destruct (intersects (groups other) (groups c)); [done|].
  destruct (String.eqb oroom room); [done|]. by apply IH.
Qed.

(** The loop returns at the first conflicting entry: what follows it is
    never inspected. *)
Lemma violates_items_first course_by_id c ts room pre e post other :
  known course_by_id pre ->
  course_by_id !! fst e = Some other ->
  conflictb c other ts room (fst (snd e)) (snd (snd e)) = true ->
  violates_items course_by_id c ts room (pre ++ e :: post) = Ok true.
Proof.
  intros Hpre He Hc.
  induction pre as [|[k [ots oroom]] pre IH]; simpl.
  - destruct e as [k [ots oroom]]. simpl in *. unfold conflictb in Hc.
    destruct (String.eqb ots ts); [|done]. simpl in *.
    rewrite (getitem_Some _ _ _ He). simpl.
    destruct (String.eqb (teacher other) (teacher c)); [done|].
    destruct (intersects (groups other) (groups c)); [done|].
    by destruct (String.eqb oroom room).
  - assert (Hrest : known course_by_id pre).
    { intros k' v' Hin. apply (Hpre k' v'). by right. }
    destruct (String.eqb ots ts); simpl; [|by apply IH].
    destruct (Hpre k (ots, oroom)) as [o Ho]; [by left|].
    rewrite (getitem_Some _ _ _ Ho). simpl.
    destruct (String.eqb (teacher o) (teacher c)); [done|].
    destruct (intersects (groups o) (groups c)); [done|].
    destruct (String.eqb oroom room); [done|]. by apply IH.
Qed.

(** [violates] as a boolean expression, when every id has a record. *)
Definition violatesb (assignment : Dict.t Value)
    (course_by_id : gmap string Course) (c : Course) (value : Value) : bool :=
  existsb (fun e =>
    match course_by_id !! fst e with
    | Some other =>
        conflictb c other (fst value) (snd value) (fst (snd e)) (snd (snd e))
    | None => false
    end) assignment.

Lemma violates_violatesb assignment course_by_id course_id c value :
  course_by_id !! course_id = Some c ->
  known course_by_id assignment ->
  violates assignment course_by_id course_id value =
  Ok (violatesb assignment course_by_id c value).
Proof.
  intros Hc Hk. destruct value as [ts room]. unfold violates.
  rewrite (getitem_Some _ _ _ Hc). simpl.
  by rewrite violates_items_existsb.
Qed.

Lemma violatesb_spec assignment course_by_id c ts room :
  violatesb assignment course_by_id c (ts, room) = true <->
  exists other_id ots oroom other,
    (other_id, (ots, oroom)) ∈ assignment /\
    course_by_id !! other_id = Some other /\
    conflict c other ts room ots oroom.
Proof.
  unfold violatesb. rewrite existsb_exists. split.
  - intros ([k [ots oroom]] & Hin & Hc). simpl in Hc.
    destruct (course_by_id !! k) as [other|] eqn:Ho; [|done].
    exists k, ots, oroom, other. rewrite list_elem_of_In.
    by rewrite <- conflictb_spec.
  - intros (k & ots & oroom & other & Hin & Ho & Hc).
    exists (k, (ots, oroom)). rewrite <- list_elem_of_In. split; [done|].
    simpl. rewrite Ho. by apply conflictb_spec.
Qed.

(** C6.  For a course [course_id] with a record and an assignment whose
    keys all have records, [violates] returns a boolean (it does not raise),
    and it returns [true] exactly when some assigned course sits in the
    candidate's timeslot and has the same teacher, a common group, or the
    same room.  It answers [true] at the first conflicting entry, whatever
    follows that entry in the assignment. *)
Theorem violates_spec (assignment : Dict.t Value)
    (course_by_id : gmap string Course) (course_id : string) (c : Course)
    (ts room : string) :
  course_by_id !! course_id = Some c ->
  known course_by_id assignment ->
  (exists b, violates assignment course_by_id course_id (ts, room) = Ok b /\
     (b = true <->
      exists other_id ots oroom other,
        (other_id, (ots, oroom)) ∈ assignment /\
        course_by_id !! other_id = Some other /\
        ots = ts /\
        (teacher other = teacher c \/
         (exists g, g ∈ groups other /\ g ∈ groups c) \/
         oroom = room))) /\
  (forall other_id ots oroom other post,
     course_by_id !! other_id = Some other ->
     conflict c other ts room ots oroom ->
     violates (assignment ++ (other_id, (ots, oroom)) :: post)
       course_by_id course_id (ts, room) = Ok true).
Proof.
  intros Hc Hk. split.
  - exists (violatesb assignment course_by_id c (ts, room)). split.
    + by apply violates_violatesb.
    + apply violatesb_spec.
  - intros other_id ots oroom other post Ho Hconf. unfold violates.
    rewrite (getitem_Some _ _ _ Hc). simpl.
    eapply violates_items_first; [done | exact Ho |].
    by apply conflictb_spec.
Qed.

Lemma violates_spec_witness :
  let cs : gmap string Course :=
    <["A" := mkCourse "A" "T1" ["G1"] 10]>
      (<["B" := mkCourse "B" "T2" ["G1"] 10]> ∅) in
  violates [("A", ("Mon", "R1"))] cs "B" ("Mon", "R2") = Ok true.
Proof.
  intros cs.
  assert (HB : cs !! "B" = Some (mkCourse "B" "T2" ["G1"] 10))
    by reflexivity.
  assert (Hk : known cs [("A", ("Mon", "R1"))]).
  { intros k v Hin. apply list_elem_of_singleton in Hin.
    injection Hin as -> _. by eexists. }
  destruct (violates_spec [("A", ("Mon", "R1"))] cs "B" _ "Mon" "R2" HB Hk)
    as [(b & Hb & Hiff) _].
  rewrite Hb. f_equal. apply Hiff.
  exists "A", "Mon", "R1", (mkCourse "A" "T1" ["G1"] 10).
  split; [by left|]. split; [reflexivity|]. split; [reflexivity|].
  right. left. exists "G1". split; by left.
Defined.

(** ** select_mrv *)

Lemma select_mrv_loop_spec domains unassigned best best_size :
  (forall v, v ∈ unassigned -> is_Some (domains !! v)) ->
  exists r, select_mrv_loop domains unassigned best best_size = Ok r /\
    ((r = best /\
      forall v d, v ∈ unassigned -> domains !! v = Some d ->
        (best_size <= Z.of_nat (length d))%Z) \/
     (exists i var d,
        r = Some var /\ unassigned !! i = Some var /\
        domains !! var = Some d /\
        (Z.of_nat (length d) < best_size)%Z /\
        forall j v' d', unassigned !! j = Some v' ->
          domains !! v' = Some d' ->
          (length d <= length d')%nat /\
          ((j < i)%nat -> (length d < length d')%nat))).
Proof.
  revert best best_size.
  induction unassigned as [|var rest IH]; intros best best_size Hdom.
  - exists best. split; [done|]. left. split; [done|].
    intros v d Hin. by apply elem_of_nil in Hin.
  - destruct (Hdom var) as [d Hd]; [by left|].
    assert (Hrest : forall v, v ∈ rest -> is_Some (domains !! v)).
    { intros v Hin. apply Hdom. by right. }
    simpl. rewrite (getitem_Some _ _ _ Hd). simpl.
    destruct (Z.ltb_spec (Z.of_nat (length d)) best_size) as [Hlt|Hge].
    + destruct (IH (Some var) (Z.of_nat (length d)) Hrest)
        as (r & Hr & [[-> Hall]|(i & w & dw & -> & Hi & Hw & Hlen & Hmin)]).
      * exists (Some var). split; [done|]. right.
        exists 0%nat, var, d. repeat split; try done.
        -- destruct j as [|j]; simpl in *.
           ++ injection H as <-. rewrite Hd in H0. by injection H0 as <-.
           ++ apply list_elem_of_lookup_2 in H.
              specialize (Hall _ _ H H0). lia.
        -- lia.
      * exists (Some w). split; [done|]. right.
        exists (S i), w, dw. repeat split; try done; try lia.
        -- destruct j as [|j]; simpl in *.
           ++ injection H as <-. rewrite Hd in H0. injection H0 as <-. lia.
           ++ by apply (Hmin j v' d').
        -- destruct j as [|j]; simpl in *.
           ++ injection H as <-. rewrite Hd in H0. injection H0 as <-. lia.
           ++ intros Hj. apply (Hmin j v' d'); [done..|lia].
    + destruct (IH best best_size Hrest)
        as (r & Hr & [[-> Hall]|(i & w & dw & -> & Hi & Hw & Hlen & Hmin)]).
      * exists best. split; [done|]. left. split; [done|].
        intros v d' Hin Hv. apply elem_of_cons in Hin as [->|Hin].
        -- rewrite Hd in Hv. by injection Hv as <-.
        -- by apply (Hall v).
      * exists (Some w). split; [done|]. right.
        exists (S i), w, dw. repeat split; try done.
        -- destruct j as [|j]; simpl in *.
           ++ injection H as <-. rewrite Hd in H0. injection H0 as <-. lia.
           ++ by apply (Hmin j v' d').
        -- destruct j as [|j]; simpl in *.
           ++ injection H as <-. rewrite Hd in H0. injection H0 as <-. lia.
           ++ intros Hj. apply (Hmin j v' d'); [done..|lia].
Qed.

(** X1.  What [select_mrv] computes.  When every unassigned variable has a
    domain, it returns the unassigned variable with the smallest domain, the
    earliest such variable in the list, provided that smallest size is
    below the initial [best_size] of 10^9; it returns [None] exactly when
    no unassigned variable has fewer than 10^9 values, which includes the
    empty list. *)
Theorem select_mrv_spec (unassigned : list string)
    (domains : gmap string (list Value)) :
  (forall v, v ∈ unassigned -> is_Some (domains !! v)) ->
  exists r, select_mrv unassigned domains = Ok r /\
    (r = None <->
     forall v d, v ∈ unassigned -> domains !! v = Some d ->
       (10 ^ 9 <= Z.of_nat (length d))%Z) /\
    (forall var, r = Some var ->
     exists i d,
       unassigned !! i = Some var /\ domains !! var = Some d /\
       forall j v' d', unassigned !! j = Some v' ->
         domains !! v' = Some d' ->
         (length d <= length d')%nat /\
         ((j < i)%nat -> (length d < length d')%nat)).
Proof.
  intros Hdom. unfold select_mrv.
  destruct (select_mrv_loop_spec domains unassigned None best_size_init Hdom)
    as (r & Hr & [[-> Hall]|(i & w & dw & -> & Hi & Hw & Hlen & Hmin)]).
  - exists None. split; [done|]. split; [|done]. split; [|done].
    intros _. exact Hall.
  - exists (Some w). split; [done|]. split.
    + split; [done|]. intros Hall. exfalso.
      apply list_elem_of_lookup_2 in Hi. specialize (Hall _ _ Hi Hw).
      unfold best_size_init in Hlen. lia.
    + intros var [= <-]. by exists i, dw.
Qed.

Lemma select_mrv_spec_witness :
  select_mrv ["A"; "B"; "C"]
    (<["A" := [("t1", "r1"); ("t2", "r1")]]>
       (<["B" := [("t1", "r1")]]> (<["C" := [("t2", "r1")]]> ∅)))
  = Ok (Some "B").
Proof.
  set (doms := <["A" := [("t1", "r1"); ("t2", "r1")]]>
       (<["B" := [("t1", "r1")]]> (<["C" := [("t2", "r1")]]> ∅))
       : gmap string (list Value)).
  assert (Hdom : forall v, v ∈ ["A"; "B"; "C"] -> is_Some (doms !! v)).
  { intros v Hv. repeat (apply elem_of_cons in Hv as [->|Hv]);
      [by eexists..|]. by apply elem_of_nil in Hv. }
  destruct (select_mrv_spec ["A"; "B"; "C"] doms Hdom) as (r & Hr & _).
  rewrite Hr. f_equal. vm_compute in Hr. congruence.
Defined.

Lemma select_mrv_huge (v : Value) (n : nat) :
  (10 ^ 9 <= Z.of_nat n)%Z ->
  select_mrv ["A"] {["A" := repeat v n]} = Ok None.
Proof.
  intros Hn. unfold select_mrv, select_mrv_loop, getitem.
  rewrite lookup_singleton_eq. simpl mbind. unfold res_bind.
  rewrite repeat_length.
  destruct (Z.ltb_spec (Z.of_nat n) best_size_init) as [Hlt|Hge]; [|done].
  unfold best_size_init in Hlt. lia.
Qed.

(** C8.  The claim asks for the variable with the smallest domain whenever
    the unassigned list is not empty, and the comment above [select_mrv]
    says the same.  The code misses it when no domain has fewer than 10^9
    values, the initial [best_size]: here the list holds one variable, with
    a domain of 10^9 values, and [select_mrv] returns [None]. *)
Lemma select_mrv_sentinel :
  ["A"] <> [] /\
  select_mrv ["A"]
    {["A" := repeat ("t1", "r1") (Z.to_nat (10 ^ 9))]} = Ok None.
Proof.
  split; [discriminate|]. apply select_mrv_huge.
  rewrite Z2Nat.id; [reflexivity|]. apply Z.pow_nonneg. lia.
Qed.

(** ** The stable sort *)

Lemma filter_none {A : Type} (P : A -> Prop) `{!forall x, Decision (P x)}
    (l : list A) :
  Forall (fun x => ~ P x) l -> filter P l = [].
Proof.
  induction 1 as [|x l Hx _ IH]; [done|]. by rewrite filter_cons_False.
Qed.

Section Sort.

Context {A : Type} (key : A -> nat).

Definition key_le (x y : A) : Prop := (key x <= key y)%nat.

Lemma insert_by_key_perm x l : insert_by_key key x l ≡ₚ x :: l.
Proof.
  induction l as [|y l IH]; simpl; [done|].
  destruct (key y <=? key x)%nat; [|done].
  rewrite IH. apply Permutation_swap.
Qed.

Lemma insert_by_key_sorted x l :
  StronglySorted key_le l -> StronglySorted key_le (insert_by_key key x l).
Proof.
  induction 1 as [|y l Hs IH Hall]; simpl.
  - repeat constructor.
  - destruct (Nat.leb_spec (key y) (key x)) as [Hle|Hgt].
    + constructor; [done|].
      rewrite insert_by_key_perm. by constructor.
    + constructor; [by constructor|].
      constructor; [unfold key_le; lia|].
      eapply Forall_impl; [exact Hall|]. unfold key_le. intros; lia.
Qed.

(** Inserting [x] leaves the elements of every key in their order and
    puts [x] behind the elements of its own key. *)
Lemma insert_by_key_filter x l n :
  StronglySorted key_le l ->
  filter (fun y => key y = n) (insert_by_key key x l) =
  filter (fun y => key y = n) l ++ filter (fun y => key y = n) [x].
Proof.
  induction 1 as [|y l Hs IH Hall]; simpl; [done|].
  destruct (Nat.leb_spec (key y) (key x)) as [Hle|Hgt].
  - rewrite !filter_cons. rewrite IH. by destruct (decide (key y = n)).
  - rewrite (filter_cons _ x (y :: l)), (filter_cons _ x []), filter_nil.
    destruct (decide (key x = n)) as [Hx|Hx]; [|by rewrite app_nil_r].
    assert (Hnone : filter (fun z => key z = n) (y :: l) = []).
    { apply filter_none. constructor; [lia|].
      eapply Forall_impl; [exact Hall|]. unfold key_le. intros; lia. }
    by rewrite Hnone.
Qed.

Lemma sort_by_key_snoc l x :
  sort_by_key key (l ++ [x]) = insert_by_key key x (sort_by_key key l).
Proof. unfold sort_by_key. by rewrite foldl_app. Qed.

Lemma sort_by_key_perm l : sort_by_key key l ≡ₚ l.
Proof.
  induction l as [|x l IH] using rev_ind; [done|].
  rewrite sort_by_key_snoc, insert_by_key_perm, IH.
  by rewrite Permutation_cons_append.
Qed.

Lemma sort_by_key_sorted l : StronglySorted key_le (sort_by_key key l).
Proof.
  induction l as [|x l IH] using rev_ind; [constructor|].
  rewrite sort_by_key_snoc. by apply insert_by_key_sorted.
Qed.

Lemma sort_by_key_stable l n :
  filter (fun y => key y = n) (sort_by_key key l) =
  filter (fun y => key y = n) l.
Proof.
  induction l as [|x l IH] using rev_ind; [done|].
  rewrite sort_by_key_snoc, insert_by_key_filter, IH, filter_app;
    [done | apply sort_by_key_sorted].
Qed.

End Sort.

(** ** lcv_order *)

(** The elimination score in the words of the specification.  A value [ov]
    of a neighbour conflicts with the candidate [v] when it has the same
    room, or the two courses share a teacher or a group. *)
Definition value_conflict (co co2 : Course) (v ov : Value) : bool :=
  String.eqb (snd ov) (snd v)
  || String.eqb (teacher co) (teacher co2)
  || intersects (groups co) (groups co2).

(** Scanning the values of [dom] in [v]'s timeslot finds a conflicting one:
    the neighbour then adds one to the score, and the scan stops. *)
Definition eliminates (co co2 : Course) (v : Value) (dom : list Value)
    : bool :=
  existsb (value_conflict co co2 v)
    (List.filter (fun ov => String.eqb (fst ov) (fst v)) dom).

(** Whether the unassigned variable [other] adds one to the score of [v]. *)
Definition neighbour_hit (courses_by_id : gmap string Course)
    (domains : gmap string (list Value)) (var : string) (v : Value)
    (other : string) : bool :=
  negb (String.eqb other var) &&
  match courses_by_id !! var, courses_by_id !! other, domains !! other with
  | Some co, Some co2, Some dom => eliminates co co2 v dom
  | _, _, _ => false
  end.

Definition elimination_score (courses_by_id : gmap string Course)
    (domains : gmap string (list Value)) (var : string)
    (unassigned : list string) (v : Value) : nat :=
  length (List.filter (neighbour_hit courses_by_id domains var v) unassigned).

Section LcvOrder.

Variable courses_by_id : gmap string Course.
Variable domains : gmap string (list Value).
Variable var : string.
Variable co : Course.
Hypothesis Hco : courses_by_id !! var = Some co.

Lemma lcv_scan_eliminates other co2 v dom :
  courses_by_id !! other = Some co2 ->
  lcv_scan courses_by_id var other v dom = Ok (eliminates co co2 v dom).
Proof.
  intros Hco2. unfold eliminates, value_conflict.
  induction dom as [|ov rest IH]; [done|]. simpl.
  destruct (String.eqb (fst ov) (fst v)); simpl; [|done].
  destruct (String.eqb (snd ov) (snd v)); simpl; [done|].
  rewrite (getitem_Some _ _ _ Hco), (getitem_Some _ _ _ Hco2). simpl.
  by destruct (String.eqb (teacher co) (teacher co2)
               || intersects (groups co) (groups co2)).
Qed.

Lemma lcv_elim_score v unassigned elim :
  (forall o, o ∈ unassigned ->
     is_Some (domains !! o) /\ is_Some (courses_by_id !! o)) ->
  lcv_elim courses_by_id domains var v unassigned elim =
  Ok (elim + elimination_score courses_by_id domains var unassigned v)%nat.
Proof.
  unfold elimination_score. revert elim.
  induction unassigned as [|other rest IH]; intros elim Hun; simpl.
  - by rewrite Nat.add_0_r.
  - assert (Hrest : forall o, o ∈ rest ->
      is_Some (domains !! o) /\ is_Some (courses_by_id !! o)).
    { intros o Ho. apply Hun. by right. }
    unfold neighbour_hit at 1.
    destruct (String.eqb other var); simpl; [by apply IH|].
    destruct (Hun other) as [[dom Hd] [co2 Hc2]]; [by left|].
    rewrite (getitem_Some _ _ _ Hd). simpl.
    rewrite (lcv_scan_eliminates _ _ _ _ Hc2). simpl.
    rewrite Hco, Hc2, Hd. rewrite IH by done.
    destruct (eliminates co co2 v dom); simpl; f_equal; lia.
Qed.

Lemma lcv_scored_map unassigned vals :
  (forall o, o ∈ unassigned ->
     is_Some (domains !! o) /\ is_Some (courses_by_id !! o)) ->
  lcv_scored courses_by_id domains var unassigned vals =
  Ok (map (fun v =>
        (elimination_score courses_by_id domains var unassigned v, v))
      vals).
Proof.
  intros Hun. induction vals as [|v vals IH]; [done|]. simpl.
  rewrite lcv_elim_score by done. simpl. by rewrite IH.
Qed.

End LcvOrder.

Lemma filter_map_snd_key {A : Type} (f : A -> nat) (n : nat)
    (l : list (nat * A)) :
  Forall (fun p => fst p = f (snd p)) l ->
  filter (fun v => f v = n) (map snd l) =
  map snd (filter (fun p => fst p = n) l).
Proof.
  induction 1 as [|[k v] l Hk _ IH]; [done|]. simpl in *. subst k.
  rewrite !filter_cons. simpl. rewrite IH.
  by destruct (decide (f v = n)).
Qed.

(** C7.  When the variable and every unassigned variable have a domain and
    a course record, [lcv_order] returns the values of the variable's domain
    sorted by [elimination_score]: a permutation of the domain, ascending in
    score, in which the values of each score keep their order of the domain
    (the sort is stable).  Each neighbour adds at most one to the score. *)
Theorem lcv_order_spec (var : string) (domains : gmap string (list Value))
    (unassigned : list string) (courses_by_id : gmap string Course)
    (vals : list Value) :
  domains !! var = Some vals ->
  is_Some (courses_by_id !! var) ->
  (forall o, o ∈ unassigned ->
     is_Some (domains !! o) /\ is_Some (courses_by_id !! o)) ->
  let score := elimination_score courses_by_id domains var unassigned in
  exists l, lcv_order var domains unassigned courses_by_id = Ok l /\
    l ≡ₚ vals /\
    StronglySorted (fun a b => (score a <= score b)%nat) l /\
    (forall n, filter (fun v => score v = n) l =
               filter (fun v => score v = n) vals) /\
    (forall v, (score v <= length unassigned)%nat).
Proof.
  intros Hvals [co Hco] Hun score. unfold lcv_order.
  rewrite (getitem_Some _ _ _ Hvals). simpl.
  rewrite (lcv_scored_map _ _ _ co Hco) by done. simpl.
  fold score. set (scored := map (fun v => (score v, v)) vals).
  assert (Hkey : Forall (fun p => fst p = score (snd p)) scored).
  { apply Forall_forall. intros p Hp. unfold scored in Hp.
    apply list_elem_of_fmap in Hp as (v & -> & _). done. }
  assert (Hkey' : Forall (fun p => fst p = score (snd p))
                    (sort_by_key fst scored)).
  { by rewrite sort_by_key_perm. }
  assert (Hsnd : map snd scored = vals).
  { unfold scored. rewrite map_map. simpl. apply map_id. }
  eexists. split; [done|]. repeat split.
  - rewrite (sort_by_key_perm fst scored). by rewrite Hsnd.
  - pose proof (sort_by_key_sorted fst scored) as Hs.
    induction Hs as [|p l Hs IH Hall]; [constructor|].
    apply Forall_cons in Hkey' as [Hp Hl]. simpl.
    constructor; [by apply IH|].
    apply Forall_forall. intros v Hv.
    apply list_elem_of_fmap in Hv as (q & -> & Hq).
    rewrite Forall_forall in Hall, Hl.
    specialize (Hall q Hq). specialize (Hl q Hq). unfold key_le in Hall.
    rewrite <- Hp, <- Hl. done.
  - intros n. rewrite (filter_map_snd_key score) by done.
    rewrite sort_by_key_stable.
    rewrite <- (filter_map_snd_key score) by done. by rewrite Hsnd.
  - intros v. unfold score, elimination_score. apply List.filter_length_le.
Qed.

Lemma lcv_order_spec_witness :
  let doms : gmap string (list Value) :=
    <["A" := [("t1", "r1"); ("t2", "r1")]]> (<["B" := [("t1", "r1")]]> ∅) in
  let cs : gmap string Course :=
    <["A" := mkCourse "A" "T1" ["G1"] 10]>
      (<["B" := mkCourse "B" "T2" ["G2"] 10]> ∅) in
  lcv_order "A" doms ["A"; "B"] cs = Ok [("t2", "r1"); ("t1", "r1")].
Proof.
  intros doms cs.
  assert (Hvals : doms !! "A" = Some [("t1", "r1"); ("t2", "r1")])
    by reflexivity.
  assert (Hco : is_Some (cs !! "A")) by (by eexists).
  assert (Hun : forall o, o ∈ ["A"; "B"] ->
            is_Some (doms !! o) /\ is_Some (cs !! o)).
  { intros o Ho. repeat (apply elem_of_cons in Ho as [->|Ho]);
      [split; by eexists..|]. by apply elem_of_nil in Ho. }
  destruct (lcv_order_spec "A" doms ["A"; "B"] cs _ Hvals Hco Hun)
    as (l & Hl & _).
  rewrite Hl. vm_compute in Hl. symmetry. exact Hl.
Defined.

(** ** Insertion-ordered dictionaries: facts *)

Lemma mem_false_keys {V : Type} (k : string) (d : Dict.t V) :
  Dict.mem k d = false <-> k ∉ Dict.keys d.
Proof.
  unfold Dict.mem, Dict.keys. induction d as [|[k' v'] d IH]; simpl.
  - split; [|done]. intros _ H. by apply elem_of_nil in H.
  - rewrite orb_false_iff, IH, not_elem_of_cons, String.eqb_neq.
    split; intros [? ?]; split; auto.
Qed.

Lemma mem_true_keys {V : Type} (k : string) (d : Dict.t V) :
  Dict.mem k d = true <-> k ∈ Dict.keys d.
Proof.
  destruct (Dict.mem k d) eqn:Hm.
  - split; [|done]. intros _. destruct (decide (k ∈ Dict.keys d)); [done|].
    apply mem_false_keys in n. congruence.
  - split; [done|]. intros Hin. by apply mem_false_keys in Hm.
Qed.

Lemma set_fresh {V : Type} (k : string) (v : V) (d : Dict.t V) :
  Dict.mem k d = false -> Dict.set k v d = d ++ [(k, v)].
Proof.
  unfold Dict.mem. induction d as [|[k' v'] d IH]; simpl; [done|].
  destruct (String.eqb k' k); simpl; [done|]. intros H. by rewrite IH.
Qed.

Lemma pop_snoc {V : Type} (k : string) (v : V) (d : Dict.t V) :
  Dict.mem k d = false -> Dict.pop k (d ++ [(k, v)]) = d.
Proof.
  unfold Dict.mem. induction d as [|[k' v'] d IH]; simpl.
  - by rewrite String.eqb_refl.
  - destruct (String.eqb k' k); simpl; [done|]. intros H. by rewrite IH.
Qed.

Lemma keys_set {V : Type} (k : string) (v : V) (d : Dict.t V) (x : string) :
  x ∈ Dict.keys (Dict.set k v d) <-> x = k \/ x ∈ Dict.keys d.
Proof.
  unfold Dict.keys. induction d as [|[k' v'] d IH]; simpl.
  - rewrite list_elem_of_singleton. rewrite elem_of_nil. tauto.
  - destruct (String.eqb_spec k' k) as [->|Hne]; simpl.
    + rewrite !elem_of_cons. tauto.
    + rewrite !elem_of_cons, IH. tauto.
Qed.

(** ** Helper facts on the heuristics, free of side conditions *)

Lemma select_mrv_loop_elem domains unassigned best best_size var :
  select_mrv_loop domains unassigned best best_size = Ok (Some var) ->
  best = Some var \/
  (var ∈ unassigned /\ is_Some (domains !! var)).
Proof.
  revert best best_size.
  induction unassigned as [|v rest IH]; intros best best_size; simpl.
  - intros [= ->]. by left.
  - intros H. inv_bind H. apply getitem_Ok in Ha.
    destruct (Z.of_nat (length a) <? best_size)%Z.
    + apply IH in H as [[= <-]|[H1 H2]].
      * right. split; [by left | by eexists].
      * right. split; [by right | done].
    + apply IH in H as [->|[H1 H2]]; [by left|].
      right. split; [by right | done].
Qed.

Lemma select_mrv_elem unassigned domains var :
  select_mrv unassigned domains = Ok (Some var) ->
  var ∈ unassigned /\ is_Some (domains !! var).
Proof.
  intros H. by apply select_mrv_loop_elem in H as [?|?].
Qed.

Lemma lcv_scored_snd courses_by_id domains var unassigned vals scored :
  lcv_scored courses_by_id domains var unassigned vals = Ok scored ->
  map snd scored = vals.
Proof.
  revert scored. induction vals as [|v vals IH]; intros scored; simpl.
  - by intros [= <-].
  - intros H. inv_bind H. inv_bind H. injection H as <-. simpl.
    f_equal. by apply IH.
Qed.

Lemma lcv_order_perm var domains unassigned courses_by_id l :
  lcv_order var domains unassigned courses_by_id = Ok l ->
  exists vals, domains !! var = Some vals /\ l ≡ₚ vals.
Proof.
  unfold lcv_order. intros H. inv_bind H. apply getitem_Ok in Ha.
  inv_bind H. injection H as <-. exists a. split; [done|].
  rewrite (sort_by_key_perm fst a0).
  by rewrite (lcv_scored_snd _ _ _ _ _ _ Ha0).
Qed.

(** ** The search: frame and inversion lemmas *)

Lemma elem_of_set {V : Type} (k0 : string) (v0 : V) (d : Dict.t V) k v :
  (k, v) ∈ Dict.set k0 v0 d -> (k, v) = (k0, v0) \/ (k, v) ∈ d.
Proof.
  induction d as [|[k' v'] d IH]; simpl.
  - rewrite list_elem_of_singleton. by left.
  - destruct (String.eqb k' k0).
    + rewrite !elem_of_cons. tauto.
    + rewrite !elem_of_cons. intros [?|H]; [tauto|].
      apply IH in H. tauto.
Qed.

Lemma restore_pres (P : string -> list Value -> Prop) saved doms :
  (forall k d, doms !! k = Some d -> P k d) ->
  (forall k d, (k, d) ∈ saved -> P k d) ->
  forall k d, restore saved doms !! k = Some d -> P k d.
Proof.
  revert doms. induction saved as [|[k0 d0] saved IH]; intros doms Hd Hs;
    simpl; [done|].
  apply IH.
  - intros k d. destruct (decide (k0 = k)) as [->|Hne].
    + rewrite lookup_insert_eq. intros [= <-]. apply Hs. by left.
    + rewrite lookup_insert_ne by done. apply Hd.
  - intros k d Hin. apply Hs. by right.
Qed.

Lemma restore_is_Some saved doms k :
  is_Some (doms !! k) -> is_Some (restore saved doms !! k).
Proof.
  revert doms. induction saved as [|[k0 d0] saved IH]; intros doms H;
    simpl; [done|].
  apply IH. rewrite lookup_insert_is_Some. destruct (decide (k0 = k)); auto.
Qed.

Section SearchFacts.

Variable perf_counter : nat -> Q.
Variable start : Q.
Variable time_limit_s : Q.
Variable course_ids : list string.
Variable courses_by_id : gmap string Course.
Variable forward_checking : bool.

Abbreviation timeout' := (timeout perf_counter start time_limit_s).
Abbreviation expired' := (expired_at perf_counter start time_limit_s).
Abbreviation prune' := (prune_values courses_by_id).
Abbreviation fcheck := (forward_check courses_by_id).
Abbreviation assign' := (assign_and_prune courses_by_id forward_checking).
Abbreviation tryv := (try_values courses_by_id forward_checking).
Abbreviation rec2 := (recurse2 perf_counter start time_limit_s course_ids
                    courses_by_id forward_checking).

Definition unassigned_of (st : State) : list string :=
  List.filter (fun v => negb (Dict.mem v (assignment st))) course_ids.

Lemma unassigned_of_elem st v :
  v ∈ unassigned_of st <->
  v ∈ course_ids /\ Dict.mem v (assignment st) = false.
Proof.
  unfold unassigned_of.
  rewrite list_elem_of_In, filter_In, negb_true_iff, <- list_elem_of_In.
  done.
Qed.

Lemma prune_values_sublist asg other dom newdom :
  prune' asg other dom = Ok newdom -> sublist newdom dom.
Proof.
  revert newdom. induction dom as [|ov rest IH]; intros newdom; simpl.
  - intros [= <-]. constructor.
  - intros H. inv_bind H. inv_bind H. injection H as <-.
    destruct a; [apply sublist_cons | apply sublist_skip]; by apply IH.
Qed.

(** The forward check touches [domains] and the log only. *)
Lemma forward_check_frame var unassigned saved st failure saved' st' :
  fcheck var unassigned saved st = Ok (failure, saved', st') ->
  assignment st' = assignment st /\ backtracks st' = backtracks st /\
  tries st' = tries st /\ clock st' = clock st.
Proof.
  revert saved st.
  induction unassigned as [|other rest IH]; intros saved st; simpl.
  - by intros [= _ _ <-].
  - destruct (String.eqb other var); [apply IH|].
    intros H. inv_bind H. inv_bind H.
    destruct (length a0 =? 0)%nat.
    + by injection H as _ _ <-.
    + by apply IH in H.
Qed.

(** A property of domain entries that pruning cannot break survives the
    forward check, in [domains] and in [saved]. *)
Lemma forward_check_pres (P : string -> list Value -> Prop)
    var unassigned saved st failure saved' st' :
  (forall k d d', P k d -> sublist d' d -> P k d') ->
  (forall k d, domains st !! k = Some d -> P k d) ->
  (forall k d, (k, d) ∈ saved -> P k d) ->
  fcheck var unassigned saved st = Ok (failure, saved', st') ->
  (forall k d, domains st' !! k = Some d -> P k d) /\
  (forall k d, (k, d) ∈ saved' -> P k d).
Proof.
  intros Hsub. revert saved st.
  induction unassigned as [|other rest IH]; intros saved st Hd Hs; simpl.
  - by intros [= _ <- <-].
  - destruct (String.eqb other var); [by apply IH|].
    intros H. inv_bind H. apply getitem_Ok in Ha. inv_bind H.
    apply prune_values_sublist in Ha0.
    assert (Hd' : forall k d,
      (<[other := a0]> (domains st)) !! k = Some d -> P k d).
    { intros k d. destruct (decide (other = k)) as [->|Hne].
      - rewrite lookup_insert_eq. intros [= <-]. eapply Hsub; [|done].
        by apply Hd.
      - rewrite lookup_insert_ne by done. apply Hd. }
    assert (Hs' : forall k d, (k, d) ∈ Dict.set other a saved -> P k d).
    { intros k d Hin. apply elem_of_set in Hin as [[= -> ->]|Hin].
      - by apply Hd.
      - by apply Hs. }
    destruct (length a0 =? 0)%nat.
    + by injection H as _ <- <-.
    + by apply IH in H.
Qed.

Lemma forward_check_is_Some var unassigned saved st failure saved' st' k :
  fcheck var unassigned saved st = Ok (failure, saved', st') ->
  is_Some (domains st !! k) -> is_Some (domains st' !! k).
Proof.
  revert saved st.
  induction unassigned as [|other rest IH]; intros saved st; simpl.
  - by intros [= _ _ <-].
  - destruct (String.eqb other var); [apply IH|].
    intros H Hk. inv_bind H. inv_bind H.
    assert (is_Some (<[other := a0]> (domains st) !! k)).
    { rewrite lookup_insert_is_Some. destruct (decide (other = k)); auto. }
    destruct (length a0 =? 0)%nat.
    + by injection H as _ _ <-.
    + by apply IH in H.
Qed.

(** One iteration of the loop of [recurse2], read backwards. *)
Lemma try_values_cons rec var unassigned val rest st r :
  tryv rec var unassigned (val :: rest) st = Ok r ->
  let st1 := log (EvTry var val) (incr_tries st) in
  exists viol : bool,
    violates (assignment st) courses_by_id var val = Ok viol /\
    if viol then tryv rec var unassigned rest st1 = Ok r
    else exists (failure : bool) saved st2 (ok : bool) st3,
      assign' var unassigned val st1 = Ok (failure, saved, st2) /\
      (if failure then Ok (false, st2) else rec st2) = Ok (ok, st3) /\
      if ok then r = (true, st3)
      else tryv rec var unassigned rest (undo var saved st3) = Ok r.
Proof.
  simpl. intros H. inv_bind H. exists a. split; [done|].
  destruct a; [done|].
  inv_bind H. destruct a as [[failure saved] st2].
  inv_bind H. destruct a as [ok st3].
  exists failure, saved, st2, ok, st3. split; [done|]. split; [done|].
  destruct ok; [by injection H as <-|done].
Qed.

(** One call of [recurse2], read backwards. *)
Lemma recurse2_S fuel st r :
  rec2 (S fuel) st = Ok r ->
  let st1 := snd (timeout' st) in
  if expired' (clock st) then r = (false, st1)
  else if (length (assignment st) =? length course_ids)%nat
  then r = (true, st1)
  else exists best,
    select_mrv (unassigned_of st) (domains st) = Ok best /\
    match best with
    | None => r = (false, st1)
    | Some var =>
        exists ordered_vals,
          lcv_order var (domains st) (unassigned_of st) courses_by_id
            = Ok ordered_vals /\
          tryv (rec2 fuel) var (unassigned_of st) ordered_vals st1 = Ok r
    end.
Proof.
  simpl. destruct (expired' (clock st)); [by intros [= <-]|].
  destruct (length (assignment st) =? length course_ids)%nat;
    [by intros [= <-]|].
  intros H. inv_bind H. exists a. split; [done|].
  destruct a as [var|]; [|by injection H as <-].
  inv_bind H. exists a. split; [done|].
  destruct a; [by injection H as <-|done].
Qed.

End SearchFacts.

(** One call of [recurse2], read forwards. *)
Lemma recurse2_unfold perf_counter start time_limit_s course_ids
    courses_by_id forward_checking fuel st :
  recurse2 perf_counter start time_limit_s course_ids courses_by_id
    forward_checking (S fuel) st =
  let expired := expired_at perf_counter start time_limit_s (clock st) in
  let st1 := log (EvDeadline expired) (tick st) in
  if expired then Ok (false, st1)
  else if (length (assignment st) =? length course_ids)%nat
  then Ok (true, st1)
  else
    best ← select_mrv (unassigned_of course_ids st) (domains st);
    match best with
    | None => Ok (false, st1)
    | Some var =>
        ordered_vals ←
          lcv_order var (domains st) (unassigned_of course_ids st)
            courses_by_id;
        match ordered_vals with
        | [] => Ok (false, incr_backtracks st1)
        | _ :: _ =>
            try_values courses_by_id forward_checking
              (recurse2 perf_counter start time_limit_s course_ids
                 courses_by_id forward_checking fuel)
              var (unassigned_of course_ids st) ordered_vals st1
        end
    end.
Proof. reflexivity. Qed.

(** ** The search: what an assignment is made of *)

Section Placement.

Variable perf_counter : nat -> Q.
Variable start : Q.
Variable time_limit_s : Q.
Variable course_ids : list string.
Variable courses_by_id : gmap string Course.
Variable forward_checking : bool.
Variable init : gmap string (list Value).

Abbreviation assign' := (assign_and_prune courses_by_id forward_checking).
Abbreviation tryv := (try_values courses_by_id forward_checking).
Abbreviation rec2 := (recurse2 perf_counter start time_limit_s course_ids
                        courses_by_id forward_checking).

(** An assignment built one entry at a time: each entry is for a course id
    not yet assigned, carries a value of that course's initial domain, and
    passed [violates] against the entries before it. *)
Inductive placed : Dict.t Value -> Prop :=
| placed_nil : placed []
| placed_snoc a k v d0 :
    placed a ->
    k ∈ course_ids ->
    Dict.mem k a = false ->
    violates a courses_by_id k v = Ok false ->
    init !! k = Some d0 ->
    v ∈ d0 ->
    placed (a ++ [(k, v)]).

(** A domain entry holds values of the initial domain only. *)
Definition from_init (k : string) (d : list Value) : Prop :=
  exists d0, init !! k = Some d0 /\ d ⊆ d0.

Definition within_init (doms : gmap string (list Value)) : Prop :=
  forall k d, doms !! k = Some d -> from_init k d.

Lemma from_init_sublist k d d' : from_init k d -> sublist d' d -> from_init k d'.
Proof.
  intros (d0 & H0 & Hs) Hsub. exists d0. split; [done|].
  etrans; [by apply sublist_subseteq | done].
Qed.

Lemma assign_and_prune_facts var unassigned val st failure saved st2 :
  within_init (domains st) ->
  assign' var unassigned val st = Ok (failure, saved, st2) ->
  assignment st2 = Dict.set var val (assignment st) /\
  within_init (domains st2) /\
  (forall k d, (k, d) ∈ saved -> from_init k d) /\
  (forall k, is_Some (domains st !! k) -> is_Some (domains st2 !! k)).
Proof.
  unfold assign_and_prune. intros Hw.
  destruct forward_checking.
  - intros H. split; [by apply forward_check_frame in H as [-> _]|].
    assert (Hpres : within_init (domains st2) /\
                    (forall k d, (k, d) ∈ saved -> from_init k d)).
    { eapply (forward_check_pres _ from_init); [| |  |exact H].
      - apply from_init_sublist.
      - exact Hw.
      - intros k d Hin. by apply elem_of_nil in Hin. }
    destruct Hpres as [Hw2 Hs]. split; [done|]. split; [done|].
    intros k. by apply (forward_check_is_Some _ _ _ _ _ _ _ _ _ H).
  - intros [= _ <- <-]. split; [done|]. split; [done|]. split; [|done].
    intros k d Hin. by apply elem_of_nil in Hin.
Qed.

(** The postcondition of a call: the assignment stays well built, the
    domains stay within the initial ones and lose no key, and a failed call
    leaves the assignment as it found it. *)
Definition call_ok (st : State) (r : bool * State) : Prop :=
  placed (assignment (snd r)) /\ within_init (domains (snd r)) /\
  (fst r = false -> assignment (snd r) = assignment st) /\
  (forall k, is_Some (domains st !! k) -> is_Some (domains (snd r) !! k)).

Lemma try_values_placed rec var unassigned vals st r :
  (forall s r', placed (assignment s) -> within_init (domains s) ->
     rec s = Ok r' -> call_ok s r') ->
  var ∈ course_ids ->
  Dict.mem var (assignment st) = false ->
  (forall v, v ∈ vals -> from_init var [v]) ->
  placed (assignment st) -> within_init (domains st) ->
  tryv rec var unassigned vals st = Ok r ->
  call_ok st r.
Proof.
  intros Hrec Hvar. revert st.
  induction vals as [|val rest IH]; intros st Hmem Hvals Hp Hw H.
  - injection H as <-. by repeat split.
  - assert (Hrest : forall v, v ∈ rest -> from_init var [v]).
    { intros v Hv. apply Hvals. by right. }
    apply try_values_cons in H as (viol & Hviol & H). simpl in H.
    destruct viol.
    { apply IH in H; done. }
    destruct H as (failure & saved & st2 & ok & st3 & Ha & Hr & H).
    apply assign_and_prune_facts in Ha as (Hasg & Hw2 & Hsaved & Hk2);
      [|done].
    simpl in Hasg, Hk2. rewrite set_fresh in Hasg by done.
    assert (Hp2 : placed (assignment st2)).
    { rewrite Hasg. destruct (Hvals val) as (d0 & Hd0 & Hsub); [by left|].
      eapply placed_snoc; try done. apply Hsub. by left. }
    assert (Hcall : call_ok st2 (ok, st3)).
    { destruct failure; [|by apply Hrec].
      injection Hr as <- <-. by repeat split. }
    destruct Hcall as (Hp3 & Hw3 & Hsame & Hk3). simpl in *.
    destruct ok; [subst r; repeat split; auto; done|].
    assert (Hua : assignment (undo var saved st3) = assignment st).
    { simpl. rewrite Hsame, Hasg by done. by apply pop_snoc. }
    apply IH in H.
    + destruct H as (? & ? & Hf & Hk). repeat split; try done.
      * intros Hfalse. by rewrite (Hf Hfalse).
      * intros k Hin. apply Hk. simpl. apply restore_is_Some. auto.
    + by rewrite Hua.
    + done.
    + by rewrite Hua.
    + intros k d. by apply restore_pres.
Qed.

Lemma recurse2_placed fuel st r :
  placed (assignment st) -> within_init (domains st) ->
  rec2 fuel st = Ok r -> call_ok st r.
Proof.
  revert st r. induction fuel as [|fuel IH]; intros st r Hp Hw H; [done|].
  apply recurse2_S in H. simpl in H.
  destruct (expired_at _ _ _ _); [by subst r|].
  destruct (_ =? _)%nat; [by subst r|].
  destruct H as (best & Hbest & H).
  destruct best as [var|]; [|by subst r].
  destruct H as (ordered_vals & Hord & H).
  apply select_mrv_elem in Hbest as [Hin _].
  apply unassigned_of_elem in Hin as [Hin Hmem].
  apply lcv_order_perm in Hord as (vals & Hvals & Hperm).
  apply try_values_placed in H; try done.
  intros v Hv. destruct (Hw _ _ Hvals) as (d0 & Hd0 & Hsub).
  exists d0. split; [done|]. intros x Hx.
  apply list_elem_of_singleton in Hx as ->. apply Hsub. by rewrite <- Hperm.
Qed.

End Placement.

(** ** C1: a reported solution has no conflicting pair *)

Lemma violates_items_false course_by_id c ts room items :
  violates_items course_by_id c ts room items = Ok false ->
  forall k ots oroom, (k, (ots, oroom)) ∈ items -> ots = ts ->
    exists other, course_by_id !! k = Some other /\
      conflictb c other ts room ots oroom = false.
Proof.
  induction items as [|[k' [ots' oroom']] rest IH]; intros H k ots oroom Hin.
  - by apply elem_of_nil in Hin.
  - simpl in H. apply elem_of_cons in Hin as [[= <- <- <-]|Hin].
    + intros ->. rewrite String.eqb_refl in H. simpl in H.
      inv_bind H. apply getitem_Ok in Ha. exists a. split; [done|].
      unfold conflictb. rewrite String.eqb_refl. simpl.
      destruct (String.eqb (teacher a) (teacher c)); [done|].
      destruct (intersects (groups a) (groups c)); [done|].
      by destruct (String.eqb oroom room).
    + destruct (String.eqb ots' ts); simpl in H; [|by apply IH].
      inv_bind H.
      destruct (String.eqb (teacher a) (teacher c)); [done|].
      destruct (intersects (groups a) (groups c)); [done|].
      destruct (String.eqb oroom' room); [done|]. by apply IH.
Qed.

(** Two courses placed in one timeslot that pass the checks of [violates]:
    different teachers, no common group, different rooms. *)
Definition compatible (c1 c2 : Course) (room1 room2 : string) : Prop :=
  teacher c1 <> teacher c2 /\
  (forall g, g ∈ groups c1 -> g ∉ groups c2) /\
  room1 <> room2.

Lemma conflictb_false_compatible c other ts room oroom :
  conflictb c other ts room ts oroom = false -> compatible other c oroom room.
Proof.
  unfold conflictb. rewrite String.eqb_refl. simpl.
  rewrite !orb_false_iff, !String.eqb_neq. intros [[Ht Hg] Hr].
  repeat split; try done. intros g H1 H2.
  assert (intersects (groups other) (groups c) = true); [|congruence].
  apply intersects_spec. by exists g.
Qed.

Lemma compatible_sym c1 c2 room1 room2 :
  compatible c1 c2 room1 room2 -> compatible c2 c1 room2 room1.
Proof.
  intros (Ht & Hg & Hr). repeat split; try done. intros g H1 H2.
  by apply (Hg g).
Qed.

Section PlacedFacts.

Variable course_ids : list string.
Variable courses_by_id : gmap string Course.
Variable init : gmap string (list Value).

Abbreviation placed' := (placed course_ids courses_by_id init).

Lemma placed_keys a :
  placed' a -> NoDup (Dict.keys a) /\ Dict.keys a ⊆ course_ids.
Proof.
  induction 1 as [|a k v d0 Hp [IHn IHs] Hk Hm Hv Hd Hin].
  - split; [constructor|]. intros x Hx. by apply elem_of_nil in Hx.
  - unfold Dict.keys in *. rewrite map_app. simpl. split.
    + apply NoDup_app. split; [done|]. split; [|apply NoDup_singleton].
      intros x Hx Hx'. apply list_elem_of_singleton in Hx' as ->.
      by apply mem_false_keys in Hm.
    + intros x Hx. apply elem_of_app in Hx as [Hx|Hx]; [by apply IHs|].
      by apply list_elem_of_singleton in Hx as ->.
Qed.

Lemma placed_from_init a k v :
  placed' a -> (k, v) ∈ a -> exists d0, init !! k = Some d0 /\ v ∈ d0.
Proof.
  induction 1 as [|a k' v' d0 Hp IH Hk Hm Hv Hd Hin]; intros Hel.
  - by apply elem_of_nil in Hel.
  - apply elem_of_app in Hel as [Hel|Hel]; [by apply IH|].
    apply list_elem_of_singleton in Hel as [= -> ->]. by exists d0.
Qed.

Lemma placed_record a k v :
  placed' a -> (k, v) ∈ a -> is_Some (courses_by_id !! k).
Proof.
  induction 1 as [|a k' v' d0 Hp IH Hk Hm Hv Hd Hin]; intros Hel.
  - by apply elem_of_nil in Hel.
  - apply elem_of_app in Hel as [Hel|Hel]; [by apply IH|].
    apply list_elem_of_singleton in Hel as [= -> ->].
    unfold violates in Hv. destruct v'. inv_bind Hv.
    apply getitem_Ok in Ha. by eexists.
Qed.

Lemma placed_pairwise a k1 ts room1 k2 room2 c1 c2 :
  placed' a ->
  (k1, (ts, room1)) ∈ a -> (k2, (ts, room2)) ∈ a -> k1 <> k2 ->
  courses_by_id !! k1 = Some c1 -> courses_by_id !! k2 = Some c2 ->
  compatible c1 c2 room1 room2.
Proof.
  intros Hp. revert k1 room1 k2 room2 c1 c2.
  assert (Hnew : forall a k room k1 room1 c c1,
    violates a courses_by_id k (ts, room) = Ok false ->
    (k1, (ts, room1)) ∈ a ->
    courses_by_id !! k = Some c -> courses_by_id !! k1 = Some c1 ->
    compatible c1 c room1 room).
  { intros a' k room k1 room1 c c1 Hv Hin Hc Hc1.
    unfold violates in Hv. inv_bind Hv. apply getitem_Ok in Ha.
    assert (a0 = c) as -> by congruence.
    destruct (violates_items_false _ _ _ _ _ Hv _ _ _ Hin eq_refl)
      as (other & Ho & Hcf).
    assert (other = c1) as -> by congruence.
    by apply conflictb_false_compatible in Hcf. }
  induction Hp as [|a k v d0 Hp IH Hk Hm Hv Hd Hin];
    intros k1 room1 k2 room2 c1 c2 H1 H2 Hne Hc1 Hc2.
  - by apply elem_of_nil in H1.
  - apply elem_of_app in H1 as [H1|H1], H2 as [H2|H2].
    + by apply (IH k1 room1 k2 room2).
    + apply list_elem_of_singleton in H2 as [= <- <-].
      by apply (Hnew a k2 room2 k1 room1 c2 c1).
    + apply list_elem_of_singleton in H1 as [= <- <-].
      apply compatible_sym.
      by apply (Hnew a k1 room1 k2 room2 c1 c2).
    + apply list_elem_of_singleton in H1 as [= <- <-].
      by apply list_elem_of_singleton in H2 as [= <-].
Qed.

End PlacedFacts.

(** The state in which [backtrack_search] starts its first call. *)
Definition initial_state (domains_init : gmap string (list Value)) : State :=
  mkState [] domains_init 0 0 1 [].

Lemma backtrack_search_Ok perf_counter courses domains_init forward_checking
    time_limit_ms r :
  backtrack_search perf_counter courses domains_init forward_checking
    time_limit_ms = Ok r ->
  exists st,
    recurse2 perf_counter (perf_counter 0%nat)
      (inject_Z time_limit_ms / 1000)%Q (map id courses)
      (index_courses courses) forward_checking
      (S (length (map id courses))) (initial_state domains_init)
    = Ok (found r, st) /\
    res_backtracks r = backtracks st /\
    assignments_tried r = tries st /\
    solution r = assignment st.
Proof.
  unfold backtrack_search. intros H. inv_bind H. destruct a as [ok st].
  injection H as <-. by exists st.
Qed.

(** C1.  When [backtrack_search] returns with [found] true, any two
    distinct courses of the solution that sit in the same timeslot have
    course records with different teachers and no common group, and sit in
    different rooms. *)
Theorem search_sound (perf_counter : nat -> Q) (courses : list Course)
    (domains_init : gmap string (list Value)) (forward_checking : bool)
    (time_limit_ms : Z) (r : SearchResult) :
  backtrack_search perf_counter courses domains_init forward_checking
    time_limit_ms = Ok r ->
  found r = true ->
  forall v1 v2 ts room1 room2,
    (v1, (ts, room1)) ∈ solution r ->
    (v2, (ts, room2)) ∈ solution r ->
    v1 <> v2 ->
    exists c1 c2,
      index_courses courses !! v1 = Some c1 /\
      index_courses courses !! v2 = Some c2 /\
      teacher c1 <> teacher c2 /\
      (forall g, g ∈ groups c1 -> g ∉ groups c2) /\
      room1 <> room2.
Proof.
  intros H _ v1 v2 ts room1 room2 H1 H2 Hne.
  apply backtrack_search_Ok in H as (st & H & _ & _ & Hsol).
  rewrite Hsol in H1, H2.
  apply (recurse2_placed _ _ _ _ _ _ domains_init) in H as (Hp & _ & _).
  - simpl in Hp.
    destruct (placed_record _ _ _ _ _ _ Hp H1) as [c1 Hc1].
    destruct (placed_record _ _ _ _ _ _ Hp H2) as [c2 Hc2].
    exists c1, c2. split; [done|]. split; [done|].
    by apply (placed_pairwise _ _ _ _ _ _ _ _ _ _ _ Hp H1 H2).
  - constructor.
  - intros k d Hd. exists d. by split.
Qed.

Lemma search_sound_witness :
  let cs := [mkCourse "A" "T1" ["G1"] 10; mkCourse "B" "T2" ["G2"] 10] in
  exists c1 c2,
    index_courses cs !! "A" = Some c1 /\
    index_courses cs !! "B" = Some c2 /\
    teacher c1 <> teacher c2 /\
    (forall g, g ∈ groups c1 -> g ∉ groups c2) /\
    "r1" <> "r2".
Proof.
  intros cs.
  eapply (search_sound (fun _ => 0%Q) cs
            (<["A" := [("t1", "r1"); ("t1", "r2")]]>
               (<["B" := [("t1", "r1"); ("t1", "r2")]]> ∅))
            false 1000 _ _ _ "A" "B" "t1" "r1" "r2").
  Unshelve.
  5: { vm_compute. reflexivity. }
  - apply list_elem_of_here.
  - apply list_elem_of_further, list_elem_of_here.
  - discriminate.
  - reflexivity.
Defined.

(** ** build_domains *)

(** The initial domain of a course in the words of the specification: the
    (timeslot, room) pairs whose room is large enough, timeslot-major, the
    rooms in the order given. *)
Definition initial_domain (c : Course) (timeslots : list string)
    (rooms : list Room) : list Value :=
  flat_map (fun ts =>
    map (fun r => (ts, room_id r))
      (List.filter (fun r => (size c <=? capacity r)%Z) rooms)) timeslots.

Lemma build_rooms_spec c ts rooms dom :
  build_rooms c ts rooms dom =
  dom ++ map (fun r => (ts, room_id r))
           (List.filter (fun r => (size c <=? capacity r)%Z) rooms).
Proof.
  revert dom. induction rooms as [|r rooms IH]; intros dom; simpl.
  - by rewrite app_nil_r.
  - destruct (size c <=? capacity r)%Z; simpl; rewrite IH; [|done].
    by rewrite <- List.app_assoc.
Qed.

Lemma build_timeslots_spec c timeslots rooms dom :
  build_timeslots c timeslots rooms dom =
  dom ++ initial_domain c timeslots rooms.
Proof.
  unfold initial_domain. revert dom.
  induction timeslots as [|ts timeslots IH]; intros dom; simpl.
  - by rewrite app_nil_r.
  - by rewrite IH, build_rooms_spec, <- app_assoc.
Qed.

Lemma build_courses_lookup courses timeslots rooms m
    (mi : gmap string Course) k :
  (forall k, m !! k = (fun c => initial_domain c timeslots rooms) <$> mi !! k) ->
  build_courses courses timeslots rooms m !! k =
  (fun c => initial_domain c timeslots rooms)
    <$> foldl (fun m c => <[id c := c]> m) mi courses !! k.
Proof.
  revert m mi. induction courses as [|c courses IH]; intros m mi Hm; simpl.
  - apply Hm.
  - apply IH. intros k'. rewrite build_timeslots_spec. simpl.
    destruct (decide (id c = k')) as [<-|Hne].
    + by rewrite !lookup_insert_eq.
    + by rewrite !lookup_insert_ne.
Qed.

Lemma build_domains_lookup courses timeslots rooms k :
  build_domains courses timeslots rooms !! k =
  (fun c => initial_domain c timeslots rooms) <$> index_courses courses !! k.
Proof.
  unfold build_domains, index_courses. apply build_courses_lookup.
  intros k'. by rewrite !lookup_empty.
Qed.

Lemma initial_domain_elem c timeslots rooms ts room :
  (ts, room) ∈ initial_domain c timeslots rooms ->
  ts ∈ timeslots /\
  exists r, r ∈ rooms /\ room_id r = room /\ (size c <= capacity r)%Z.
Proof.
  unfold initial_domain. intros Hin.
  apply list_elem_of_In, in_flat_map in Hin as (ts' & Hts & Hin).
  apply in_map_iff in Hin as (r & [= -> <-] & Hr).
  apply filter_In in Hr as [Hr Hcap].
  apply list_elem_of_In in Hts, Hr.
  split; [done|]. exists r. split; [done|]. split; [done|]. lia.
Qed.

(** ** C5: a reported solution is complete and respects room capacities *)

Section Complete.

Variable perf_counter : nat -> Q.
Variable start : Q.
Variable time_limit_s : Q.
Variable course_ids : list string.
Variable courses_by_id : gmap string Course.
Variable forward_checking : bool.

Abbreviation tryv := (try_values courses_by_id forward_checking).
Abbreviation rec2 := (recurse2 perf_counter start time_limit_s course_ids
                        courses_by_id forward_checking).

Lemma try_values_true_length rec var unassigned vals st st' :
  (forall s s', rec s = Ok (true, s') ->
     length (assignment s') = length course_ids) ->
  tryv rec var unassigned vals st = Ok (true, st') ->
  length (assignment st') = length course_ids.
Proof.
  intros Hrec. revert st.
  induction vals as [|val rest IH]; intros st H; [done|].
  apply try_values_cons in H as (viol & _ & H). simpl in H.
  destruct viol; [by apply IH in H|].
  destruct H as (failure & saved & st2 & ok & st3 & _ & Hr & H).
  destruct ok; [|by apply IH in H].
  injection H as <-. destruct failure; [done|]. by apply Hrec in Hr.
Qed.

Lemma recurse2_true_length fuel st st' :
  rec2 fuel st = Ok (true, st') ->
  length (assignment st') = length course_ids.
Proof.
  revert st st'. induction fuel as [|fuel IH]; intros st st' H; [done|].
  apply recurse2_S in H. simpl in H.
  destruct (expired_at _ _ _ _); [done|].
  destruct (_ =? _)%nat eqn:Hlen.
  { injection H as ->. simpl. by apply Nat.eqb_eq. }
  destruct H as (best & _ & H). destruct best as [var|]; [|done].
  destruct H as (ordered_vals & _ & H).
  by apply try_values_true_length in H.
Qed.

End Complete.

Lemma placed_complete course_ids courses_by_id init a :
  placed course_ids courses_by_id init a ->
  length a = length course_ids ->
  forall k, k ∈ course_ids -> k ∈ Dict.keys a.
Proof.
  intros Hp Hlen k Hk. apply placed_keys in Hp as [Hnd Hsub].
  assert (Hperm : Dict.keys a ≡ₚ course_ids).
  { apply submseteq_length_Permutation.
    - by apply NoDup_submseteq.
    - unfold Dict.keys. rewrite length_map. lia. }
  by rewrite Hperm.
Qed.

(** C5.  When [backtrack_search], started on the domains of
    [build_domains], returns with [found] true, every course is assigned,
    and every assigned (timeslot, room) is a listed timeslot and the id of
    a listed room whose capacity is at least the size of the course.  The
    reason is the shape of the initial domains: the domain of a course is
    the list of (timeslot, room) pairs with a large enough room,
    timeslot-major, rooms in the order given. *)
Theorem capacity_sound (perf_counter : nat -> Q) (courses : list Course)
    (timeslots : list string) (rooms : list Room) (forward_checking : bool)
    (time_limit_ms : Z) (r : SearchResult) :
  backtrack_search perf_counter courses
    (build_domains courses timeslots rooms) forward_checking time_limit_ms
    = Ok r ->
  found r = true ->
  (forall c, c ∈ courses -> Dict.mem (id c) (solution r) = true) /\
  (forall var ts room, (var, (ts, room)) ∈ solution r ->
     exists c rm,
       index_courses courses !! var = Some c /\
       ts ∈ timeslots /\ rm ∈ rooms /\ room_id rm = room /\
       (capacity rm >= size c)%Z) /\
  (forall k, build_domains courses timeslots rooms !! k =
     (fun c => initial_domain c timeslots rooms)
       <$> index_courses courses !! k).
Proof.
  intros H Hfound.
  apply backtrack_search_Ok in H as (st & H & _ & _ & Hsol).
  rewrite Hfound in H. rewrite Hsol.
  pose proof (recurse2_true_length _ _ _ _ _ _ _ _ _ H) as Hlen.
  apply (recurse2_placed _ _ _ _ _ _ (build_domains courses timeslots rooms))
    in H as (Hp & _ & _);
    [|constructor|intros k d Hd; exists d; by split].
  simpl in Hp. split; [|split].
  - intros c Hc. apply mem_true_keys.
    eapply placed_complete; [exact Hp | done |].
    apply list_elem_of_fmap. by exists c.
  - intros var ts room Hin.
    destruct (placed_from_init _ _ _ _ _ _ Hp Hin) as (d0 & Hd0 & Hv).
    rewrite build_domains_lookup in Hd0.
    destruct (index_courses courses !! var) as [c|] eqn:Hc; [|done].
    injection Hd0 as <-.
    apply initial_domain_elem in Hv as (Hts & rm & Hrm & Hid & Hcap).
    exists c, rm. repeat split; try done. lia.
  - apply build_domains_lookup.
Qed.

Lemma capacity_sound_witness :
  let cs := [mkCourse "A" "T1" ["G1"] 30; mkCourse "B" "T2" ["G2"] 10] in
  let rs := [mkRoom "small" 10; mkRoom "big" 40] in
  exists c rm,
    index_courses cs !! "A" = Some c /\
    "t1" ∈ ["t1"] /\ rm ∈ rs /\ room_id rm = "big" /\
    (capacity rm >= size c)%Z.
Proof.
  intros cs rs.
  eapply (capacity_sound (fun _ => 0%Q) cs ["t1"] rs true 1000).
  - vm_compute. reflexivity.
  - reflexivity.
  - apply list_elem_of_here.
Defined.

(** ** C10: a failed search exposes no assignment *)

(** C10.  When [backtrack_search] returns with [found] false, by
    exhaustion or by timeout, its [solution] is the empty dictionary. *)
Theorem failure_exposes_nothing (perf_counter : nat -> Q)
    (courses : list Course) (domains_init : gmap string (list Value))
    (forward_checking : bool) (time_limit_ms : Z) (r : SearchResult) :
  backtrack_search perf_counter courses domains_init forward_checking
    time_limit_ms = Ok r ->
  found r = false ->
  solution r = [].
Proof.
  intros H Hfound.
  apply backtrack_search_Ok in H as (st & H & _ & _ & ->).
  apply (recurse2_placed _ _ _ _ _ _ domains_init) in H as (_ & _ & Hsame).
  - by apply Hsame.
  - constructor.
  - intros k d Hd. exists d. by split.
Qed.

Lemma failure_exposes_nothing_witness :
  exists r,
    backtrack_search (fun _ => 0%Q)
      [mkCourse "A" "T1" ["G1"] 10; mkCourse "B" "T1" ["G2"] 10]
      (<["A" := [("t1", "r1")]]> (<["B" := [("t1", "r2")]]> ∅))
      false 1000 = Ok r /\
    found r = false /\ assignments_tried r = 2%nat /\ solution r = [].
Proof.
  eexists. split; [vm_compute; reflexivity|].
  split; [reflexivity|]. split; [reflexivity|].
  eapply (failure_exposes_nothing (fun _ => 0%Q)
            [mkCourse "A" "T1" ["G1"] 10; mkCourse "B" "T1" ["G2"] 10]
            (<["A" := [("t1", "r1")]]> (<["B" := [("t1", "r2")]]> ∅))
            false 1000).
  - vm_compute. reflexivity.
  - reflexivity.
Defined.

(** ** C4: undoing a failed attempt *)

Lemma restore_app saved1 saved2 doms :
  restore (saved1 ++ saved2) doms = restore saved2 (restore saved1 doms).
Proof.
  revert doms. induction saved1 as [|[k d] saved1 IH]; intros doms; simpl;
    [done|]. apply IH.
Qed.

Lemma restore_lookup_other saved doms k :
  k ∉ Dict.keys saved -> restore saved doms !! k = doms !! k.
Proof.
  revert doms. induction saved as [|[k0 d0] saved IH]; intros doms Hk; simpl;
    [done|].
  unfold Dict.keys in Hk. simpl in Hk. apply not_elem_of_cons in Hk as [Hne Hk].
  rewrite IH by done. by rewrite lookup_insert_ne.
Qed.

Lemma restore_insert saved doms k d :
  k ∉ Dict.keys saved ->
  restore saved (<[k := d]> doms) = <[k := d]> (restore saved doms).
Proof.
  revert doms. induction saved as [|[k0 d0] saved IH]; intros doms Hk; simpl;
    [done|].
  unfold Dict.keys in Hk. simpl in Hk. apply not_elem_of_cons in Hk as [Hne Hk].
  rewrite <- IH by done. f_equal. by apply insert_insert_ne.
Qed.

(** Saving [other] before pruning it: restoring brings the old entry back. *)
Lemma restore_saved_entry saved doms other dom newdom :
  other ∉ Dict.keys saved ->
  doms !! other = Some dom ->
  restore (Dict.set other dom saved) (<[other := newdom]> doms) =
  restore saved doms.
Proof.
  intros Hk Hd. rewrite set_fresh by (by apply mem_false_keys).
  rewrite restore_app, restore_insert by done. simpl.
  rewrite insert_insert_eq. apply insert_id.
  by rewrite restore_lookup_other.
Qed.

Section Undo.

Variable perf_counter : nat -> Q.
Variable start : Q.
Variable time_limit_s : Q.
Variable course_ids : list string.
Variable courses_by_id : gmap string Course.
Variable forward_checking : bool.

Abbreviation fcheck := (forward_check courses_by_id).
Abbreviation assign' := (assign_and_prune courses_by_id forward_checking).
Abbreviation tryv := (try_values courses_by_id forward_checking).
Abbreviation rec2 := (recurse2 perf_counter start time_limit_s course_ids
                        courses_by_id forward_checking).

Lemma forward_check_restore var unassigned saved st failure saved' st' :
  NoDup unassigned ->
  (forall o, o ∈ unassigned -> o ∉ Dict.keys saved) ->
  fcheck var unassigned saved st = Ok (failure, saved', st') ->
  restore saved' (domains st') = restore saved (domains st).
Proof.
  revert saved st.
  induction unassigned as [|other rest IH]; intros saved st Hnd Hfresh; simpl.
  - by intros [= _ <- <-].
  - apply NoDup_cons in Hnd as [Hother Hnd].
    assert (Hrest : forall o, o ∈ rest -> o ∉ Dict.keys saved).
    { intros o Ho. apply Hfresh. by right. }
    destruct (String.eqb other var); [by apply IH|].
    intros H. inv_bind H. apply getitem_Ok in Ha. inv_bind H.
    assert (Hback :
      restore (Dict.set other a saved) (<[other := a0]> (domains st)) =
      restore saved (domains st)).
    { apply restore_saved_entry; [|done]. apply Hfresh. by left. }
    destruct (length a0 =? 0)%nat.
    + by injection H as _ <- <-.
    + apply IH in H; [by rewrite H| done |].
      intros o Ho Hin. apply keys_set in Hin as [->|Hin]; [done|].
      by apply (Hrest o).
Qed.

Lemma assign_and_prune_restore var unassigned val st failure saved st2 :
  NoDup unassigned ->
  assign' var unassigned val st = Ok (failure, saved, st2) ->
  restore saved (domains st2) = domains st /\
  assignment st2 = Dict.set var val (assignment st).
Proof.
  unfold assign_and_prune. intros Hnd. destruct forward_checking.
  - intros H. split.
    + apply forward_check_restore in H; [done..|].
      intros o _ Hin. by apply elem_of_nil in Hin.
    + by apply forward_check_frame in H as [-> _].
  - by intros [= _ <- <-].
Qed.

(** A failed call hands back the domains and the assignment it was given. *)
Definition restores (st : State) (r : bool * State) : Prop :=
  fst r = false ->
  domains (snd r) = domains st /\ assignment (snd r) = assignment st.

Lemma try_values_restores rec var unassigned vals st r :
  (forall s r', rec s = Ok r' -> restores s r') ->
  NoDup unassigned ->
  Dict.mem var (assignment st) = false ->
  tryv rec var unassigned vals st = Ok r ->
  restores st r.
Proof.
  intros Hrec Hnd. revert st.
  induction vals as [|val rest IH]; intros st Hmem H.
  - by injection H as <-.
  - apply try_values_cons in H as (viol & _ & H). simpl in H.
    destruct viol; [by apply IH in H|].
    destruct H as (failure & saved & st2 & ok & st3 & Ha & Hr & H).
    apply assign_and_prune_restore in Ha as [Hd Hasg]; [|done].
    simpl in Hd, Hasg. rewrite set_fresh in Hasg by done.
    assert (H3 : restores st2 (ok, st3)).
    { destruct failure; [|by apply Hrec]. by injection Hr as <- <-. }
    destruct ok; [by subst r|].
    destruct H3 as [Hd3 Ha3]; [done|]. simpl in Hd3, Ha3.
    assert (Hundo : domains (undo var saved st3) = domains st /\
                    assignment (undo var saved st3) = assignment st).
    { simpl. rewrite Hd3, Hd, Ha3, Hasg. by rewrite pop_snoc. }
    destruct Hundo as [Hud Hua].
    apply IH in H; [|by rewrite Hua].
    intros Hf. destruct (H Hf) as [-> ->]. done.
Qed.

Lemma recurse2_restores fuel st r :
  NoDup course_ids -> rec2 fuel st = Ok r -> restores st r.
Proof.
  intros Hnd. revert st r.
  induction fuel as [|fuel IH]; intros st r H; [done|].
  apply recurse2_S in H. simpl in H.
  destruct (expired_at _ _ _ _); [by subst r|].
  destruct (_ =? _)%nat; [by subst r|].
  destruct H as (best & Hbest & H).
  destruct best as [var|]; [|by subst r].
  destruct H as (ordered_vals & _ & H).
  apply select_mrv_elem in Hbest as [Hin _].
  apply unassigned_of_elem in Hin as [_ Hmem].
  apply try_values_restores in H; try done.
  unfold unassigned_of. by apply NoDup_ListNoDup, List.NoDup_filter, NoDup_ListNoDup.
Qed.

End Undo.

Lemma unassigned_of_NoDup course_ids st :
  NoDup course_ids -> NoDup (unassigned_of course_ids st).
Proof.
  intros H. unfold unassigned_of.
  by apply NoDup_ListNoDup, List.NoDup_filter, NoDup_ListNoDup.
Qed.

(** C4.  Forward-checking mode, course ids pairwise distinct.  Take the
    state [st] of the loop of [recurse2] just before a candidate [val] is
    assigned to the unassigned variable [var], and let [st2] be the state
    after assigning and pruning, the state the recursive call starts from.
    Then every domain of [st2] is a subsequence of the same variable's
    domain in [st]; and when the attempt fails, by propagation or because
    the recursive call returns false, undoing it gives back exactly the
    domains and the assignment of [st], in which [var] has no entry. *)
Theorem backtrack_restores (perf_counter : nat -> Q) (start time_limit_s : Q)
    (course_ids : list string) (courses_by_id : gmap string Course)
    (fuel : nat) (var : string) (val : Value) (st : State)
    (failure : bool) (saved : Dict.t (list Value)) (st2 : State) :
  NoDup course_ids ->
  var ∈ unassigned_of course_ids st ->
  assign_and_prune courses_by_id true var (unassigned_of course_ids st)
    val st = Ok (failure, saved, st2) ->
  (forall k d2, domains st2 !! k = Some d2 ->
     exists d, domains st !! k = Some d /\ sublist d2 d) /\
  (forall st3,
     (if failure then Ok (false, st2)
      else recurse2 perf_counter start time_limit_s course_ids courses_by_id
             true fuel st2) = Ok (false, st3) ->
     domains (undo var saved st3) = domains st /\
     assignment (undo var saved st3) = assignment st /\
     Dict.mem var (assignment (undo var saved st3)) = false).
Proof.
  intros Hnd Hvar Ha. apply unassigned_of_elem in Hvar as [_ Hmem]. split.
  - unfold assign_and_prune in Ha.
    eapply (forward_check_pres _
              (fun k d2 => exists d, domains st !! k = Some d /\ sublist d2 d))
      in Ha as [Hd _]; [exact Hd|..].
    + intros k d d' (d0 & Hd0 & Hs) Hs'. exists d0. split; [done|].
      by etrans.
    + simpl. intros k d Hd. by exists d.
    + intros k d Hin. by apply elem_of_nil in Hin.
  - intros st3 Hr.
    apply assign_and_prune_restore in Ha as [Hd Hasg];
      [|by apply unassigned_of_NoDup].
    rewrite set_fresh in Hasg by done.
    assert (H3 : domains st3 = domains st2 /\ assignment st3 = assignment st2).
    { destruct failure; [by injection Hr as <-|].
      by apply (recurse2_restores _ _ _ _ _ _ _ _ _ Hnd Hr). }
    destruct H3 as [Hd3 Ha3]. simpl.
    rewrite Hd3, Hd, Ha3, Hasg, pop_snoc by done. done.
Qed.

Lemma backtrack_restores_witness :
  let cs : gmap string Course :=
    <["A" := mkCourse "A" "T1" ["G1"] 10]>
      (<["B" := mkCourse "B" "T1" ["G2"] 10]> ∅) in
  let st := initial_state
    (<["A" := [("t1", "r1")]]> (<["B" := [("t1", "r2")]]> ∅)) in
  exists saved st2,
    assign_and_prune cs true "A" ["A"; "B"] ("t1", "r1") st
      = Ok (true, saved, st2) /\
    domains st2 !! "B" = Some [] /\
    domains (undo "A" saved st2) = domains st /\
    assignment (undo "A" saved st2) = assignment st /\
    Dict.mem "A" (assignment (undo "A" saved st2)) = false.
Proof.
  intros cs st. eexists _, _.
  assert (Hnd : NoDup ["A"; "B"]).
  { apply NoDup_cons. split; [|apply NoDup_singleton].
    rewrite list_elem_of_singleton. discriminate. }
  assert (Hvar : "A" ∈ unassigned_of ["A"; "B"] st) by apply list_elem_of_here.
  split; [vm_compute; reflexivity|]. split; [reflexivity|].
  eapply (backtrack_restores (fun _ => 0%Q) 0%Q 1%Q ["A"; "B"] cs 3 "A"
            ("t1", "r1") st true _ _ Hnd Hvar); [vm_compute|]; reflexivity.
Defined.

(** ** C9: the search always returns a record *)

Lemma filter_length_le_impl {A : Type} (f g : A -> bool) (l : list A) :
  (forall x, f x = true -> g x = true) ->
  (length (List.filter f l) <= length (List.filter g l))%nat.
Proof.
  intros Himp. induction l as [|x l IH]; simpl; [done|].
  destruct (f x) eqn:Hf.
  - rewrite (Himp x Hf). simpl. lia.
  - destruct (g x); simpl; lia.
Qed.

Lemma filter_length_lt_impl {A : Type} (f g : A -> bool) (l : list A) x0 :
  (forall x, f x = true -> g x = true) ->
  x0 ∈ l -> g x0 = true -> f x0 = false ->
  (length (List.filter f l) < length (List.filter g l))%nat.
Proof.
  intros Himp Hin Hg Hf. induction l as [|x l IH]; simpl.
  - by apply elem_of_nil in Hin.
  - apply elem_of_cons in Hin as [<-|Hin].
    + rewrite Hg, Hf. simpl.
      pose proof (filter_length_le_impl f g l Himp). lia.
    + specialize (IH Hin). destruct (f x) eqn:Hfx.
      * rewrite (Himp x Hfx). simpl. lia.
      * destruct (g x); simpl; lia.
Qed.

Lemma mem_snoc {V : Type} (k k0 : string) (v0 : V) (d : Dict.t V) :
  Dict.mem k (d ++ [(k0, v0)]) = Dict.mem k d || String.eqb k0 k.
Proof.
  unfold Dict.mem. rewrite existsb_app. simpl. by rewrite orb_false_r.
Qed.

Lemma unassigned_shrinks course_ids st st2 var val :
  var ∈ course_ids ->
  Dict.mem var (assignment st) = false ->
  assignment st2 = assignment st ++ [(var, val)] ->
  (length (unassigned_of course_ids st2)
   < length (unassigned_of course_ids st))%nat.
Proof.
  intros Hin Hmem Ha. unfold unassigned_of. rewrite Ha.
  apply (filter_length_lt_impl _ _ _ var); try done.
  - intros x. rewrite mem_snoc, !negb_true_iff, orb_false_iff. tauto.
  - by rewrite Hmem.
  - by rewrite mem_snoc, String.eqb_refl, orb_true_r.
Qed.

Lemma index_courses_is_Some courses c :
  c ∈ courses -> is_Some (index_courses courses !! id c).
Proof.
  unfold index_courses. generalize (∅ : gmap string Course).
  induction courses as [|c' courses IH] using rev_ind; intros m Hin.
  - by apply elem_of_nil in Hin.
  - rewrite foldl_app. simpl. rewrite lookup_insert_is_Some.
    apply elem_of_app in Hin as [Hin|Hin].
    + destruct (decide (id c' = id c)); [by left|]. right. split; [done|].
      by apply IH.
    + apply list_elem_of_singleton in Hin as ->. by left.
Qed.

Section Total.

Variable perf_counter : nat -> Q.
Variable start : Q.
Variable time_limit_s : Q.
Variable course_ids : list string.
Variable courses_by_id : gmap string Course.
Variable forward_checking : bool.
Variable init : gmap string (list Value).

Hypothesis records : forall k, k ∈ course_ids -> is_Some (courses_by_id !! k).

Abbreviation prune' := (prune_values courses_by_id).
Abbreviation fcheck := (forward_check courses_by_id).
Abbreviation assign' := (assign_and_prune courses_by_id forward_checking).
Abbreviation tryv := (try_values courses_by_id forward_checking).
Abbreviation rec2 := (recurse2 perf_counter start time_limit_s course_ids
                        courses_by_id forward_checking).
Abbreviation placed' := (placed course_ids courses_by_id init).
Abbreviation within' := (within_init init).

(** Every course id has a domain. *)
Definition covered (doms : gmap string (list Value)) : Prop :=
  forall k, k ∈ course_ids -> is_Some (doms !! k).

Lemma placed_known a : placed' a -> known courses_by_id a.
Proof. intros Hp k v Hin. by apply (placed_record _ _ _ _ _ _ Hp Hin). Qed.

Lemma prune_values_total asg other dom :
  known courses_by_id asg -> is_Some (courses_by_id !! other) ->
  exists newdom, prune' asg other dom = Ok newdom.
Proof.
  intros Hk [c Hc]. induction dom as [|ov rest [newdom IH]]; simpl.
  - by eexists.
  - rewrite (violates_violatesb _ _ _ c) by done. simpl. rewrite IH. simpl.
    by eexists.
Qed.

Lemma forward_check_total var unassigned saved st :
  known courses_by_id (assignment st) ->
  unassigned ⊆ course_ids ->
  covered (domains st) ->
  exists r, fcheck var unassigned saved st = Ok r.
Proof.
  intros Hk. revert saved st Hk.
  induction unassigned as [|other rest IH]; intros saved st Hk Hsub Hcov;
    simpl.
  - by eexists.
  - assert (Hrest : rest ⊆ course_ids).
    { intros x Hx. apply Hsub. by right. }
    destruct (String.eqb other var); [by apply IH|].
    assert (Hother : other ∈ course_ids) by (apply Hsub; by left).
    destruct (Hcov other Hother) as [dom Hdom].
    rewrite (getitem_Some _ _ _ Hdom). simpl.
    destruct (prune_values_total (assignment st) other dom Hk
                (records other Hother)) as [newdom Hnew].
    rewrite Hnew. simpl.
    destruct (length newdom =? 0)%nat; [by eexists|].
    apply IH; try done.
    intros k Hin. simpl. rewrite lookup_insert_is_Some.
    destruct (decide (other = k)); [by left|]. right. split; [done|].
    by apply Hcov.
Qed.

Lemma lcv_order_total var doms unassigned :
  var ∈ course_ids -> unassigned ⊆ course_ids -> covered doms ->
  exists l, lcv_order var doms unassigned courses_by_id = Ok l.
Proof.
  intros Hvar Hsub Hcov. unfold lcv_order.
  destruct (Hcov var Hvar) as [vals Hvals].
  destruct (records var Hvar) as [co Hco].
  rewrite (getitem_Some _ _ _ Hvals). simpl.
  rewrite (lcv_scored_map _ _ _ co Hco); [simpl; by eexists|].
  intros o Ho. split; [apply Hcov | apply records]; by apply Hsub.
Qed.

Lemma unassigned_of_subseteq st : unassigned_of course_ids st ⊆ course_ids.
Proof. intros x Hx. by apply unassigned_of_elem in Hx as [? _]. Qed.

Lemma assign_and_prune_total var unassigned val st :
  known courses_by_id (Dict.set var val (assignment st)) ->
  unassigned ⊆ course_ids -> covered (domains st) ->
  exists r, assign' var unassigned val st = Ok r.
Proof.
  intros Hk Hsub Hcov. unfold assign_and_prune.
  destruct forward_checking; [|by eexists].
  by apply forward_check_total.
Qed.

Lemma try_values_total rec fuel var unassigned vals st :
  (forall s, placed' (assignment s) -> within' (domains s) ->
     covered (domains s) ->
     (length (unassigned_of course_ids s) < fuel)%nat ->
     exists r, rec s = Ok r) ->
  (forall s r, placed' (assignment s) -> within' (domains s) ->
     rec s = Ok r -> call_ok course_ids courses_by_id init s r) ->
  var ∈ course_ids ->
  unassigned ⊆ course_ids ->
  (forall v, v ∈ vals -> from_init init var [v]) ->
  Dict.mem var (assignment st) = false ->
  placed' (assignment st) -> within' (domains st) -> covered (domains st) ->
  (length (unassigned_of course_ids st) <= fuel)%nat ->
  exists r, tryv rec var unassigned vals st = Ok r.
Proof.
  intros Hrt Hro Hvar Hsub. revert st.
  induction vals as [|val rest IH];
    intros st Hvals Hmem Hp Hw Hcov Hfuel; simpl; [by eexists|].
  assert (Hrest : forall v, v ∈ rest -> from_init init var [v]).
  { intros v Hv. apply Hvals. by right. }
  destruct (records var Hvar) as [c Hc].
  rewrite (violates_violatesb _ _ _ c) by (done || by apply placed_known).
  simpl.
  destruct (violatesb (assignment st) courses_by_id c val) eqn:Hviol.
  { by apply IH. }
  set (st1 := log (EvTry var val) (incr_tries st)).
  assert (Hp2 : placed' (assignment st ++ [(var, val)])).
  { destruct (Hvals val) as (d0 & Hd0 & Hs); [by left|].
    eapply placed_snoc; try done.
    - rewrite (violates_violatesb _ _ _ c) by (done || by apply placed_known).
      by rewrite Hviol.
    - apply Hs. by left. }
  destruct (assign_and_prune_total var unassigned val st1)
    as [[[failure saved] st2] Ha]; try done.
  { simpl. rewrite set_fresh by done. by apply placed_known. }
  rewrite Ha. simpl.
  apply (assign_and_prune_facts _ _ init) in Ha
    as (Hasg & Hw2 & Hsaved & Hk2); [|done].
  simpl in Hasg, Hk2. rewrite set_fresh in Hasg by done.
  assert (Hcov2 : covered (domains st2)).
  { intros k Hk. by apply Hk2, Hcov. }
  assert (Hcall : exists ok st3,
    (if failure then Ok (false, st2) else rec st2) = Ok (ok, st3) /\
    call_ok course_ids courses_by_id init st2 (ok, st3)).
  { destruct failure.
    - exists false, st2. split; [done|]. unfold call_ok. simpl.
      rewrite Hasg. by repeat split.
    - destruct (Hrt st2) as [[ok st3] Hr]; try done.
      + by rewrite Hasg.
      + pose proof (unassigned_shrinks course_ids st st2 var val
                      Hvar Hmem Hasg). lia.
      + exists ok, st3. split; [done|]. apply Hro; try done.
        by rewrite Hasg. }
  destruct Hcall as (ok & st3 & -> & Hp3 & Hw3 & Hsame & Hk3). simpl in *.
  destruct ok; [by eexists|].
  assert (Hua : assignment (undo var saved st3) = assignment st).
  { simpl. rewrite Hsame, Hasg by done. by apply pop_snoc. }
  apply IH; try done.
  - by rewrite Hua.
  - by rewrite Hua.
  - intros k d. by apply restore_pres.
  - intros k Hk. simpl. by apply restore_is_Some, Hk3, Hcov2.
  - unfold unassigned_of in *. by rewrite Hua.
Qed.

Lemma recurse2_total fuel st :
  placed' (assignment st) -> within' (domains st) -> covered (domains st) ->
  (length (unassigned_of course_ids st) < fuel)%nat ->
  exists r, rec2 fuel st = Ok r.
Proof.
  revert st. induction fuel as [|fuel IH]; intros st Hp Hw Hcov Hfuel; [lia|].
  simpl. destruct (expired_at _ _ _ _); [by eexists|].
  destruct (_ =? _)%nat; [by eexists|].
  fold (unassigned_of course_ids st).
  pose proof (unassigned_of_subseteq st) as Hsub.
  destruct (select_mrv_loop_spec (domains st) (unassigned_of course_ids st)
              None best_size_init) as (best & Hbest & _).
  { intros v Hv. by apply Hcov, Hsub. }
  unfold select_mrv. rewrite Hbest. simpl.
  destruct best as [var|]; [|by eexists].
  apply select_mrv_loop_elem in Hbest as [?|[Hin _]]; [done|].
  pose proof Hin as Hin'. apply unassigned_of_elem in Hin' as [Hvar Hmem].
  destruct (lcv_order_total var (domains st) (unassigned_of course_ids st))
    as [ordered_vals Hord]; try done.
  rewrite Hord. simpl.
  destruct ordered_vals as [|v vs] eqn:Hov; [by eexists|].
  apply lcv_order_perm in Hord as (vals & Hvals & Hperm).
  apply (try_values_total _ fuel); try done.
  - intros s r. apply recurse2_placed.
  - intros x Hx. destruct (Hw _ _ Hvals) as (d0 & Hd0 & Hs).
    exists d0. split; [done|]. intros y Hy.
    apply list_elem_of_singleton in Hy as ->. apply Hs. by rewrite <- Hperm.
  - simpl. unfold unassigned_of in *. simpl. lia.
Qed.

End Total.


Lemma expired_at_zero_limit perf_counter :
  (0 < perf_counter 1%nat - perf_counter 0%nat)%Q ->
  expired_at perf_counter (perf_counter 0%nat) (inject_Z 0 / 1000)%Q 1 = true.
Proof.
  intros Hpos. unfold expired_at. apply negb_true_iff.
  destruct (Qle_bool _ _) eqn:Hle; [|done].
  apply Qle_bool_iff in Hle. exfalso.
  apply (Qlt_irrefl 0). eapply Qlt_le_trans; [exact Hpos|].
  eapply Qle_trans; [exact Hle|]. by vm_compute.
Qed.

Lemma overflows_false (n : Z) :
  (Z.abs n < 2 ^ 1024 - 2 ^ 970)%Z -> overflows n = false.
Proof. intros H. unfold overflows, float_overflow. by apply Z.leb_gt. Qed.

Lemma overflows_true (n : Z) :
  (2 ^ 1024 - 2 ^ 970 <= Z.abs n)%Z -> overflows n = true.
Proof. intros H. unfold overflows, float_overflow. by apply Z.leb_le. Qed.

(** A record returned under the limits comes from a call of [recurse2]
    that returned within [depth]. *)
Lemma backtrack_search_bounded_Returned depth perf_counter courses
    domains_init forward_checking time_limit_ms r :
  backtrack_search_bounded depth perf_counter courses domains_init
    forward_checking time_limit_ms = Returned r ->
  overflows time_limit_ms = false /\
  exists st,
    recurse2 perf_counter (perf_counter 0%nat)
      (inject_Z time_limit_ms / 1000)%Q (map id courses)
      (index_courses courses) forward_checking depth
      (initial_state domains_init)
    = Ok (found r, st) /\
    res_backtracks r = backtracks st /\
    assignments_tried r = tries st /\
    solution r = assignment st.
Proof.
  unfold backtrack_search_bounded.
  destruct (overflows time_limit_ms); [done|].
  change (mkState [] domains_init 0 0 1 []) with (initial_state domains_init).
  destruct (recurse2 _ _ _ _ _ _ _ _) as [[ok st]| |]; [|done..].
  intros [= <-]. split; [done|]. by exists st.
Qed.

(** Within the limits the search returns: the time limit converts, and
    [depth] leaves room for one call of [recurse2] per course and one
    more. *)
Lemma backtrack_search_bounded_total depth perf_counter courses domains_init
    forward_checking time_limit_ms :
  (forall c, c ∈ courses -> is_Some (domains_init !! id c)) ->
  overflows time_limit_ms = false ->
  (length courses < depth)%nat ->
  exists r, backtrack_search_bounded depth perf_counter courses domains_init
              forward_checking time_limit_ms = Returned r.
Proof.
  intros Hcov Hov Hdepth. unfold backtrack_search_bounded. rewrite Hov.
  destruct (recurse2_total perf_counter (perf_counter 0%nat)
              (inject_Z time_limit_ms / 1000)%Q (map id courses)
              (index_courses courses) forward_checking domains_init)
    with (fuel := depth)
         (st := initial_state domains_init) as [[ok st] Hr].
  - intros k Hk. apply list_elem_of_fmap in Hk as (c & -> & Hc).
    by apply index_courses_is_Some.
  - constructor.
  - intros k d Hd. exists d. by split.
  - intros k Hk. apply list_elem_of_fmap in Hk as (c & -> & Hc).
    by apply Hcov.
  - unfold unassigned_of. simpl.
    pose proof (List.filter_length_le
      (fun v => negb (Dict.mem v (@nil (string * Value)))) (map id courses))
      as Hle.
    rewrite length_map in Hle. simpl in *. lia.
  - unfold initial_state in Hr. rewrite Hr. by eexists.
Qed.

(** C9 (as amended).  [backtrack_search] returns a result record when
    every course has an initial domain, the time limit is an integer below
    2^1024 - 2^970 in magnitude, so that it converts to a float, and the
    recursion limit leaves room for one nested call of [recurse2] per
    course and one more.  With a time limit of 0 ms, room for one call of
    [recurse2] and a clock that has advanced at the first deadline check,
    the record has [found] false, no candidate tried, no backtrack and an
    empty solution.  From 2^1024 - 2^970 on the time limit does not
    convert, and the function raises [OverflowError] whatever the rest of
    its input. *)
Theorem search_returns (depth : nat) (perf_counter : nat -> Q)
    (courses : list Course) (domains_init : gmap string (list Value))
    (forward_checking : bool) :
  (forall time_limit_ms,
     (forall c, c ∈ courses -> is_Some (domains_init !! id c)) ->
     (Z.abs time_limit_ms < 2 ^ 1024 - 2 ^ 970)%Z ->
     (length courses < depth)%nat ->
     exists r, backtrack_search_bounded depth perf_counter courses
                 domains_init forward_checking time_limit_ms = Returned r) /\
  ((0 < perf_counter 1%nat - perf_counter 0%nat)%Q ->
   (0 < depth)%nat ->
   exists t, backtrack_search_bounded depth perf_counter courses
               domains_init forward_checking 0
             = Returned (mkResult false t 0 0 [])) /\
  (forall time_limit_ms,
     (2 ^ 1024 - 2 ^ 970 <= Z.abs time_limit_ms)%Z ->
     backtrack_search_bounded depth perf_counter courses domains_init
       forward_checking time_limit_ms = RaisedOverflowError).
Proof.
  split; [|split].
  - intros time_limit_ms Hcov Hlim Hdepth.
    apply backtrack_search_bounded_total; [done| |done].
    by apply overflows_false.
  - intros Hpos Hdepth. unfold backtrack_search_bounded.
    rewrite overflows_false by (by vm_compute).
    destruct depth as [|depth]; [lia|].
    rewrite recurse2_unfold. cbn [clock].
    rewrite (expired_at_zero_limit _ Hpos). by eexists.
  - intros time_limit_ms Hlim. unfold backtrack_search_bounded.
    by rewrite overflows_true.
Qed.

Lemma search_returns_witness :
  let clock := fun n : nat => inject_Z (Z.of_nat n) in
  (exists r, backtrack_search_bounded 2 clock
     [mkCourse "A" "T1" ["G1"] 10] (<["A" := [("t1", "r1")]]> ∅) false 1000
     = Returned r) /\
  (exists t, backtrack_search_bounded 2 clock
     [mkCourse "A" "T1" ["G1"] 10] (<["A" := [("t1", "r1")]]> ∅) false 0
     = Returned (mkResult false t 0 0 [])) /\
  backtrack_search_bounded 2 clock
     [mkCourse "A" "T1" ["G1"] 10] (<["A" := [("t1", "r1")]]> ∅) false
     (2 ^ 1024) = RaisedOverflowError.
Proof.
  intros clock.
  destruct (search_returns 2 clock [mkCourse "A" "T1" ["G1"] 10]
              (<["A" := [("t1", "r1")]]> ∅) false)
    as (Htotal & Hzero & Hover).
  split; [|split].
  - apply Htotal.
    + intros c Hc. apply list_elem_of_singleton in Hc as ->. by eexists.
    + by vm_compute.
    + simpl. lia.
  - apply Hzero; [by vm_compute | lia].
  - apply Hover. by vm_compute.
Defined.

(** C9 fails as stated: the call below does not return a record.  One
    course with a domain and a time limit of 10^400 ms, an integer that
    does not convert to a float: line 120 raises [OverflowError], in either
    mode, for any clock and any recursion limit. *)
Lemma search_returns_counterexample :
  let courses := [mkCourse "A" "T1" ["G1"] 10] in
  let domains_init : gmap string (list Value) :=
    <["A" := [("t1", "r1")]]> ∅ in
  (forall c, c ∈ courses -> is_Some (domains_init !! id c)) /\
  forall depth perf_counter forward_checking,
    backtrack_search_bounded depth perf_counter courses domains_init
      forward_checking (10 ^ 400) = RaisedOverflowError /\
    ~ exists r, backtrack_search_bounded depth perf_counter courses
                  domains_init forward_checking (10 ^ 400) = Returned r.
Proof.
  intros courses domains_init. split.
  - intros c Hc. apply list_elem_of_singleton in Hc as ->. by eexists.
  - intros depth perf_counter forward_checking.
    assert (H : backtrack_search_bounded depth perf_counter courses
                  domains_init forward_checking (10 ^ 400)
                = RaisedOverflowError).
    { unfold backtrack_search_bounded.
      by rewrite overflows_true by (by vm_compute). }
    split; [done|]. intros [r Hr]. congruence.
Qed.

(** ** C2: what happens once the deadline has passed *)

(** The call [ok = recurse2()] that [backtrack_search] makes, with the
    final state of the shared variables. *)
Definition search_run (perf_counter : nat -> Q) (courses : list Course)
    (domains_init : gmap string (list Value)) (forward_checking : bool)
    (time_limit_ms : Z) : res (bool * State) :=
  recurse2 perf_counter (perf_counter 0%nat)
    (inject_Z time_limit_ms / 1000)%Q (map id courses)
    (index_courses courses) forward_checking
    (S (length (map id courses))) (initial_state domains_init).

Lemma backtrack_search_run perf_counter courses domains_init
    forward_checking time_limit_ms r :
  backtrack_search perf_counter courses domains_init forward_checking
    time_limit_ms = Ok r ->
  exists st,
    search_run perf_counter courses domains_init forward_checking
      time_limit_ms = Ok (found r, st) /\
    res_backtracks r = backtracks st /\
    assignments_tried r = tries st /\
    solution r = assignment st.
Proof. apply backtrack_search_Ok. Qed.

(** The answers of the deadline checks in a log, latest first. *)
Definition deadlines (tr : list Event) : list bool :=
  omap (fun e => match e with EvDeadline b => Some b | _ => None end) tr.

(** The claim as stated, on a log read in order of time: after the first
    deadline check that answers true there is no [EvTry] and no [EvPrune]. *)
Definition quiet_after_expiry (events : list Event) : Prop :=
  forall pre post, events = pre ++ EvDeadline true :: post ->
  forall e, e ∈ post ->
    (forall var val, e <> EvTry var val) /\ (forall other, e <> EvPrune other).

Section Deadline.

Variable perf_counter : nat -> Q.
Variable start : Q.
Variable time_limit_s : Q.
Variable course_ids : list string.
Variable courses_by_id : gmap string Course.
Variable forward_checking : bool.

(** [time.perf_counter()] never goes back. *)
Hypothesis monotonic : forall n, (perf_counter n <= perf_counter (S n))%Q.

Abbreviation expired' := (expired_at perf_counter start time_limit_s).
Abbreviation fcheck := (forward_check courses_by_id).
Abbreviation assign' := (assign_and_prune courses_by_id forward_checking).
Abbreviation tryv := (try_values courses_by_id forward_checking).
Abbreviation rec2 := (recurse2 perf_counter start time_limit_s course_ids
                        courses_by_id forward_checking).

Lemma perf_counter_le n m :
  (n <= m)%nat -> (perf_counter n <= perf_counter m)%Q.
Proof.
  induction 1 as [|m Hle IH]; [apply Qle_refl|].
  eapply Qle_trans; [exact IH | apply monotonic].
Qed.

Lemma expired_mono n m :
  (n <= m)%nat -> expired' n = true -> expired' m = true.
Proof.
  unfold expired_at. rewrite !negb_true_iff. intros Hle Hn.
  destruct (Qle_bool (perf_counter m - start) time_limit_s) eqn:Hm; [|done].
  apply Qle_bool_iff in Hm.
  assert (Qle_bool (perf_counter n - start) time_limit_s = true);
    [|congruence].
  apply Qle_bool_iff. eapply Qle_trans; [|exact Hm].
  apply Qplus_le_compat; [by apply perf_counter_le | apply Qle_refl].
Qed.

(** The clock readings between two states and the deadline answers logged
    between them agree. *)
Definition tracks (st : State) (r : bool * State) : Prop :=
  exists n, clock (snd r) = (clock st + n)%nat /\
    deadlines (trace (snd r)) =
    rev (map expired' (seq (clock st) n)) ++ deadlines (trace st).

Lemma tracks_refl st st' b :
  clock st' = clock st -> deadlines (trace st') = deadlines (trace st) ->
  tracks st (b, st').
Proof. intros Hc Ht. exists 0%nat. simpl. split; [lia | done]. Qed.

Lemma tracks_trans st st2 b2 r :
  tracks st (b2, st2) -> tracks st2 r -> tracks st r.
Proof.
  intros (n & Hc & Ht) (m & Hc' & Ht'). simpl in *. exists (n + m)%nat.
  split; [lia|]. rewrite Ht', Ht, Hc, seq_app, map_app, rev_app_distr.
  by rewrite <- List.app_assoc.
Qed.

Lemma forward_check_deadlines var unassigned saved st failure saved' st' :
  fcheck var unassigned saved st = Ok (failure, saved', st') ->
  deadlines (trace st') = deadlines (trace st).
Proof.
  revert saved st.
  induction unassigned as [|other rest IH]; intros saved st; simpl.
  - by intros [= _ _ <-].
  - destruct (String.eqb other var); [apply IH|].
    intros H. inv_bind H. inv_bind H.
    destruct (length a0 =? 0)%nat.
    + by injection H as _ _ <-.
    + by apply IH in H.
Qed.

Lemma assign_and_prune_deadlines var unassigned val st failure saved st2 :
  assign' var unassigned val st = Ok (failure, saved, st2) ->
  clock st2 = clock st /\ deadlines (trace st2) = deadlines (trace st).
Proof.
  unfold assign_and_prune. destruct forward_checking.
  - intros H. split.
    + by apply forward_check_frame in H as (_ & _ & _ & ->).
    + by apply forward_check_deadlines in H.
  - by intros [= _ _ <-].
Qed.

Lemma try_values_tracks rec var unassigned vals st r :
  (forall s r', rec s = Ok r' -> tracks s r') ->
  tryv rec var unassigned vals st = Ok r -> tracks st r.
Proof.
  intros Hrec. revert st.
  induction vals as [|val rest IH]; intros st H.
  - injection H as <-. by apply tracks_refl.
  - apply try_values_cons in H as (viol & _ & H). simpl in H.
    destruct viol.
    { apply IH in H. eapply tracks_trans; [|exact H].
      by apply (tracks_refl _ _ false). }
    destruct H as (failure & saved & st2 & ok & st3 & Ha & Hr & H).
    apply assign_and_prune_deadlines in Ha as [Hc2 Ht2]. simpl in Hc2, Ht2.
    assert (H3 : tracks st (ok, st3)).
    { eapply (tracks_trans _ st2 false); [by apply tracks_refl|].
      destruct failure; [|by apply Hrec].
      injection Hr as <- <-. by apply tracks_refl. }
    destruct ok; [by subst r|].
    apply IH in H. eapply tracks_trans; [exact H3|].
    eapply tracks_trans; [|exact H]. by apply (tracks_refl _ _ false).
Qed.

Lemma timeout_tracks st b :
  tracks st (b, snd (timeout perf_counter start time_limit_s st)).
Proof.
  exists 1%nat. simpl. split; [lia | done].
Qed.

Lemma recurse2_tracks fuel st r : rec2 fuel st = Ok r -> tracks st r.
Proof.
  revert st r. induction fuel as [|fuel IH]; intros st r H; [done|].
  apply recurse2_S in H.
  pose proof (timeout_tracks st false) as Ht. simpl in H, Ht.
  destruct (expired' (clock st)) eqn:He;
    [subst r; exists 1%nat; simpl; rewrite He; split; [lia|done]|].
  destruct (_ =? _)%nat; [by subst r|].
  destruct H as (best & _ & H). destruct best as [var|]; [|by subst r].
  destruct H as (ordered_vals & _ & H).
  apply try_values_tracks in H; [|done].
  eapply tracks_trans; [exact Ht | exact H].
Qed.

(** A successful loop is a successful recursive call. *)
Lemma try_values_true (Q : State -> Prop) rec var unassigned vals st st' :
  (forall s s', rec s = Ok (true, s') -> Q s') ->
  tryv rec var unassigned vals st = Ok (true, st') -> Q st'.
Proof.
  intros Hrec. revert st.
  induction vals as [|val rest IH]; intros st H; [done|].
  apply try_values_cons in H as (viol & _ & H). simpl in H.
  destruct viol; [by apply IH in H|].
  destruct H as (failure & saved & st2 & ok & st3 & _ & Hr & H).
  destruct ok; [|by apply IH in H].
  injection H as <-. destruct failure; [done|]. by apply Hrec in Hr.
Qed.

(** A successful call has seen no expired deadline, at any depth. *)
Lemma recurse2_true_unexpired fuel st st' :
  rec2 fuel st = Ok (true, st') ->
  forall k, (k < clock st')%nat -> expired' k = false.
Proof.
  revert st st'. induction fuel as [|fuel IH]; intros st st' H; [done|].
  apply recurse2_S in H. simpl in H.
  destruct (expired' (clock st)) eqn:He; [done|].
  destruct (_ =? _)%nat.
  { injection H as ->. simpl. intros k Hk.
    destruct (expired' k) eqn:Hek; [|done].
    rewrite (expired_mono k (clock st)) in He; [done | lia | done]. }
  destruct H as (best & _ & H). destruct best as [var|]; [|done].
  destruct H as (ordered_vals & _ & H).
  eapply (try_values_true
            (fun s => forall k, (k < clock s)%nat -> expired' k = false));
    [|exact H].
  intros s s' Hs. by apply (IH s s').
Qed.

End Deadline.

Lemma deadlines_app tr1 tr2 :
  deadlines (tr1 ++ tr2) = deadlines tr1 ++ deadlines tr2.
Proof. apply omap_app. Qed.

Lemma deadlines_rev tr : deadlines (rev tr) = rev (deadlines tr).
Proof.
  induction tr as [|e tr IH]; [done|]. simpl rev.
  rewrite deadlines_app, IH. destruct e; simpl; by rewrite ?app_nil_r.
Qed.

Lemma deadlines_elem b tr : EvDeadline b ∈ tr -> b ∈ deadlines tr.
Proof.
  intros H. unfold deadlines. apply list_elem_of_omap.
  by exists (EvDeadline b).
Qed.

(** C2 (as amended).  With a clock that never goes back: a call of
    [recurse2] whose deadline check finds the budget exceeded returns
    false at once, leaving assignment, domains and counters as they are;
    and once one deadline check of a search has answered true, every later
    deadline check of that search answers true as well, so that no later
    call gets past its check, and [backtrack_search] reports [found]
    false. *)
Theorem deadline_unwinds (perf_counter : nat -> Q) (courses : list Course)
    (domains_init : gmap string (list Value)) (forward_checking : bool)
    (time_limit_ms : Z) (ok : bool) (st : State) :
  (forall n, (perf_counter n <= perf_counter (S n))%Q) ->
  search_run perf_counter courses domains_init forward_checking
    time_limit_ms = Ok (ok, st) ->
  (forall fuel s,
     expired_at perf_counter (perf_counter 0%nat)
       (inject_Z time_limit_ms / 1000)%Q (clock s) = true ->
     recurse2 perf_counter (perf_counter 0%nat)
       (inject_Z time_limit_ms / 1000)%Q (map id courses)
       (index_courses courses) forward_checking (S fuel) s
     = Ok (false, log (EvDeadline true) (tick s))) /\
  (forall pre post, rev (trace st) = pre ++ EvDeadline true :: post ->
     (forall b, EvDeadline b ∈ post -> b = true) /\
     ok = false /\
     forall r, backtrack_search perf_counter courses domains_init
                 forward_checking time_limit_ms = Ok r ->
               found r = false).
Proof.
  intros Hmono Hrun. split.
  { intros fuel s He. simpl. by rewrite He. }
  intros pre post Htr. unfold search_run in Hrun.
  pose proof (recurse2_tracks _ _ _ _ _ _ _ _ _ Hrun) as (n & Hclock & Hd).
  simpl in Hclock, Hd. rewrite app_nil_r in Hd.
  assert (Hchron : map (expired_at perf_counter (perf_counter 0%nat)
                          (inject_Z time_limit_ms / 1000)%Q) (seq 1 n)
                   = deadlines pre ++ true :: deadlines post).
  { rewrite <- (rev_involutive (map _ _)), <- Hd, <- deadlines_rev, Htr.
    by rewrite deadlines_app. }
  set (i := length (deadlines pre)).
  assert (Hi : expired_at perf_counter (perf_counter 0%nat)
                 (inject_Z time_limit_ms / 1000)%Q (1 + i) = true
               /\ (i < n)%nat).
  { pose proof (list_lookup_middle (deadlines pre) (deadlines post) true i
                  eq_refl) as Hl.
    rewrite <- Hchron in Hl. rewrite list_lookup_fmap in Hl.
    destruct (seq 1 n !! i) as [k|] eqn:Hk; [|done].
    apply lookup_seq in Hk as [-> Hlt]. simpl in Hl. injection Hl as Hl.
    split; [exact Hl | lia]. }
  destruct Hi as [Hi Hlt].
  assert (Hok : ok = false).
  { destruct ok; [|done].
    rewrite (recurse2_true_unexpired _ _ _ _ _ _ Hmono _ _ _ Hrun (1 + i))
      in Hi; [done|lia]. }
  split; [|split; [done|]].
  - intros b Hb. apply deadlines_elem in Hb.
    apply list_elem_of_lookup in Hb as [j Hj].
    assert (Hl : (deadlines pre ++ true :: deadlines post) !! (i + S j)%nat
                 = Some b).
    { rewrite lookup_app_r by (unfold i; lia).
      replace (i + S j - length (deadlines pre))%nat with (S j)
        by (unfold i; lia).
      done. }
    rewrite <- Hchron, list_lookup_fmap in Hl.
    destruct (seq 1 n !! (i + S j)%nat) as [k|] eqn:Hk; [|done].
    apply lookup_seq in Hk as [-> _]. injection Hl as <-.
    apply (expired_mono _ _ _ Hmono (1 + i)); [lia | done].
  - intros r Hr. apply backtrack_search_run in Hr as (st' & Hr & _).
    unfold search_run in Hr. rewrite Hrun in Hr. injection Hr as <- _.
    done.
Qed.

(** A clock that stands still for the first deadline check and has jumped
    ten seconds by the second. *)
Definition jumping_clock (n : nat) : Q :=
  if (n <=? 1)%nat then 0%Q else 10%Q.

Lemma deadline_unwinds_witness :
  exists st,
    search_run jumping_clock
      [mkCourse "A" "T1" ["G1"] 10; mkCourse "B" "T2" ["G2"] 10]
      (<["A" := [("t1", "r1"); ("t2", "r1")]]>
         (<["B" := [("t1", "r1"); ("t2", "r1")]]> ∅))
      true 1000 = Ok (false, st) /\
    rev (trace st) =
      [EvDeadline false; EvTry "A" ("t1", "r1"); EvPrune "B"] ++
      EvDeadline true ::
      [EvTry "A" ("t2", "r1"); EvPrune "B"; EvDeadline true] /\
    forall b,
      EvDeadline b ∈ [EvTry "A" ("t2", "r1"); EvPrune "B"; EvDeadline true]
      -> b = true.
Proof.
  assert (Hmono : forall n, (jumping_clock n <= jumping_clock (S n))%Q).
  { intros [|[|n]]; by vm_compute. }
  assert (Hrun : exists st,
    search_run jumping_clock
      [mkCourse "A" "T1" ["G1"] 10; mkCourse "B" "T2" ["G2"] 10]
      (<["A" := [("t1", "r1"); ("t2", "r1")]]>
         (<["B" := [("t1", "r1"); ("t2", "r1")]]> ∅))
      true 1000 = Ok (false, st) /\
    rev (trace st) =
      [EvDeadline false; EvTry "A" ("t1", "r1"); EvPrune "B"] ++
      EvDeadline true ::
      [EvTry "A" ("t2", "r1"); EvPrune "B"; EvDeadline true]).
  { eexists. split; vm_compute; reflexivity. }
  destruct Hrun as (st & Hrun & Htr). exists st.
  split; [exact Hrun|]. split; [exact Htr|].
  destruct (deadline_unwinds _ _ _ _ _ _ _ Hmono Hrun) as [_ Hpost].
  destruct (Hpost _ _ Htr) as [Hall _]. exact Hall.
Defined.

(** C2 fails as stated: in this forward-checking search of one second the
    second deadline check finds the budget exceeded, and after it the loop
    of the pending call tries the next candidate and prunes again. *)
Lemma deadline_counterexample :
  exists st,
    search_run jumping_clock
      [mkCourse "A" "T1" ["G1"] 10; mkCourse "B" "T2" ["G2"] 10]
      (<["A" := [("t1", "r1"); ("t2", "r1")]]>
         (<["B" := [("t1", "r1"); ("t2", "r1")]]> ∅))
      true 1000 = Ok (false, st) /\
    rev (trace st) =
      [EvDeadline false; EvTry "A" ("t1", "r1"); EvPrune "B";
       EvDeadline true; EvTry "A" ("t2", "r1"); EvPrune "B";
       EvDeadline true] /\
    tries st = 2%nat /\
    ~ quiet_after_expiry (rev (trace st)).
Proof.
  eexists. split; [vm_compute; reflexivity|].
  split; [reflexivity|]. split; [reflexivity|].
  intros Hquiet.
  destruct (Hquiet
    [EvDeadline false; EvTry "A" ("t1", "r1"); EvPrune "B"]
    [EvTry "A" ("t2", "r1"); EvPrune "B"; EvDeadline true]
    eq_refl (EvTry "A" ("t2", "r1"))) as [Htry _].
  - apply list_elem_of_here.
  - by apply (Htry "A" ("t2", "r1")).
Qed.

(** ** C3: backtrack counts of the two modes *)

Lemma prune_values_elem courses_by_id asg other dom newdom :
  prune_values courses_by_id asg other dom = Ok newdom ->
  forall v, v ∈ newdom <->
            v ∈ dom /\ violates asg courses_by_id other v = Ok false.
Proof.
  revert newdom. induction dom as [|ov rest IH]; intros newdom; simpl.
  - intros [= <-] v. split; [|by intros [? _]].
    intros H. by apply elem_of_nil in H.
  - intros H v. inv_bind H. inv_bind H. injection H as <-.
    specialize (IH _ Ha0 v). destruct a.
    + rewrite IH, elem_of_cons. split; [tauto|].
      intros [[->|Hin] Hv]; [congruence | done].
    + rewrite !elem_of_cons, IH. split.
      * intros [->|[? ?]]; [by split; [left|] | by split; [right|]].
      * intros [[->|Hin] Hv]; [by left | by right].
Qed.

Section Counting.

Variable perf_counter : nat -> Q.
Variable start : Q.
Variable time_limit_s : Q.
Variable course_ids : list string.
Variable courses_by_id : gmap string Course.
Variable forward_checking : bool.

Abbreviation assign' := (assign_and_prune courses_by_id forward_checking).
Abbreviation tryv := (try_values courses_by_id forward_checking).
Abbreviation rec2 := (recurse2 perf_counter start time_limit_s course_ids
                        courses_by_id forward_checking).





End Counting.


Section Dominance.

Variable perf_counter : nat -> Q.
Variable start : Q.
Variable time_limit_s : Q.
Variable course_ids : list string.
Variable courses_by_id : gmap string Course.

(** No deadline check finds the budget exceeded. *)
Hypothesis no_timeout :
  forall k, expired_at perf_counter start time_limit_s k = false.

Abbreviation rec_of := (recurse2 perf_counter start time_limit_s course_ids
                          courses_by_id).




(** Two courses [X] and [Y], [X] being the one assigned at the root. *)
Section TwoCourses.

Variables X Y : string.
Hypothesis distinct : X <> Y.
Hypothesis two : course_ids = [X; Y] \/ course_ids = [Y; X].






End TwoCourses.

End Dominance.



Section SmallInstances.

Variable perf_counter : nat -> Q.
Variable start : Q.
Variable time_limit_s : Q.
Variable course_ids : list string.
Variable courses_by_id : gmap string Course.

Hypothesis no_timeout :
  forall k, expired_at perf_counter start time_limit_s k = false.

Abbreviation rec_of := (recurse2 perf_counter start time_limit_s course_ids
                          courses_by_id).



End SmallInstances.

(** ** C3, three courses: auxiliary facts *)







(** The forward check over a list without repetition: every other
    variable is pruned once against the assignment; the check fails when
    one of them is left without a value. *)
Lemma forward_check_result courses_by_id var un saved st failure saved' st' :
  NoDup un ->
  forward_check courses_by_id var un saved st = Ok (failure, saved', st') ->
  (forall k, (k ∈ un -> k = var) -> domains st' !! k = domains st !! k) /\
  (failure = false ->
   forall o, o ∈ un -> o <> var ->
     exists d nd, domains st !! o = Some d /\
       prune_values courses_by_id (assignment st) o d = Ok nd /\
       domains st' !! o = Some nd /\ nd <> []) /\
  (failure = true ->
   exists o d, o ∈ un /\ o <> var /\ domains st !! o = Some d /\
     prune_values courses_by_id (assignment st) o d = Ok []).
Proof.
  intros Hnd. revert saved st.
  induction un as [|other rest IH]; intros saved st; simpl.
  - intros [= <- _ <-]. split; [done|]. split; [|done].
    intros _ o Ho. by apply elem_of_nil in Ho.
  - apply NoDup_cons in Hnd as [Hother Hnd]. specialize (IH Hnd).
    destruct (String.eqb_spec other var) as [->|Hne].
    + intros H. apply IH in H as (Hk & Hf & Ht). split; [|split].
      * intros k Hin. apply Hk. intros Hr. apply Hin. by right.
      * intros Hfalse o Ho Hov. apply (Hf Hfalse); [|done].
        apply elem_of_cons in Ho as [->|Ho]; done.
      * intros Htrue. destruct (Ht Htrue) as (o & d & Ho & Hrest).
        exists o, d. split; [by right | done].
    + intros H. inv_bind H. apply getitem_Ok in Ha. inv_bind H.
      destruct (length a0 =? 0)%nat eqn:Hlen.
      * injection H as <- <- <-. simpl. split; [|split; [done|]].
        -- intros k Hin. rewrite lookup_insert_ne; [done|].
           intros <-. apply Hne, Hin. by left.
        -- intros _. exists other, a. split; [by left|].
           apply Nat.eqb_eq, nil_length_inv in Hlen. by subst a0.
      * apply IH in H as (Hk & Hf & Ht). simpl in Hk, Hf, Ht.
        split; [|split].
        -- intros k Hin. rewrite Hk.
           ++ rewrite lookup_insert_ne; [done|].
              intros <-. apply Hne, Hin. by left.
           ++ intros Hr. apply Hin. by right.
        -- intros Hfalse o Ho Hov. apply elem_of_cons in Ho as [->|Ho].
           ++ exists a, a0. split; [done|]. split; [done|]. split.
              ** rewrite Hk by done. by rewrite lookup_insert_eq.
              ** intros ->. by simpl in Hlen.
           ++ destruct (Hf Hfalse o Ho Hov) as (d & nd & Hd & Hp & Hd' & Hn).
              exists d, nd. split; [|done].
              rewrite lookup_insert_ne in Hd; [done|]. by intros ->.
        -- intros Htrue. destruct (Ht Htrue) as (o & d & Ho & Hov & Hd & Hp).
           exists o, d. split; [by right|]. split; [done|]. split; [|done].
           rewrite lookup_insert_ne in Hd; [done|]. by intros ->.
Qed.

Section LastTwo.

Variable perf_counter : nat -> Q.
Variable start : Q.
Variable time_limit_s : Q.
Variable course_ids : list string.
Variable courses_by_id : gmap string Course.

Hypothesis no_timeout :
  forall k, expired_at perf_counter start time_limit_s k = false.
Hypothesis distinct_ids : NoDup course_ids.

Abbreviation rec_of := (recurse2 perf_counter start time_limit_s course_ids
                          courses_by_id).


Section Pair.

(** [V] is the variable of the loop, [W] the one that remains. *)
Variables V W : string.
Variable un : list string.
Hypothesis different : V <> W.
Hypothesis pair : un = [V; W] \/ un = [W; V].

Lemma pair_NoDup : NoDup un.
Proof.
  destruct pair as [-> | ->]; apply NoDup_cons; split;
    try apply NoDup_singleton; rewrite list_elem_of_singleton; congruence.
Qed.




End Pair.

End LastTwo.

Section Children.

Variable perf_counter : nat -> Q.
Variable start : Q.
Variable time_limit_s : Q.
Variable course_ids : list string.
Variable courses_by_id : gmap string Course.

Hypothesis no_timeout :
  forall k, expired_at perf_counter start time_limit_s k = false.
Hypothesis distinct_ids : NoDup course_ids.

Abbreviation rec_of := (recurse2 perf_counter start time_limit_s course_ids
                          courses_by_id).

(** The state of a call with exactly [X] and [Y] unassigned, both with a
    domain of fewer than 10^9 values. *)
Variables X Y : string.
Variable un : list string.
Variables dX dY : list Value.
Variable s : State.
Hypothesis different : X <> Y.
Hypothesis pair : un = [X; Y] \/ un = [Y; X].
Hypothesis unassigned_s : unassigned_of course_ids s = un.
Hypothesis two_left : S (S (length (assignment s))) = length course_ids.
Hypothesis domain_X : domains s !! X = Some dX.
Hypothesis domain_Y : domains s !! Y = Some dY.
Hypothesis small_X : (Z.of_nat (length dX) < 10 ^ 9)%Z.
Hypothesis small_Y : (Z.of_nat (length dY) < 10 ^ 9)%Z.






End Children.


Section ThreeCourses.

Variable perf_counter : nat -> Q.
Variable start : Q.
Variable time_limit_s : Q.
Variable course_ids : list string.
Variable courses_by_id : gmap string Course.

Hypothesis no_timeout :
  forall k, expired_at perf_counter start time_limit_s k = false.
Hypothesis distinct_ids : NoDup course_ids.
Hypothesis three : length course_ids = 3%nat.

Abbreviation rec_of := (recurse2 perf_counter start time_limit_s course_ids
                          courses_by_id).

(** [R] is the variable of the root call, [X] and [Y] are the others. *)
Variables R X Y : string.
Variable D : gmap string (list Value).
Variables dX dY : list Value.
Hypothesis different : X <> Y.
Hypothesis others : forall o, o ∈ course_ids -> o <> R -> o = X \/ o = Y.
Hypothesis rest_ids :
  List.filter (fun k => negb (String.eqb R k)) course_ids = [X; Y].
Hypothesis domain_X : D !! X = Some dX.
Hypothesis domain_Y : D !! Y = Some dY.
Hypothesis small_X : (Z.of_nat (length dX) < 10 ^ 9)%Z.
Hypothesis small_Y : (Z.of_nat (length dY) < 10 ^ 9)%Z.




End ThreeCourses.

Section ThreeRoot.

Variable perf_counter : nat -> Q.
Variable start : Q.
Variable time_limit_s : Q.
Variable course_ids : list string.
Variable courses_by_id : gmap string Course.

Hypothesis no_timeout :
  forall k, expired_at perf_counter start time_limit_s k = false.

Abbreviation rec_of := (recurse2 perf_counter start time_limit_s course_ids
                          courses_by_id).


End ThreeRoot.




(** * Further properties of the heuristics and of the search *)

(** ** select_mrv: the missing key *)

Lemma select_mrv_loop_KeyError domains unassigned best best_size :
  select_mrv_loop domains unassigned best best_size = KeyError <->
  exists v, v ∈ unassigned /\ domains !! v = None.
Proof.
  revert best best_size.
  induction unassigned as [|var rest IH]; intros best best_size; simpl.
  - split; [done|]. intros (v & Hv & _). by apply elem_of_nil in Hv.
  - unfold getitem. destruct (domains !! var) as [d|] eqn:Hd; simpl.
    + assert (Hiff : (exists v, v ∈ var :: rest /\ domains !! v = None) <->
                     (exists v, v ∈ rest /\ domains !! v = None)).
      { split; intros (v & Hv & Hn).
        - apply elem_of_cons in Hv as [->|Hv]; [congruence|]. by exists v.
        - exists v. by split; [right|]. }
      rewrite Hiff. destruct (_ <? _)%Z; apply IH.
    + split; [|done]. intros _. exists var. by split; [left|].
Qed.

(** X2.  [select_mrv] raises [KeyError] exactly when some unassigned
    variable has no entry in [domains]: the loop reads the domain of every
    variable of the list, also after it has met an empty domain. *)
Theorem select_mrv_raises (unassigned : list string)
    (domains : gmap string (list Value)) :
  select_mrv unassigned domains = KeyError <->
  exists v, v ∈ unassigned /\ domains !! v = None.
Proof. apply select_mrv_loop_KeyError. Qed.

(** ** violates: what the loop reads *)

Lemma violates_items_filter course_by_id c ts room items :
  violates_items course_by_id c ts room items =
  violates_items course_by_id c ts room
    (List.filter (fun e => String.eqb (fst (snd e)) ts) items).
Proof.
  induction items as [|[k [ots oroom]] rest IH]; [done|]. simpl.
  destruct (String.eqb ots ts) eqn:Hts; simpl; [|done].
  rewrite Hts. simpl. destruct (getitem course_by_id k); simpl; [|done..].
  destruct (String.eqb (teacher a) (teacher c)); [done|].
  destruct (intersects (groups a) (groups c)); [done|].
  by destruct (String.eqb oroom room).
Qed.

(** X3.  [violates] looks only at the assigned courses that sit in the
    candidate's timeslot: dropping every other entry of the assignment
    changes neither its answer nor whether it raises, whether or not the
    dropped entries have a course record. *)
Theorem violates_same_timeslot_only (assignment : Dict.t Value)
    (course_by_id : gmap string Course) (course_id ts room : string) :
  violates assignment course_by_id course_id (ts, room) =
  violates (List.filter (fun e => String.eqb (fst (snd e)) ts) assignment)
    course_by_id course_id (ts, room).
Proof.
  unfold violates. destruct (getitem course_by_id course_id); simpl;
    [|done..].
  apply violates_items_filter.
Qed.

Lemma violates_items_KeyError course_by_id c ts room items :
  violates_items course_by_id c ts room items = KeyError <->
  exists pre other_id oroom post,
    items = pre ++ (other_id, (ts, oroom)) :: post /\
    course_by_id !! other_id = None /\
    violates_items course_by_id c ts room pre = Ok false.
Proof.
  induction items as [|[k [ots oroom]] rest IH]; simpl.
  - split; [done|]. intros (pre & o & r & post & H & _). by destruct pre.
  - destruct (String.eqb_spec ots ts) as [->|Hne]; simpl.
    + unfold getitem. destruct (course_by_id !! k) as [other|] eqn:Hk; simpl.
      * assert (Hcons : forall b : bool,
          (if b then Ok true
           else violates_items course_by_id c ts room rest) = KeyError <->
          b = false /\
          violates_items course_by_id c ts room rest = KeyError).
        { intros []; split; try done. by intros [? _]. by intros [_ ?]. }
        set (hit := String.eqb (teacher other) (teacher c)
                    || intersects (groups other) (groups c)
                    || String.eqb oroom room).
        assert (Hsame : (if String.eqb (teacher other) (teacher c)
                   then Ok true
                   else if intersects (groups other) (groups c) then Ok true
                   else if String.eqb oroom room then Ok true
                   else violates_items course_by_id c ts room rest) =
                  (if hit then Ok true
                   else violates_items course_by_id c ts room rest)).
        { unfold hit. destruct (String.eqb (teacher other) (teacher c));
            [done|].
          destruct (intersects (groups other) (groups c)); [done|].
          by destruct (String.eqb oroom room). }
        rewrite Hsame, Hcons, IH. split.
        -- intros (Hhit & pre & o & r & post & -> & Ho & Hpre).
           exists ((k, (ts, oroom)) :: pre), o, r, post.
           split; [done|]. split; [done|]. simpl.
           rewrite String.eqb_refl. simpl. unfold getitem. rewrite Hk. simpl.
           fold hit in Hsame. rewrite <- Hpre.
           unfold hit in Hhit.
           apply orb_false_iff in Hhit as [Hhit Hr].
           apply orb_false_iff in Hhit as [Ht Hg].
           by rewrite Ht, Hg, Hr.
        -- intros (pre & o & r & post & Heq & Ho & Hpre).
           destruct pre as [|e pre]; simpl in Heq.
           { injection Heq as -> _ _. congruence. }
           injection Heq as <- ->. simpl in Hpre.
           rewrite String.eqb_refl in Hpre. simpl in Hpre.
           unfold getitem in Hpre. rewrite Hk in Hpre. simpl in Hpre.
           split.
           ++ unfold hit.
              destruct (String.eqb (teacher other) (teacher c)); [done|].
              destruct (intersects (groups other) (groups c)); [done|].
              by destruct (String.eqb oroom room).
           ++ exists pre, o, r, post. split; [done|]. split; [done|].
              destruct (String.eqb (teacher other) (teacher c)); [done|].
              destruct (intersects (groups other) (groups c)); [done|].
              by destruct (String.eqb oroom room).
      * split; [|done]. intros _. exists [], k, oroom, rest. by split.
    + rewrite IH. split.
      * intros (pre & o & r & post & -> & Ho & Hpre).
        exists ((k, (ots, oroom)) :: pre), o, r, post.
        split; [done|]. split; [done|]. simpl.
        apply String.eqb_neq in Hne. by rewrite Hne.
      * intros (pre & o & r & post & Heq & Ho & Hpre).
        destruct pre as [|e pre]; simpl in Heq.
        { injection Heq as _ -> _. done. }
        injection Heq as <- ->. simpl in Hpre.
        apply String.eqb_neq in Hne. rewrite Hne in Hpre. simpl in Hpre.
        by exists pre, o, r, post.
Qed.

(** X4.  [violates] raises [KeyError] in two cases only: the course being
    placed has no record; or it has one, and the first assigned course that
    the loop has to look up, one in the candidate's timeslot that no earlier
    entry has already answered for, has no record. *)
Theorem violates_raises (assignment : Dict.t Value)
    (course_by_id : gmap string Course) (course_id ts room : string) :
  violates assignment course_by_id course_id (ts, room) = KeyError <->
  course_by_id !! course_id = None \/
  (is_Some (course_by_id !! course_id) /\
   exists pre other_id oroom post,
     assignment = pre ++ (other_id, (ts, oroom)) :: post /\
     course_by_id !! other_id = None /\
     violates pre course_by_id course_id (ts, room) = Ok false).
Proof.
  unfold violates, getitem.
  destruct (course_by_id !! course_id) as [c|] eqn:Hc; simpl.
  - rewrite violates_items_KeyError. split.
    + intros H. right. split; [by eexists|]. done.
    + intros [?|[_ H]]; done.
  - split; [by left | done].
Qed.

(** X5.  The constraint check is symmetric: for two courses with records,
    placing the second against the first gives the answer that placing the
    first against the second gives. *)
Theorem violates_symmetric (course_by_id : gmap string Course)
    (k1 k2 : string) (v1 v2 : Value) :
  is_Some (course_by_id !! k1) ->
  is_Some (course_by_id !! k2) ->
  violates [(k1, v1)] course_by_id k2 v2 =
  violates [(k2, v2)] course_by_id k1 v1.
Proof.
  intros [c1 H1] [c2 H2]. destruct v1 as [ts1 room1], v2 as [ts2 room2].
  unfold violates. rewrite (getitem_Some _ _ _ H1), (getitem_Some _ _ _ H2).
  simpl. rewrite (getitem_Some _ _ _ H1), (getitem_Some _ _ _ H2). simpl.
  rewrite (String.eqb_sym ts2 ts1).
  destruct (String.eqb ts1 ts2); simpl; [|done].
  rewrite (String.eqb_sym (teacher c2) (teacher c1)).
  destruct (String.eqb (teacher c1) (teacher c2)); [done|].
  rewrite (intersects_sym (groups c2) (groups c1)).
  destruct (intersects (groups c1) (groups c2)); [done|].
  by rewrite (String.eqb_sym room2 room1).
Qed.

Lemma violates_symmetric_witness :
  let cs : gmap string Course :=
    <["A" := mkCourse "A" "T1" ["G1"] 10]>
      (<["B" := mkCourse "B" "T2" ["G1"; "G2"] 10]> ∅) in
  violates [("A", ("Mon", "R1"))] cs "B" ("Mon", "R2") =
  violates [("B", ("Mon", "R2"))] cs "A" ("Mon", "R1").
Proof.
  intros cs. apply violates_symmetric; by eexists.
Defined.

(** ** lcv_order: the last variable *)

Lemma insert_by_key_last {A : Type} (key : A -> nat) (x : A) (l : list A) :
  Forall (fun y => (key y <= key x)%nat) l ->
  insert_by_key key x l = l ++ [x].
Proof.
  induction 1 as [|y l Hy _ IH]; [done|]. simpl.
  apply Nat.leb_le in Hy. by rewrite Hy, IH.
Qed.

Lemma sort_by_key_const {A : Type} (key : A -> nat) (n : nat) (l : list A) :
  Forall (fun y => key y = n) l -> sort_by_key key l = l.
Proof.
  induction l as [|x l IH] using rev_ind; [done|]. intros Hall.
  apply Forall_app in Hall as [Hl Hx]. apply Forall_cons in Hx as [Hx _].
  rewrite sort_by_key_snoc, IH by done. apply insert_by_key_last.
  eapply Forall_impl; [exact Hl|]. simpl. intros y Hy. rewrite Hy, Hx. lia.
Qed.

Lemma lcv_elim_alone courses_by_id domains var v unassigned elim :
  (forall o, o ∈ unassigned -> o = var) ->
  lcv_elim courses_by_id domains var v unassigned elim = Ok elim.
Proof.
  induction unassigned as [|other rest IH]; intros Hall; [done|]. simpl.
  rewrite (Hall other) by (by left). rewrite String.eqb_refl.
  apply IH. intros o Ho. apply Hall. by right.
Qed.

(** X6.  When no variable other than [var] is unassigned, [lcv_order]
    returns the domain of [var] as it stands: every value scores 0 and the
    sort is stable.  No course record is read. *)
Theorem lcv_order_alone (var : string) (domains : gmap string (list Value))
    (unassigned : list string) (courses_by_id : gmap string Course)
    (vals : list Value) :
  domains !! var = Some vals ->
  (forall o, o ∈ unassigned -> o = var) ->
  lcv_order var domains unassigned courses_by_id = Ok vals.
Proof.
  intros Hvals Hall. unfold lcv_order.
  rewrite (getitem_Some _ _ _ Hvals). simpl.
  assert (Hscored : forall l,
    lcv_scored courses_by_id domains var unassigned l =
    Ok (map (fun v => (0%nat, v)) l)).
  { induction l as [|v l IH]; [done|]. simpl.
    rewrite lcv_elim_alone by done. simpl. by rewrite IH. }
  rewrite Hscored. simpl. f_equal.
  rewrite (sort_by_key_const fst 0%nat).
  - rewrite map_map. simpl. apply map_id.
  - apply Forall_forall. intros p Hp.
    by apply list_elem_of_fmap in Hp as (v & -> & _).
Qed.

Lemma lcv_order_alone_witness :
  lcv_order "A" (<["A" := [("t2", "r1"); ("t1", "r1")]]> ∅) ["A"] ∅
  = Ok [("t2", "r1"); ("t1", "r1")].
Proof.
  apply lcv_order_alone; [reflexivity|].
  intros o Ho. by apply list_elem_of_singleton in Ho.
Defined.

(** ** build_domains: keys and sizes *)

Lemma index_courses_lookup_is_Some courses k :
  is_Some (index_courses courses !! k) <-> k ∈ map id courses.
Proof.
  split.
  - unfold index_courses.
    assert (H : forall m : gmap string Course,
      is_Some (foldl (fun m c => <[id c := c]> m) m courses !! k) ->
      is_Some (m !! k) \/ k ∈ map id courses).
    { induction courses as [|c courses IH]; intros m; simpl; [by left|].
      intros Hs. apply IH in Hs as [Hs|Hs].
      - apply lookup_insert_is_Some in Hs as [<-|[_ Hs]].
        + right. by left.
        + by left.
      - right. by right. }
    intros Hs. apply H in Hs as [Hs|Hs]; [|done].
    rewrite lookup_empty in Hs. by destruct Hs.
  - intros Hk. apply list_elem_of_fmap in Hk as (c & -> & Hc).
    by apply index_courses_is_Some.
Qed.

(** X7.  [build_domains] has an entry for exactly the ids of the courses
    it is given. *)
Theorem build_domains_keys (courses : list Course) (timeslots : list string)
    (rooms : list Room) (k : string) :
  is_Some (build_domains courses timeslots rooms !! k) <->
  k ∈ map id courses.
Proof.
  rewrite build_domains_lookup, <- index_courses_lookup_is_Some.
  by rewrite fmap_is_Some.
Qed.

Lemma initial_domain_length c timeslots rooms :
  length (initial_domain c timeslots rooms) =
  (length timeslots *
   length (List.filter (fun r => (size c <=? capacity r)%Z) rooms))%nat.
Proof.
  unfold initial_domain.
  induction timeslots as [|ts timeslots IH]; [done|]. simpl.
  rewrite length_app, length_map. by f_equal.
Qed.

(** X8.  The domain that [build_domains] gives a course has one value per
    timeslot and room that is large enough; it is empty exactly when there
    is no timeslot or no room is large enough.  With a repeated course id
    the entry is computed from the last course of that id. *)
Theorem build_domains_size (courses : list Course) (timeslots : list string)
    (rooms : list Room) (k : string) (c : Course) :
  index_courses courses !! k = Some c ->
  exists d, build_domains courses timeslots rooms !! k = Some d /\
    length d =
      (length timeslots *
       length (List.filter (fun r => (size c <=? capacity r)%Z) rooms))%nat /\
    (d = [] <->
     timeslots = [] \/ forall r, r ∈ rooms -> (capacity r < size c)%Z).
Proof.
  intros Hc. exists (initial_domain c timeslots rooms).
  split; [by rewrite build_domains_lookup, Hc|].
  split; [apply initial_domain_length|].
  rewrite <- length_zero_iff_nil, initial_domain_length.
  rewrite Nat.eq_mul_0, !length_zero_iff_nil. split.
  - intros [->|Hf]; [by left|]. right. intros r Hr.
    destruct (Z.leb_spec (size c) (capacity r)) as [Hle|Hlt]; [|done].
    assert (Hin : r ∈ List.filter (fun r => (size c <=? capacity r)%Z) rooms).
    { apply list_elem_of_In, filter_In. rewrite <- list_elem_of_In.
      split; [done|]. by apply Z.leb_le. }
    rewrite Hf in Hin. by apply elem_of_nil in Hin.
  - intros [->|Hall]; [by left|]. right.
    destruct (List.filter _ rooms) as [|r l] eqn:Hf; [done|].
    assert (Hin : r ∈ List.filter (fun r => (size c <=? capacity r)%Z) rooms).
    { rewrite Hf. by left. }
    apply list_elem_of_In, filter_In in Hin as [Hin Hcap].
    apply list_elem_of_In, Hall in Hin. apply Z.leb_le in Hcap. lia.
Qed.

Lemma build_domains_size_witness :
  exists d,
    build_domains [mkCourse "A" "T1" ["G1"] 30] ["t1"; "t2"]
      [mkRoom "small" 10; mkRoom "big" 40; mkRoom "hall" 90] !! "A" = Some d /\
    length d = 4%nat.
Proof.
  destruct (build_domains_size [mkCourse "A" "T1" ["G1"] 30] ["t1"; "t2"]
              [mkRoom "small" 10; mkRoom "big" 40; mkRoom "hall" 90] "A"
              (mkCourse "A" "T1" ["G1"] 30) eq_refl) as (d & Hd & Hlen & _).
  exists d. split; [exact Hd | exact Hlen].
Defined.

(** ** The search on the domains of build_domains *)

(** X9.  The call that [run_csp_experiments] makes, [backtrack_search] on
    the domains that [build_domains] computed from the same courses,
    returns a result record in either mode and for any clock: no subscript
    of [domains] or [courses_by_id] can fail.  This holds within the limits
    of the interpreter: a time limit below 2^1024 - 2^970 in magnitude, and
    room for one nested call of [recurse2] per course and one more. *)
Theorem built_search_returns (depth : nat) (perf_counter : nat -> Q)
    (courses : list Course) (timeslots : list string) (rooms : list Room)
    (forward_checking : bool) (time_limit_ms : Z) :
  (Z.abs time_limit_ms < 2 ^ 1024 - 2 ^ 970)%Z ->
  (length courses < depth)%nat ->
  exists r,
    backtrack_search_bounded depth perf_counter courses
      (build_domains courses timeslots rooms) forward_checking time_limit_ms
    = Returned r.
Proof.
  intros Hlim Hdepth.
  apply backtrack_search_bounded_total; [|by apply overflows_false|done].
  intros c Hc. rewrite build_domains_lookup. apply fmap_is_Some.
  by apply index_courses_is_Some.
Qed.

Lemma built_search_returns_witness :
  exists r,
    backtrack_search_bounded 3 (fun _ => 0%Q)
      [mkCourse "A" "T1" ["G1"] 30; mkCourse "B" "T2" ["G2"] 10]
      (build_domains
         [mkCourse "A" "T1" ["G1"] 30; mkCourse "B" "T2" ["G2"] 10]
         ["t1"] [mkRoom "small" 10; mkRoom "big" 40])
      true 20000
    = Returned r.
Proof.
  apply (built_search_returns 3 (fun _ => 0%Q)
           [mkCourse "A" "T1" ["G1"] 30; mkCourse "B" "T2" ["G2"] 10]
           ["t1"] [mkRoom "small" 10; mkRoom "big" 40] true 20000).
  - by vm_compute.
  - simpl. lia.
Defined.

(** ** An empty initial domain *)



(** ** The counters *)

Section Counters.

Variable perf_counter : nat -> Q.
Variable start : Q.
Variable time_limit_s : Q.
Variable course_ids : list string.
Variable courses_by_id : gmap string Course.
Variable forward_checking : bool.

(** What a call adds to the counters: at most one backtrack more than it
    tries candidates; and a call that succeeds has tried at least one
    candidate for each variable it had to assign, each backtrack below it
    costing one more. *)
Definition counted (st : State) (r : bool * State) : Prop :=
  (tries st <= tries (snd r))%nat /\
  (backtracks (snd r) + tries st <= backtracks st + tries (snd r) + 1)%nat /\
  (fst r = false -> assignment (snd r) = assignment st) /\
  (fst r = true ->
   (backtracks (snd r) + tries st + length course_ids
    <= backtracks st + tries (snd r) + length (assignment st))%nat).

Lemma assign_and_prune_counters var unassigned val st failure saved st2 :
  assign_and_prune courses_by_id forward_checking var unassigned val st
    = Ok (failure, saved, st2) ->
  assignment st2 = Dict.set var val (assignment st) /\
  backtracks st2 = backtracks st /\ tries st2 = tries st.
Proof.
  unfold assign_and_prune. destruct forward_checking.
  - intros H. by apply forward_check_frame in H as (-> & -> & -> & _).
  - by intros [= _ _ <-].
Qed.

Lemma try_values_counted rec var unassigned vals st r :
  (forall s r', rec s = Ok r' -> counted s r') ->
  Dict.mem var (assignment st) = false ->
  try_values courses_by_id forward_checking rec var unassigned vals st
    = Ok r ->
  counted st r.
Proof.
  intros Hrec. revert st.
  induction vals as [|val rest IH]; intros st Hmem H.
  - injection H as <-. unfold counted. simpl. repeat split; (lia || done).
  - apply try_values_cons in H as (viol & _ & H). simpl in H.
    destruct viol.
    { apply IH in H; [|done]. unfold counted in *. simpl in H.
      destruct H as (H1 & H2 & H3 & H4). repeat split; try done; try lia.
      intros Ht. specialize (H4 Ht). lia. }
    destruct H as (failure & saved & st2 & ok & st3 & Ha & Hr & H).
    apply assign_and_prune_counters in Ha as (Hasg & Hb2 & Ht2).
    simpl in Hasg, Hb2, Ht2. rewrite set_fresh in Hasg by done.
    assert (H3 : counted st2 (ok, st3)).
    { destruct failure; [|by apply Hrec]. injection Hr as <- <-.
      unfold counted. simpl. repeat split; (lia || done). }
    destruct H3 as (C1 & C2 & C3 & C4). simpl in C1, C2, C3, C4.
    destruct ok.
    + subst r. unfold counted. simpl. specialize (C4 eq_refl).
      rewrite Hasg, length_app in C4. simpl in C4.
      repeat split; try done; lia.
    + specialize (C3 eq_refl).
      assert (Hua : assignment (undo var saved st3) = assignment st).
      { simpl. rewrite C3, Hasg. by apply pop_snoc. }
      apply IH in H; [|by rewrite Hua].
      destruct H as (H1 & H2 & H3 & H4). rewrite Hua in H3, H4.
      simpl in H1, H2, H4. unfold counted. repeat split; try done; try lia.
      intros Ht. specialize (H4 Ht). lia.
Qed.

Lemma recurse2_counted fuel st r :
  recurse2 perf_counter start time_limit_s course_ids courses_by_id
    forward_checking fuel st = Ok r ->
  counted st r.
Proof.
  revert st r. induction fuel as [|fuel IH]; intros st r H; [done|].
  apply recurse2_S in H. simpl in H.
  destruct (expired_at _ _ _ _).
  { subst r. unfold counted. simpl. repeat split; (lia || done). }
  destruct (_ =? _)%nat eqn:Hlen.
  { subst r. apply Nat.eqb_eq in Hlen. unfold counted. simpl.
    repeat split; (lia || done). }
  destruct H as (best & Hbest & H). destruct best as [var|].
  2: { subst r. unfold counted. simpl. repeat split; (lia || done). }
  destruct H as (ordered_vals & _ & H).
  apply select_mrv_elem in Hbest as [Hin _].
  apply unassigned_of_elem in Hin as [_ Hmem].
  apply try_values_counted in H; done.
Qed.

End Counters.

(** X11.  The counters of a result are tied to each other: the search
    counts at most one backtrack more than it tries candidates; and when it
    reports a solution, it has tried at least one candidate per course and
    one more for each backtrack. *)
Theorem search_counters (perf_counter : nat -> Q) (courses : list Course)
    (domains_init : gmap string (list Value)) (forward_checking : bool)
    (time_limit_ms : Z) (r : SearchResult) :
  backtrack_search perf_counter courses domains_init forward_checking
    time_limit_ms = Ok r ->
  (res_backtracks r <= assignments_tried r + 1)%nat /\
  (found r = true ->
   (res_backtracks r + length courses <= assignments_tried r)%nat).
Proof.
  intros H. apply backtrack_search_Ok in H as (st & H & -> & -> & _).
  apply recurse2_counted in H as (_ & H2 & _ & H4). simpl in H2, H4.
  split; [lia|]. intros Hf. specialize (H4 Hf).
  rewrite length_map in H4. lia.
Qed.

Lemma search_counters_witness :
  exists r,
    backtrack_search (fun _ => 0%Q)
      [mkCourse "A" "T1" ["G1"] 10; mkCourse "B" "T1" ["G2"] 10]
      (<["A" := [("t1", "r1"); ("t2", "r1")]]>
         (<["B" := [("t1", "r2")]]> ∅))
      false 1000 = Ok r /\
    found r = true /\
    (res_backtracks r <= assignments_tried r + 1)%nat /\
    (res_backtracks r + 2 <= assignments_tried r)%nat.
Proof.
  assert (Hrun : exists r,
    backtrack_search (fun _ => 0%Q)
      [mkCourse "A" "T1" ["G1"] 10; mkCourse "B" "T1" ["G2"] 10]
      (<["A" := [("t1", "r1"); ("t2", "r1")]]>
         (<["B" := [("t1", "r2")]]> ∅))
      false 1000 = Ok r /\ found r = true).
  { eexists. split; [vm_compute; reflexivity | reflexivity]. }
  destruct Hrun as (r & Hr & Hf). exists r.
  split; [exact Hr|]. split; [exact Hf|].
  destruct (search_counters _ _ _ _ _ _ Hr) as [H1 H2].
  split; [exact H1 | exact (H2 Hf)].
Defined.

(** ** A solution assigns each course once *)

(** X12.  When the search reports a solution, for whatever initial
    domains, the course ids are pairwise distinct, the keys of the solution
    are the course ids, each once, and every course got a value of its own
    initial domain.  A list of courses in which an id occurs twice is
    therefore never reported as solved. *)
Theorem solution_assigns_each_course_once (perf_counter : nat -> Q)
    (courses : list Course) (domains_init : gmap string (list Value))
    (forward_checking : bool) (time_limit_ms : Z) (r : SearchResult) :
  backtrack_search perf_counter courses domains_init forward_checking
    time_limit_ms = Ok r ->
  found r = true ->
  NoDup (map id courses) /\
  Dict.keys (solution r) ≡ₚ map id courses /\
  (forall k v, (k, v) ∈ solution r ->
     exists d0, domains_init !! k = Some d0 /\ v ∈ d0).
Proof.
  intros H Hfound.
  apply backtrack_search_Ok in H as (st & H & _ & _ & Hsol).
  rewrite Hfound in H. rewrite Hsol.
  pose proof (recurse2_true_length _ _ _ _ _ _ _ _ _ H) as Hlen.
  apply (recurse2_placed _ _ _ _ _ _ domains_init) in H as (Hp & _ & _);
    [|constructor|intros k d Hd; exists d; by split].
  simpl in Hp.
  destruct (placed_keys _ _ _ _ Hp) as [Hnd Hsub].
  assert (Hperm : Dict.keys (assignment st) ≡ₚ map id courses).
  { apply submseteq_length_Permutation.
    - by apply NoDup_submseteq.
    - unfold Dict.keys. rewrite !length_map. rewrite length_map in Hlen.
      lia. }
  split; [by rewrite <- Hperm|]. split; [done|].
  intros k v Hin. by apply (placed_from_init _ _ _ _ _ _ Hp Hin).
Qed.

Lemma solution_assigns_each_course_once_witness :
  exists r,
    backtrack_search (fun _ => 0%Q)
      [mkCourse "A" "T1" ["G1"] 10; mkCourse "B" "T1" ["G2"] 10]
      (<["A" := [("t1", "r1"); ("t2", "r1")]]>
         (<["B" := [("t1", "r2")]]> ∅))
      true 1000 = Ok r /\
    Dict.keys (solution r) ≡ₚ ["A"; "B"].
Proof.
  eexists. split; [vm_compute; reflexivity|].
  eapply (solution_assigns_each_course_once (fun _ => 0%Q)
      [mkCourse "A" "T1" ["G1"] 10; mkCourse "B" "T1" ["G2"] 10]
      (<["A" := [("t1", "r1"); ("t2", "r1")]]>
         (<["B" := [("t1", "r2")]]> ∅))
      true 1000).
  - vm_compute. reflexivity.
  - reflexivity.
Defined.

(** ** Plain mode leaves the domains alone *)

Section Plain.

Variable perf_counter : nat -> Q.
Variable start : Q.
Variable time_limit_s : Q.
Variable course_ids : list string.
Variable courses_by_id : gmap string Course.

(** The domains are those of [st], and the log has no pruning step that
    the log of [st] does not have. *)
Definition untouched (st : State) (r : bool * State) : Prop :=
  domains (snd r) = domains st /\
  forall o, EvPrune o ∈ trace (snd r) -> EvPrune o ∈ trace st.

Lemma try_values_untouched rec var unassigned vals st r :
  (forall s r', rec s = Ok r' -> untouched s r') ->
  try_values courses_by_id false rec var unassigned vals st = Ok r ->
  untouched st r.
Proof.
  intros Hrec. revert st.
  induction vals as [|val rest IH]; intros st H.
  - injection H as <-. by split.
  - apply try_values_cons in H as (viol & _ & H). simpl in H.
    destruct viol.
    { apply IH in H as [Hd Ht]. simpl in Hd, Ht. split; [done|].
      intros o Ho. apply Ht in Ho.
      by apply elem_of_cons in Ho as [?|?]. }
    destruct H as (failure & saved & st2 & ok & st3 & Ha & Hr & H).
    injection Ha as <- <- <-. apply Hrec in Hr as [Hd3 Ht3].
    simpl in Hd3, Ht3.
    assert (Hback : forall o, EvPrune o ∈ trace st3 -> EvPrune o ∈ trace st).
    { intros o Ho. apply Ht3 in Ho.
      by apply elem_of_cons in Ho as [?|?]. }
    destruct ok; [by subst r|].
    apply IH in H as [Hd Ht]. simpl in Hd, Ht. split.
    + by rewrite Hd, Hd3.
    + intros o Ho. by apply Hback, Ht.
Qed.

Lemma recurse2_untouched fuel st r :
  recurse2 perf_counter start time_limit_s course_ids courses_by_id false
    fuel st = Ok r ->
  untouched st r.
Proof.
  revert st r. induction fuel as [|fuel IH]; intros st r H; [done|].
  assert (Hbase : forall b e,
    untouched st (b, log (EvDeadline e) (tick st))).
  { intros b e. split; [done|]. simpl. intros o Ho.
    by apply elem_of_cons in Ho as [?|?]. }
  apply recurse2_S in H. simpl in H.
  destruct (expired_at _ _ _ _); [subst r; apply Hbase|].
  destruct (_ =? _)%nat; [subst r; apply Hbase|].
  destruct H as (best & _ & H).
  destruct best as [var|]; [|subst r; apply Hbase].
  destruct H as (ordered_vals & _ & H).
  apply try_values_untouched in H as [Hd Ht]; [|done].
  simpl in Hd, Ht. split; [done|].
  intros o Ho. apply Ht in Ho. by apply elem_of_cons in Ho as [?|?].
Qed.

End Plain.

(** X13.  Without forward checking the search never writes to [domains]:
    when it returns, with or without a solution, the domains are the
    initial ones, and no pruning step has been taken. *)
Theorem plain_search_keeps_domains (perf_counter : nat -> Q)
    (courses : list Course) (domains_init : gmap string (list Value))
    (time_limit_ms : Z) (ok : bool) (st : State) :
  search_run perf_counter courses domains_init false time_limit_ms
    = Ok (ok, st) ->
  domains st = domains_init /\ forall o, EvPrune o ∉ trace st.
Proof.
  unfold search_run. intros H.
  apply recurse2_untouched in H as [Hd Ht]. simpl in Hd, Ht.
  split; [done|]. intros o Ho. apply Ht in Ho. by apply elem_of_nil in Ho.
Qed.

Lemma plain_search_keeps_domains_witness :
  exists st,
    search_run (fun _ => 0%Q)
      [mkCourse "A" "T1" ["G1"] 10; mkCourse "B" "T1" ["G2"] 10]
      (<["A" := [("t1", "r1"); ("t2", "r1")]]>
         (<["B" := [("t1", "r2")]]> ∅))
      false 1000 = Ok (true, st) /\
    domains st = <["A" := [("t1", "r1"); ("t2", "r1")]]>
                   (<["B" := [("t1", "r2")]]> ∅).
Proof.
  eexists. split; [vm_compute; reflexivity|].
  eapply (plain_search_keeps_domains (fun _ => 0%Q)
      [mkCourse "A" "T1" ["G1"] 10; mkCourse "B" "T1" ["G2"] 10]
      (<["A" := [("t1", "r1"); ("t2", "r1")]]>
         (<["B" := [("t1", "r2")]]> ∅))
      1000 true).
  vm_compute. reflexivity.
Defined.

(** ** What the forward check leaves in the domains *)

Lemma prune_values_wiped courses_by_id asg other dom :
  prune_values courses_by_id asg other dom = Ok [] ->
  forall v, v ∈ dom -> violates asg courses_by_id other v = Ok true.
Proof.
  induction dom as [|ov rest IH]; intros H v Hv.
  - by apply elem_of_nil in Hv.
  - simpl in H. inv_bind H. inv_bind H. destruct a; [|done].
    injection H as ->. apply elem_of_cons in Hv as [->|Hv]; [done|].
    by apply IH.
Qed.

(** X14.  Forward-checking mode, one candidate [val] assigned to [var],
    the unassigned list free of repetitions.  The domains of [var] and of
    the variables that are not unassigned are left as they are.  When the
    propagation does not fail, the domain of every other unassigned
    variable holds, in their old order, exactly its old values that
    [violates] accepts against the extended assignment, and none of these
    domains is empty.  When it fails, some unassigned variable has no
    acceptable value left. *)
Theorem forward_check_prunes (courses_by_id : gmap string Course)
    (var : string) (unassigned : list string) (val : Value) (st : State)
    (failure : bool) (saved : Dict.t (list Value)) (st2 : State) :
  NoDup unassigned ->
  assign_and_prune courses_by_id true var unassigned val st
    = Ok (failure, saved, st2) ->
  let asg := Dict.set var val (assignment st) in
  assignment st2 = asg /\
  (forall k, (k ∈ unassigned -> k = var) ->
     domains st2 !! k = domains st !! k) /\
  (failure = false ->
   forall o, o ∈ unassigned -> o <> var ->
     exists d nd,
       domains st !! o = Some d /\ domains st2 !! o = Some nd /\
       nd <> [] /\ sublist nd d /\
       forall v, v ∈ nd <->
                 v ∈ d /\ violates asg courses_by_id o v = Ok false) /\
  (failure = true ->
   exists o d,
     o ∈ unassigned /\ o <> var /\ domains st !! o = Some d /\
     forall v, v ∈ d -> violates asg courses_by_id o v = Ok true).
Proof.
  intros Hnd Ha asg. unfold assign_and_prune in Ha.
  pose proof (forward_check_frame _ _ _ _ _ _ _ _ Ha) as (Hasg & _).
  apply forward_check_result in Ha as (Hk & Hf & Ht); [|done].
  simpl in Hasg, Hk, Hf, Ht. split; [done|]. split; [done|]. split.
  - intros Hfalse o Ho Hov.
    destruct (Hf Hfalse o Ho Hov) as (d & nd & Hd & Hp & Hd2 & Hne).
    exists d, nd. split; [done|]. split; [done|]. split; [done|].
    split; [by apply prune_values_sublist in Hp|].
    by apply prune_values_elem.
  - intros Htrue. destruct (Ht Htrue) as (o & d & Ho & Hov & Hd & Hp).
    exists o, d. split; [done|]. split; [done|]. split; [done|].
    by apply prune_values_wiped.
Qed.

Lemma forward_check_prunes_witness :
  let cs : gmap string Course :=
    <["A" := mkCourse "A" "T1" ["G1"] 10]>
      (<["B" := mkCourse "B" "T1" ["G2"] 10]> ∅) in
  let st := initial_state
    (<["A" := [("t1", "r1")]]> (<["B" := [("t1", "r2"); ("t2", "r2")]]> ∅)) in
  exists saved st2,
    assign_and_prune cs true "A" ["A"; "B"] ("t1", "r1") st
      = Ok (false, saved, st2) /\
    assignment st2 = [("A", ("t1", "r1"))] /\
    domains st2 !! "B" = Some [("t2", "r2")].
Proof.
  intros cs st. eexists _, _.
  assert (Hnd : NoDup ["A"; "B"]).
  { apply NoDup_cons. split; [|apply NoDup_singleton].
    rewrite list_elem_of_singleton. discriminate. }
  split; [vm_compute; reflexivity|].
  split.
  - eapply (forward_check_prunes cs "A" ["A"; "B"] ("t1", "r1") st false
              _ _ Hnd). vm_compute. reflexivity.
  - reflexivity.
Defined.

(** ** Completeness: a timetable that exists is found *)

(** A timetable for an instance: one value for each course id, taken from
    the initial domain of the course, such that two courses in one timeslot
    have different teachers, no common group and different rooms. *)
Definition timetable (course_ids : list string)
    (courses_by_id : gmap string Course) (init : gmap string (list Value))
    (sol : Dict.t Value) : Prop :=
  Dict.keys sol ≡ₚ course_ids /\
  (forall k v, (k, v) ∈ sol -> exists d0, init !! k = Some d0 /\ v ∈ d0) /\
  (forall k1 ts room1 k2 room2 c1 c2,
     (k1, (ts, room1)) ∈ sol -> (k2, (ts, room2)) ∈ sol -> k1 <> k2 ->
     courses_by_id !! k1 = Some c1 -> courses_by_id !! k2 = Some c2 ->
     compatible c1 c2 room1 room2).

Lemma keys_elem {V : Type} (d : Dict.t V) (k : string) :
  k ∈ Dict.keys d <-> exists v, (k, v) ∈ d.
Proof.
  unfold Dict.keys. split.
  - intros H. apply list_elem_of_fmap in H as ([k' v] & -> & Hin).
    by exists v.
  - intros [v Hin]. apply list_elem_of_fmap. by exists (k, v).
Qed.

Section Completeness.

Variable perf_counter : nat -> Q.
Variable start : Q.
Variable time_limit_s : Q.
Variable course_ids : list string.
Variable courses_by_id : gmap string Course.
Variable forward_checking : bool.
Variable init : gmap string (list Value).
Variable sol : Dict.t Value.

Hypothesis no_timeout :
  forall k, expired_at perf_counter start time_limit_s k = false.
Hypothesis distinct_ids : NoDup course_ids.
Hypothesis records : forall k, k ∈ course_ids -> is_Some (courses_by_id !! k).
Hypothesis is_timetable : timetable course_ids courses_by_id init sol.

(** The state of a call below which the timetable [sol] can still be
    reached: the assignment is a part of [sol], and the domain of every
    variable not yet assigned still holds the value [sol] gives it.  The
    domains of the course ids have fewer values than the initial
    [best_size] of [select_mrv]. *)
Definition promising (st : State) : Prop :=
  NoDup (Dict.keys (assignment st)) /\
  (forall k v, (k, v) ∈ assignment st -> (k, v) ∈ sol) /\
  (forall k v, (k, v) ∈ sol -> Dict.mem k (assignment st) = false ->
     exists d, domains st !! k = Some d /\ v ∈ d) /\
  (forall k d, domains st !! k = Some d -> k ∈ course_ids ->
     (Z.of_nat (length d) < 10 ^ 9)%Z).

Lemma promising_same st st' :
  assignment st' = assignment st -> domains st' = domains st ->
  promising st -> promising st'.
Proof. unfold promising. by intros -> ->. Qed.

Lemma sol_key k v : (k, v) ∈ sol -> k ∈ course_ids.
Proof.
  intros Hin. destruct is_timetable as (Hperm & _).
  rewrite <- Hperm. apply keys_elem. by exists v.
Qed.

Lemma sol_value k : k ∈ course_ids -> exists v, (k, v) ∈ sol.
Proof.
  intros Hin. destruct is_timetable as (Hperm & _).
  rewrite <- Hperm in Hin. by apply keys_elem.
Qed.

(** [violates] accepts the value that [sol] gives a course against any
    part of [sol]. *)
Lemma timetable_accepts a k v :
  (forall k' v', (k', v') ∈ a -> (k', v') ∈ sol) ->
  (k, v) ∈ sol -> Dict.mem k a = false ->
  violates a courses_by_id k v = Ok false.
Proof.
  intros Ha Hk Hmem.
  destruct (records k (sol_key _ _ Hk)) as [c Hc].
  assert (Hknown : known courses_by_id a).
  { intros k' v' Hin. apply records. apply (sol_key k' v'). by apply Ha. }
  rewrite (violates_violatesb _ _ _ c) by done. f_equal.
  destruct v as [ts room].
  destruct (violatesb a courses_by_id c (ts, room)) eqn:Hv; [|done].
  exfalso. apply violatesb_spec in Hv
    as (other_id & ots & oroom & other & Hin & Ho & -> & Hconf).
  assert (Hne : k <> other_id).
  { intros <-. apply mem_false_keys in Hmem. apply Hmem.
    apply keys_elem. by eexists. }
  destruct is_timetable as (_ & _ & Hcompat).
  destruct (Hcompat k ts room other_id oroom c other Hk (Ha _ _ Hin) Hne
              Hc Ho) as (Ht & Hg & Hr).
  destruct Hconf as [Heq|[(g & Hg1 & Hg2)|Heq]].
  - by apply Ht.
  - by apply (Hg g).
  - by apply Hr.
Qed.

(** Assigning the value of [sol] keeps the state promising, and the
    forward check cannot fail on it. *)
Lemma assign_keeps_promising var unassigned val st failure saved st2 :
  NoDup unassigned ->
  (forall o, o ∈ unassigned ->
     o ∈ course_ids /\ Dict.mem o (assignment st) = false) ->
  promising st ->
  (var, val) ∈ sol ->
  Dict.mem var (assignment st) = false ->
  assign_and_prune courses_by_id forward_checking var unassigned val st
    = Ok (failure, saved, st2) ->
  failure = false /\ promising st2.
Proof.
  intros Hnd Hun (I1 & I2 & I3 & I4) Hsol Hmem Ha.
  set (asg := assignment st ++ [(var, val)]).
  assert (Hasg_sol : forall k v, (k, v) ∈ asg -> (k, v) ∈ sol).
  { intros k v Hin. apply elem_of_app in Hin as [Hin|Hin]; [by apply I2|].
    by apply list_elem_of_singleton in Hin as ->. }
  assert (Hasg_nd : NoDup (Dict.keys asg)).
  { unfold asg, Dict.keys. rewrite map_app. apply NoDup_app.
    split; [done|]. split; [|apply NoDup_singleton].
    intros x Hx Hx'. apply list_elem_of_singleton in Hx' as ->.
    by apply mem_false_keys in Hmem. }
  assert (Hasg_mem : forall k, Dict.mem k asg = false ->
            Dict.mem k (assignment st) = false /\ k <> var).
  { intros k. unfold asg. rewrite mem_snoc, orb_false_iff, String.eqb_neq.
    intros [? ?]. split; [done|]. congruence. }
  unfold assign_and_prune in Ha. rewrite set_fresh in Ha by done.
  fold asg in Ha. destruct forward_checking.
  - pose proof (forward_check_frame _ _ _ _ _ _ _ _ Ha) as (Hasg & _).
    simpl in Hasg.
    assert (I4' : forall k d, domains st2 !! k = Some d -> k ∈ course_ids ->
              (Z.of_nat (length d) < 10 ^ 9)%Z).
    { pose proof Ha as Ha'.
      eapply (forward_check_pres _
                (fun k d => k ∈ course_ids ->
                            (Z.of_nat (length d) < 10 ^ 9)%Z))
        in Ha' as [Hd _]; [exact Hd|..].
      - intros k d d' Hd Hsub Hk. apply sublist_length in Hsub.
        specialize (Hd Hk). lia.
      - exact I4.
      - intros k d Hin. by apply elem_of_nil in Hin. }
    apply forward_check_result in Ha as (Hk & Hf & Ht); [|done].
    simpl in Hk, Hf, Ht.
    assert (Hkeep : forall o d, o ∈ unassigned -> o <> var ->
              domains st !! o = Some d ->
              forall nd, prune_values courses_by_id asg o d = Ok nd ->
              forall v, (o, v) ∈ sol -> v ∈ nd).
    { intros o d Ho Hov Hd nd Hp v Hv.
      apply (prune_values_elem _ _ _ _ _ Hp). split.
      - destruct (I3 o v Hv) as (d' & Hd' & Hin); [by apply Hun|].
        congruence.
      - apply timetable_accepts; try done.
        unfold asg. rewrite mem_snoc, orb_false_iff, String.eqb_neq.
        split; [by apply Hun | congruence]. }
    assert (Hfail : failure = false).
    { destruct failure; [|done]. exfalso.
      destruct (Ht eq_refl) as (o & d & Ho & Hov & Hd & Hp).
      destruct (sol_value o) as [v Hv]; [by apply Hun|].
      pose proof (Hkeep o d Ho Hov Hd [] Hp v Hv) as Hin.
      by apply elem_of_nil in Hin. }
    split; [done|]. unfold promising. rewrite Hasg.
    split; [done|]. split; [done|]. split; [|done].
    intros k v Hv Hm. apply Hasg_mem in Hm as [Hm Hkv].
    destruct (decide (k ∈ unassigned)) as [Hin|Hnin].
    + destruct (Hf Hfail k Hin Hkv) as (d & nd & Hd & Hp & Hd2 & _).
      exists nd. split; [done|]. by apply (Hkeep k d).
    + rewrite Hk by done. by apply I3.
  - injection Ha as <- _ <-. split; [done|]. unfold promising. simpl.
    split; [done|]. split; [done|]. split; [|done].
    intros k v Hv Hm. apply Hasg_mem in Hm as [Hm _]. by apply I3.
Qed.

Lemma try_values_finds rec var unassigned vals st r :
  (forall s r', promising s -> rec s = Ok r' -> fst r' = true) ->
  (forall s r', rec s = Ok r' -> restores s r') ->
  NoDup unassigned ->
  (forall o, o ∈ unassigned ->
     o ∈ course_ids /\ Dict.mem o (assignment st) = false) ->
  var ∈ unassigned ->
  promising st ->
  (exists v, v ∈ vals /\ (var, v) ∈ sol) ->
  try_values courses_by_id forward_checking rec var unassigned vals st
    = Ok r ->
  fst r = true.
Proof.
  intros Hrec Hrest Hnd. revert st.
  induction vals as [|val rest IH]; intros st Hun Hvar Hp (v & Hv & Hsol) H.
  - by apply elem_of_nil in Hv.
  - destruct (Hun var Hvar) as [_ Hmem].
    apply try_values_cons in H as (viol & Hviol & H). simpl in H.
    set (st1 := log (EvTry var val) (incr_tries st)) in *.
    assert (Hp1 : promising st1) by (by apply (promising_same st)).
    destruct (decide (val = v)) as [->|Hne].
    + rewrite timetable_accepts in Hviol; [|by destruct Hp as (_ & ? & _)
                                            |done..].
      injection Hviol as <-.
      destruct H as (failure & saved & st2 & ok & st3 & Ha & Hr & H).
      apply assign_keeps_promising in Ha as [-> Hp2]; try done.
      apply Hrec in Hr; [|done]. simpl in Hr. subst ok. by subst r.
    + assert (Hrest_v : exists v, v ∈ rest /\ (var, v) ∈ sol).
      { exists v. split; [|done].
        apply elem_of_cons in Hv as [->|Hv]; done. }
      destruct viol; [by apply (IH st1)|].
      destruct H as (failure & saved & st2 & ok & st3 & Ha & Hr & H).
      destruct ok; [by subst r|].
      apply assign_and_prune_restore in Ha as [Hd Hasg]; [|done].
      simpl in Hd, Hasg. rewrite set_fresh in Hasg by done.
      assert (H3 : restores st2 (false, st3)).
      { destruct failure; [|by apply Hrest]. by injection Hr as <-. }
      destruct H3 as [Hd3 Ha3]; [done|]. simpl in Hd3, Ha3.
      assert (Hundo : assignment (undo var saved st3) = assignment st /\
                      domains (undo var saved st3) = domains st).
      { simpl. rewrite Hd3, Hd, Ha3, Hasg. by rewrite pop_snoc. }
      destruct Hundo as [Hua Hud].
      apply IH in H; try done.
      * by rewrite Hua.
      * by apply (promising_same st).
Qed.

Lemma promising_unassigned st :
  promising st ->
  length (assignment st) <> length course_ids ->
  exists k, k ∈ unassigned_of course_ids st.
Proof.
  intros (I1 & I2 & _) Hlen.
  destruct (unassigned_of course_ids st) as [|k l] eqn:Hun;
    [|exists k; by left].
  exfalso. apply Hlen.
  assert (Hperm : Dict.keys (assignment st) ≡ₚ course_ids).
  { apply NoDup_Permutation; try done. intros k. split.
    - intros Hk. apply keys_elem in Hk as [v Hk].
      apply (sol_key k v). by apply I2.
    - intros Hk. apply mem_true_keys.
      destruct (Dict.mem k (assignment st)) eqn:Hm; [done|]. exfalso.
      assert (Hin : k ∈ unassigned_of course_ids st)
        by (by apply unassigned_of_elem).
      rewrite Hun in Hin. by apply elem_of_nil in Hin. }
  rewrite <- Hperm. unfold Dict.keys. by rewrite length_map.
Qed.

Lemma recurse2_finds fuel st r :
  promising st ->
  recurse2 perf_counter start time_limit_s course_ids courses_by_id
    forward_checking fuel st = Ok r ->
  fst r = true.
Proof.
  revert st r. induction fuel as [|fuel IH]; intros st r Hp H; [done|].
  apply recurse2_S in H. rewrite no_timeout in H. simpl in H.
  destruct (_ =? _)%nat eqn:Hlen; [by subst r|].
  apply Nat.eqb_neq in Hlen.
  destruct (promising_unassigned st Hp Hlen) as [k0 Hk0].
  assert (Hcov : forall v, v ∈ unassigned_of course_ids st ->
            exists val d, (v, val) ∈ sol /\ domains st !! v = Some d /\
                          val ∈ d).
  { intros v Hv. apply unassigned_of_elem in Hv as [Hv Hm].
    destruct (sol_value v Hv) as [val Hval].
    destruct Hp as (_ & _ & I3 & _).
    destruct (I3 v val Hval Hm) as (d & Hd & Hin). by exists val, d. }
  destruct H as (best & Hbest & H).
  destruct best as [var|].
  - destruct H as (ordered_vals & Hord & H).
    apply select_mrv_elem in Hbest as [Hin _].
    apply lcv_order_perm in Hord as (vals & Hvals & Hperm).
    destruct (Hcov var Hin) as (val & d & Hval & Hd & Hvd).
    assert (d = vals) as -> by congruence.
    refine (try_values_finds _ var _ _ _ _ IH _ _ _ Hin _ _ H).
    + intros s r'. by apply recurse2_restores.
    + by apply unassigned_of_NoDup.
    + intros o Ho. by apply unassigned_of_elem in Ho.
    + by apply (promising_same st).
    + exists val. split; [by rewrite Hperm | done].
  - exfalso.
    destruct (select_mrv_loop_spec (domains st) (unassigned_of course_ids st)
                None best_size_init) as (r' & Hr' & Hspec).
    { intros v Hv. destruct (Hcov v Hv) as (val & d & _ & Hd & _).
      by eexists. }
    unfold select_mrv in Hbest. rewrite Hr' in Hbest.
    injection Hbest as ->.
    destruct Hspec as [[_ Hall]|(i & w & dw & Hw & _)]; [|done].
    destruct (Hcov k0 Hk0) as (val & d & _ & Hd & _).
    specialize (Hall k0 d Hk0 Hd).
    destruct Hp as (_ & _ & _ & I4).
    apply unassigned_of_elem in Hk0 as [Hk0 _].
    specialize (I4 k0 d Hd Hk0). unfold best_size_init in Hall. lia.
Qed.

End Completeness.

Lemma initial_promising course_ids init sol courses_by_id :
  timetable course_ids courses_by_id init sol ->
  (forall k d, init !! k = Some d -> k ∈ course_ids ->
     (Z.of_nat (length d) < 10 ^ 9)%Z) ->
  promising course_ids sol (initial_state init).
Proof.
  intros (Hperm & Hinit & _) Hsmall. unfold promising. simpl.
  split; [constructor|]. split.
  { intros k v Hin. by apply elem_of_nil in Hin. }
  split; [|done]. intros k v Hin _. by apply Hinit.
Qed.

Lemma index_courses_records courses k :
  k ∈ map id courses -> is_Some (index_courses courses !! k).
Proof.
  intros Hk. apply list_elem_of_fmap in Hk as (c & -> & Hc).
  by apply index_courses_is_Some.
Qed.

(** X15.  The search is complete.  Take courses with pairwise distinct
    ids, initial domains of fewer than 10^9 values, and a run in which no
    deadline check finds the budget exceeded.  If the instance has a
    timetable at all, a conflict-free choice of one value per course from
    the initial domains, then [backtrack_search] returns with [found] true,
    in plain mode and in forward-checking mode: neither the pruning nor the
    order in which MRV and LCV explore can lose every timetable.  This
    holds within the limits of the interpreter: a time limit below
    2^1024 - 2^970 in magnitude, and room for one nested call of
    [recurse2] per course and one more. *)
Theorem search_complete (depth : nat) (perf_counter : nat -> Q)
    (courses : list Course) (domains_init : gmap string (list Value))
    (forward_checking : bool) (time_limit_ms : Z) (sol : Dict.t Value) :
  NoDup (map id courses) ->
  (forall k d, domains_init !! k = Some d -> k ∈ map id courses ->
     (Z.of_nat (length d) < 10 ^ 9)%Z) ->
  (forall n, expired_at perf_counter (perf_counter 0%nat)
               (inject_Z time_limit_ms / 1000)%Q n = false) ->
  timetable (map id courses) (index_courses courses) domains_init sol ->
  (Z.abs time_limit_ms < 2 ^ 1024 - 2 ^ 970)%Z ->
  (length courses < depth)%nat ->
  exists r,
    backtrack_search_bounded depth perf_counter courses domains_init
      forward_checking time_limit_ms = Returned r /\
    found r = true.
Proof.
  intros Hnd Hsmall Hno Htt Hlim Hdepth.
  destruct (backtrack_search_bounded_total depth perf_counter courses
              domains_init forward_checking time_limit_ms) as [r Hr];
    [|by apply overflows_false|done|].
  { intros c Hc. destruct Htt as (Hperm & Hinit & _).
    assert (Hk : id c ∈ Dict.keys sol).
    { rewrite Hperm. apply list_elem_of_fmap. by exists c. }
    apply keys_elem in Hk as [v Hv].
    destruct (Hinit _ _ Hv) as (d0 & Hd0 & _). by eexists. }
  exists r. split; [done|].
  apply backtrack_search_bounded_Returned in Hr as (_ & st & Hr & _).
  apply (recurse2_finds _ _ _ _ _ _ domains_init sol Hno Hnd
           (index_courses_records courses) Htt) in Hr; [done|].
  by eapply initial_promising.
Qed.

Lemma search_complete_witness :
  exists r,
    backtrack_search_bounded 3 (fun _ => 0%Q)
      [mkCourse "A" "T1" ["G1"] 10; mkCourse "B" "T1" ["G2"] 10]
      (<["A" := [("t1", "r1"); ("t2", "r1")]]>
         (<["B" := [("t1", "r2")]]> ∅))
      true 1000 = Returned r /\
    found r = true.
Proof.
  apply (search_complete 3 (fun _ => 0%Q)
      [mkCourse "A" "T1" ["G1"] 10; mkCourse "B" "T1" ["G2"] 10]
      (<["A" := [("t1", "r1"); ("t2", "r1")]]>
         (<["B" := [("t1", "r2")]]> ∅))
      true 1000 [("A", ("t2", "r1")); ("B", ("t1", "r2"))]).
  - apply NoDup_cons. split; [|apply NoDup_singleton].
    rewrite list_elem_of_singleton. discriminate.
  - intros k d Hd Hk.
    repeat (apply elem_of_cons in Hk as [->|Hk]);
      [vm_compute in Hd; injection Hd as <-; by vm_compute..|].
    by apply elem_of_nil in Hk.
  - intros n. by vm_compute.
  - split; [done|]. split.
    + intros k v Hin.
      repeat (apply elem_of_cons in Hin as [[= -> ->]|Hin]).
      * eexists. split; [reflexivity|]. right. by left.
      * eexists. split; [reflexivity|]. by left.
      * by apply elem_of_nil in Hin.
    + intros k1 ts room1 k2 room2 c1 c2 H1 H2 Hne.
      repeat (apply elem_of_cons in H1 as [[= -> -> ->]|H1]);
        repeat (apply elem_of_cons in H2 as [[= -> ->]|H2]);
        try done; try (by apply elem_of_nil in H1);
        try (by apply elem_of_nil in H2).
  - by vm_compute.
  - simpl. lia.
Defined.

(** A reported solution is a timetable. *)
Lemma solution_timetable perf_counter courses domains_init forward_checking
    time_limit_ms r :
  backtrack_search perf_counter courses domains_init forward_checking
    time_limit_ms = Ok r ->
  found r = true ->
  timetable (map id courses) (index_courses courses) domains_init
    (solution r).
Proof.
  intros H Hfound.
  apply backtrack_search_Ok in H as (st & H & _ & _ & Hsol).
  rewrite Hfound in H. rewrite Hsol.
  pose proof (recurse2_true_length _ _ _ _ _ _ _ _ _ H) as Hlen.
  apply (recurse2_placed _ _ _ _ _ _ domains_init) in H as (Hp & _ & _);
    [|constructor|intros k d Hd; exists d; by split].
  simpl in Hp.
  destruct (placed_keys _ _ _ _ Hp) as [Hnd Hsub].
  split; [|split].
  - apply submseteq_length_Permutation.
    + by apply NoDup_submseteq.
    + unfold Dict.keys. rewrite !length_map. rewrite length_map in Hlen. lia.
  - intros k v Hin. by apply (placed_from_init _ _ _ _ _ _ Hp Hin).
  - intros k1 ts room1 k2 room2 c1 c2 H1 H2 Hne Hc1 Hc2.
    by apply (placed_pairwise _ _ _ _ _ _ _ _ _ _ _ Hp H1 H2).
Qed.

(** X16.  The two modes agree on whether there is a solution.  For
    courses with pairwise distinct ids, initial domains of fewer than 10^9
    values and runs without a timeout, plain mode reports [found] true
    exactly when forward-checking mode does. *)
Theorem modes_agree_on_found (perf_counter : nat -> Q)
    (courses : list Course) (domains_init : gmap string (list Value))
    (time_limit_ms : Z) (rp rf : SearchResult) :
  NoDup (map id courses) ->
  (forall k d, domains_init !! k = Some d -> k ∈ map id courses ->
     (Z.of_nat (length d) < 10 ^ 9)%Z) ->
  (forall n, expired_at perf_counter (perf_counter 0%nat)
               (inject_Z time_limit_ms / 1000)%Q n = false) ->
  backtrack_search perf_counter courses domains_init false time_limit_ms
    = Ok rp ->
  backtrack_search perf_counter courses domains_init true time_limit_ms
    = Ok rf ->
  found rp = found rf.
Proof.
  intros Hnd Hsmall Hno Hp Hf.
  assert (Hfinds : forall fc fc' r r',
    backtrack_search perf_counter courses domains_init fc time_limit_ms
      = Ok r ->
    backtrack_search perf_counter courses domains_init fc' time_limit_ms
      = Ok r' ->
    found r = true -> found r' = true).
  { intros fc fc' r r' Hr Hr' Hfound.
    pose proof (solution_timetable _ _ _ _ _ _ Hr Hfound) as Htt.
    apply backtrack_search_Ok in Hr' as (st & Hr' & _).
    apply (recurse2_finds _ _ _ _ _ _ domains_init (solution r) Hno Hnd
             (index_courses_records courses) Htt) in Hr'; [done|].
    by eapply initial_promising. }
  destruct (found rp) eqn:Hfp, (found rf) eqn:Hff; try done.
  - rewrite (Hfinds false true rp rf) in Hff; done.
  - rewrite (Hfinds true false rf rp) in Hfp; done.
Qed.

Lemma modes_agree_on_found_witness :
  exists rp rf,
    backtrack_search (fun _ => 0%Q)
      [mkCourse "A" "T1" ["G1"] 10; mkCourse "B" "T1" ["G2"] 10]
      (<["A" := [("t1", "r1")]]> (<["B" := [("t1", "r2")]]> ∅))
      false 1000 = Ok rp /\
    backtrack_search (fun _ => 0%Q)
      [mkCourse "A" "T1" ["G1"] 10; mkCourse "B" "T1" ["G2"] 10]
      (<["A" := [("t1", "r1")]]> (<["B" := [("t1", "r2")]]> ∅))
      true 1000 = Ok rf /\
    found rp = found rf.
Proof.
  eexists _, _. split; [vm_compute; reflexivity|].
  split; [vm_compute; reflexivity|].
  apply (modes_agree_on_found (fun _ => 0%Q)
      [mkCourse "A" "T1" ["G1"] 10; mkCourse "B" "T1" ["G2"] 10]
      (<["A" := [("t1", "r1")]]> (<["B" := [("t1", "r2")]]> ∅)) 1000).
  - apply NoDup_cons. split; [|apply NoDup_singleton].
    rewrite list_elem_of_singleton. discriminate.
  - intros k d Hd Hk.
    repeat (apply elem_of_cons in Hk as [->|Hk]);
      [vm_compute in Hd; injection Hd as <-; by vm_compute..|].
    by apply elem_of_nil in Hk.
  - intros n. by vm_compute.
  - vm_compute. reflexivity.
  - vm_compute. reflexivity.
Defined.

(** ** What the forward check saves, and where it stops *)

Lemma forward_check_visits courses_by_id var unassigned saved st failure
    saved' st' :
  NoDup unassigned ->
  (forall o, o ∈ unassigned -> o ∉ Dict.keys saved) ->
  forward_check courses_by_id var unassigned saved st
    = Ok (failure, saved', st') ->
  exists visited rest new,
    List.filter (fun o => negb (String.eqb o var)) unassigned
      = visited ++ rest /\
    saved' = saved ++ new /\
    Dict.keys new = visited /\
    (forall o d, (o, d) ∈ new -> domains st !! o = Some d) /\
    (forall o, o ∈ rest -> domains st' !! o = domains st !! o) /\
    if failure
    then exists pre o, visited = pre ++ [o] /\ domains st' !! o = Some []
    else rest = [].
Proof.
  intros Hnd. revert saved st.
  induction unassigned as [|other tl IH]; intros saved st Hfresh; simpl.
  - intros [= <- <- <-]. exists [], [], [].
    split; [done|]. split; [by rewrite app_nil_r|]. split; [done|].
    split; [|done].
    intros o d Hin. by apply elem_of_nil in Hin.
  - apply NoDup_cons in Hnd as [Hother Hnd]. specialize (IH Hnd).
    assert (Hfresh_tl : forall o, o ∈ tl -> o ∉ Dict.keys saved).
    { intros o Ho. apply Hfresh. by right. }
    destruct (String.eqb other var) eqn:Hov; simpl; [by apply IH|].
    intros H. inv_bind H. apply getitem_Ok in Ha. inv_bind H.
    rename a into dom, a0 into newdom.
    assert (Hset : Dict.set other dom saved = saved ++ [(other, dom)]).
    { apply set_fresh, mem_false_keys, Hfresh. by left. }
    assert (Hin_tl : forall o, o ∈ List.filter
              (fun o => negb (String.eqb o var)) tl -> o <> other).
    { intros o Ho ->. apply list_elem_of_In, filter_In in Ho as [Ho _].
      by apply list_elem_of_In in Ho. }
    destruct (length newdom =? 0)%nat eqn:Hlen.
    + injection H as <- <- <-. rewrite Hset.
      exists [other], (List.filter (fun o => negb (String.eqb o var)) tl),
        [(other, dom)].
      split; [done|]. split; [done|]. split; [done|]. split; [|split].
      * intros o d Hin. by apply list_elem_of_singleton in Hin as [= -> ->].
      * intros o Ho. simpl. rewrite lookup_insert_ne; [done|].
        intros <-. by apply (Hin_tl other).
      * exists [], other. split; [done|]. simpl. rewrite lookup_insert_eq.
        apply Nat.eqb_eq, nil_length_inv in Hlen. by subst.
    + apply IH in H
        as (visited & rest & new & Hf & -> & Hkeys & Hnew & Hrest & Hfail).
      2: { intros o Ho Hin. rewrite Hset in Hin. unfold Dict.keys in Hin.
           rewrite map_app in Hin. apply elem_of_app in Hin as [Hin|Hin].
           - by apply (Hfresh_tl o).
           - apply list_elem_of_singleton in Hin. simpl in Hin. by subst. }
      assert (Hvis : forall o, o ∈ visited -> o <> other).
      { intros o Ho. apply Hin_tl. rewrite Hf. apply elem_of_app. by left. }
      exists (other :: visited), rest, ((other, dom) :: new).
      split; [by rewrite Hf|]. split; [by rewrite Hset, <- app_assoc|].
      split; [unfold Dict.keys in *; simpl; by rewrite Hkeys|].
      split; [|split].
      * intros o d Hin. apply elem_of_cons in Hin as [[= -> ->]|Hin]; [done|].
        pose proof (Hnew o d Hin) as Hd. simpl in Hd.
        rewrite lookup_insert_ne in Hd; [done|]. intros <-.
        apply (Hvis other); [|done]. rewrite <- Hkeys.
        apply list_elem_of_fmap. by exists (other, d).
      * intros o Ho. rewrite (Hrest o Ho). simpl.
        rewrite lookup_insert_ne; [done|]. intros <-.
        apply (Hin_tl other); [|done]. rewrite Hf. apply elem_of_app.
        by right.
      * destruct failure; [|done]. destruct Hfail as (pre & o & -> & Ho).
        by exists (other :: pre), o.
Qed.

(** X17.  Forward-checking mode, one candidate assigned to [var], the
    unassigned list free of repetitions.  The check visits the other
    unassigned variables in the order of the list.  [saved] holds one entry
    for each variable visited, in that order, with the domain the variable
    had before the check.  When the check fails, it stops at the variable
    whose domain it has just emptied: the variables after that one are
    neither saved nor pruned.  When it does not fail, it has visited them
    all. *)
Theorem forward_check_saved (courses_by_id : gmap string Course)
    (var : string) (unassigned : list string) (val : Value) (st : State)
    (failure : bool) (saved : Dict.t (list Value)) (st2 : State) :
  NoDup unassigned ->
  assign_and_prune courses_by_id true var unassigned val st
    = Ok (failure, saved, st2) ->
  exists visited rest,
    List.filter (fun o => negb (String.eqb o var)) unassigned
      = visited ++ rest /\
    Dict.keys saved = visited /\
    (forall o d, (o, d) ∈ saved -> domains st !! o = Some d) /\
    (forall o, o ∈ rest -> domains st2 !! o = domains st !! o) /\
    if failure
    then exists pre o, visited = pre ++ [o] /\ domains st2 !! o = Some []
    else rest = [].
Proof.
  intros Hnd Ha. unfold assign_and_prune in Ha.
  apply forward_check_visits in Ha
    as (visited & rest & new & Hf & -> & Hkeys & Hnew & Hrest & Hfail);
    [|done|].
  - exists visited, rest. by repeat split.
  - intros o _ Hin. by apply elem_of_nil in Hin.
Qed.

Lemma forward_check_saved_witness :
  let cs : gmap string Course :=
    <["A" := mkCourse "A" "T1" ["G1"] 10]>
      (<["B" := mkCourse "B" "T1" ["G2"] 10]>
         (<["C" := mkCourse "C" "T3" ["G3"] 10]> ∅)) in
  let st := initial_state
    (<["A" := [("t1", "r1")]]>
       (<["B" := [("t1", "r2")]]> (<["C" := [("t1", "r1")]]> ∅))) in
  exists saved st2,
    assign_and_prune cs true "A" ["A"; "B"; "C"] ("t1", "r1") st
      = Ok (true, saved, st2) /\
    exists visited rest,
      ["B"; "C"] = visited ++ rest /\ Dict.keys saved = visited /\
      exists pre o, visited = pre ++ [o] /\ domains st2 !! o = Some [].
Proof.
  intros cs st. eexists _, _.
  assert (Hnd : NoDup ["A"; "B"; "C"]).
  { repeat (apply NoDup_cons; split;
            [rewrite ?not_elem_of_cons; repeat split; try discriminate;
             apply not_elem_of_nil|]).
    apply NoDup_nil_2. }
  assert (Ha : assign_and_prune cs true "A" ["A"; "B"; "C"] ("t1", "r1") st
               = Ok (true, [("B", [("t1", "r2")])],
                     log (EvPrune "B")
                       (set_domains (<["B" := []]> (domains st))
                          (set_assignment [("A", ("t1", "r1"))] st))))
    by (vm_compute; reflexivity).
  split; [exact Ha|].
  destruct (forward_check_saved cs "A" ["A"; "B"; "C"] ("t1", "r1") st true
              _ _ Hnd Ha) as (visited & rest & Hf & Hk & _ & _ & Hfail).
  by exists visited, rest.
Defined.

(** ** courses_by_id *)

(** X18.  [courses_by_id] maps an id to the last course of the list that
    has this id: an earlier course with the same id is not seen by
    [violates] and [lcv_order]. *)
Theorem index_courses_last_wins (pre post : list Course) (c : Course) :
  id c ∉ map id post ->
  index_courses (pre ++ c :: post) !! id c = Some c.
Proof.
  unfold index_courses. intros Hpost. rewrite foldl_app. simpl.
  assert (H : forall m' : gmap string Course, m' !! id c = Some c ->
            foldl (fun m c0 => <[id c0 := c0]> m) m' post !! id c = Some c).
  { induction post as [|p post IH]; intros m' Hm; simpl; [done|].
    apply not_elem_of_cons in Hpost as [Hne Hpost]. apply IH; [done|].
    by rewrite lookup_insert_ne. }
  apply H. by rewrite lookup_insert_eq.
Qed.

Lemma index_courses_last_wins_witness :
  index_courses
    [mkCourse "A" "T1" ["G1"] 10; mkCourse "A" "T2" ["G2"] 20;
     mkCourse "B" "T3" ["G3"] 30] !! "A"
  = Some (mkCourse "A" "T2" ["G2"] 20).
Proof.
  apply (index_courses_last_wins [mkCourse "A" "T1" ["G1"] 10]
           [mkCourse "B" "T3" ["G3"] 30] (mkCourse "A" "T2" ["G2"] 20)).
  simpl. rewrite list_elem_of_singleton. discriminate.
Defined.

(** ** A course without a domain, and no course at all *)





(** ** The search under the limits refines the search without limits *)

Section Enough.

Variable perf_counter : nat -> Q.
Variable start : Q.
Variable time_limit_s : Q.
Variable course_ids : list string.
Variable courses_by_id : gmap string Course.
Variable forward_checking : bool.

Lemma try_values_enough rec rec' fuel var unassigned vals st r :
  (forall s r', rec s = Ok r' ->
     (length (unassigned_of course_ids s) < fuel)%nat -> rec' s = Ok r') ->
  (forall s r', rec s = Ok r' -> fst r' = false ->
     assignment (snd r') = assignment s) ->
  var ∈ course_ids ->
  Dict.mem var (assignment st) = false ->
  (length (unassigned_of course_ids st) <= fuel)%nat ->
  try_values courses_by_id forward_checking rec var unassigned vals st
    = Ok r ->
  try_values courses_by_id forward_checking rec' var unassigned vals st
    = Ok r.
Proof.
  intros Hrec Hback Hvar. revert st.
  induction vals as [|val rest IH]; intros st Hmem Hfuel H; [done|].
  apply try_values_cons in H as (viol & Hviol & H). simpl in H.
  simpl. rewrite Hviol. simpl.
  destruct viol; [by apply IH|].
  destruct H as (failure & saved & st2 & ok & st3 & Ha & Hr & H).
  set (st1 := log (EvTry var val) (incr_tries st)) in *.
  rewrite Ha. simpl.
  pose proof (assign_and_prune_counters _ _ _ _ _ _ _ _ _ Ha)
    as (Hasg & _ & _).
  simpl in Hasg. rewrite set_fresh in Hasg by done.
  assert (Hr' : (if failure then Ok (false, st2) else rec' st2)
                = Ok (ok, st3)).
  { destruct failure; [done|]. apply Hrec; [done|].
    pose proof (unassigned_shrinks course_ids st st2 var val Hvar Hmem
                  Hasg). lia. }
  rewrite Hr'. simpl. destruct ok; [by subst r|].
  assert (H3 : assignment st3 = assignment st2).
  { destruct failure; [by injection Hr as <-|].
    by apply (Hback st2 (false, st3)). }
  assert (Hua : assignment (undo var saved st3) = assignment st).
  { simpl. rewrite H3, Hasg. by apply pop_snoc. }
  apply IH; [by rewrite Hua| |done].
  unfold unassigned_of in *. by rewrite Hua.
Qed.

(** A call that returns with some fuel returns the same with any fuel above
    the number of unassigned variables: the recursion nests one call per
    variable it assigns. *)
Lemma recurse2_enough fuel fuel' st r :
  recurse2 perf_counter start time_limit_s course_ids courses_by_id
    forward_checking fuel st = Ok r ->
  (length (unassigned_of course_ids st) < fuel')%nat ->
  recurse2 perf_counter start time_limit_s course_ids courses_by_id
    forward_checking fuel' st = Ok r.
Proof.
  revert fuel st r.
  induction fuel' as [|fuel' IH]; intros fuel st r H Hlt; [lia|].
  destruct fuel as [|fuel]; [done|].
  rewrite recurse2_unfold in H. rewrite recurse2_unfold. cbv zeta in *.
  destruct (expired_at _ _ _ _); [done|].
  destruct (_ =? _)%nat; [done|].
  destruct (select_mrv _ _) as [best| |] eqn:Hbest; [|done..].
  cbn [mbind res_bind] in *.
  destruct best as [var|]; [|done].
  destruct (lcv_order _ _ _ _) as [ordered_vals| |]; [|done..].
  cbn [mbind res_bind] in *.
  destruct ordered_vals as [|v vs]; [done|].
  apply select_mrv_elem in Hbest as [Hin _].
  apply unassigned_of_elem in Hin as [Hvar Hmem].
  refine (try_values_enough _ _ fuel' var _ _
            (log (EvDeadline false) (tick st)) _ _ _ Hvar Hmem _ H).
  - intros s r' Hs Hl. by apply (IH fuel).
  - intros s r' Hs Hf.
    apply recurse2_counted in Hs as (_ & _ & Hb & _). by apply Hb.
  - unfold unassigned_of in *. simpl. lia.
Qed.

End Enough.

Lemma initial_unassigned (courses : list Course)
    (domains_init : gmap string (list Value)) :
  (length (unassigned_of (map id courses) (initial_state domains_init))
   <= length courses)%nat.
Proof.
  unfold unassigned_of. simpl.
  pose proof (List.filter_length_le
    (fun v => negb (Dict.mem v (@nil (string * Value)))) (map id courses))
    as Hle.
  rewrite length_map in Hle. exact Hle.
Qed.

(** Every record that [backtrack_search] returns under the limits of the
    interpreter is the record of [backtrack_search] without limits: what is
    proved of the records of the latter holds of the records of the
    former. *)
Lemma bounded_refines depth perf_counter courses domains_init
    forward_checking time_limit_ms r :
  backtrack_search_bounded depth perf_counter courses domains_init
    forward_checking time_limit_ms = Returned r ->
  backtrack_search perf_counter courses domains_init forward_checking
    time_limit_ms = Ok r.
Proof.
  unfold backtrack_search_bounded, backtrack_search.
  destruct (overflows time_limit_ms); [done|].
  change (mkState [] domains_init 0 0 1 []) with (initial_state domains_init).
  destruct (recurse2 _ _ _ _ _ _ depth _) as [[ok st]| |] eqn:Hr; [|done..].
  intros [= <-].
  apply recurse2_enough with (fuel' := S (length (map id courses))) in Hr.
  - by rewrite Hr.
  - pose proof (initial_unassigned courses domains_init).
    rewrite length_map. lia.
Qed.

(** Conversely, within the limits the record of [backtrack_search] is
    returned. *)
Lemma bounded_returns depth perf_counter courses domains_init
    forward_checking time_limit_ms r :
  backtrack_search perf_counter courses domains_init forward_checking
    time_limit_ms = Ok r ->
  overflows time_limit_ms = false ->
  (length courses < depth)%nat ->
  backtrack_search_bounded depth perf_counter courses domains_init
    forward_checking time_limit_ms = Returned r.
Proof.
  unfold backtrack_search_bounded, backtrack_search. intros H -> Hdepth.
  change (mkState [] domains_init 0 0 1 []) with (initial_state domains_init)
    in *.
  destruct (recurse2 _ _ _ _ _ _ (S _) _) as [[ok st]| |] eqn:Hr;
    [|done..].
  simpl in H. injection H as <-.
  apply recurse2_enough with (fuel' := depth) in Hr.
  - by rewrite Hr.
  - pose proof (initial_unassigned courses domains_init). lia.
Qed.
